(** * ep-stan, experiment/models/common.py

    A shallow embedding of the three numerical routines of [common.py]
    ([rand_corr_vine], [calc_input_param_lin_reg] and
    [calc_input_param_classification]) and of its class [data], together
    with the statements of the specification that concern them and further
    properties of the code.

    The routines are written once, over an arithmetic interface [Arith], and
    read at two instances:
    - [binary64], the IEEE 754 double precision numbers of numpy's float64
      (the inductive specification of the Standard Library, [spec_float], at
      precision 53 and maximal exponent 1024);
    - [R], the real numbers, the idealisation in which the algebraic
      statements of the specification (square roots of products, bounds,
      equality of two formulas) are meant.

    The coefficient arrays, whose rank and shape the code inspects, are
    numpy's: a shape and the row-major buffer of the elements.  Exceptions
    are values of [exn] returned through [result].  The random generator of
    numpy and the functions [erfinv] and [logit] of scipy are not part of
    the repository: [rand_corr_vine] takes a [generator], with the state it
    threads through its two calls, and [erfinv] and [logit] are parameters
    of the development. *)

From Stdlib Require Import String Bool Arith ZArith QArith List Lia.
From Stdlib Require Import Reals Lra Psatz.
From Stdlib Require Import Floats.SpecFloat.
From Stdlib Require Import Permutation FinFun.
Import ListNotations.

Close Scope R_scope.
Close Scope Q_scope.
Set Implicit Arguments.

(** ** Arithmetic *)

Declare Scope num_scope.
Delimit Scope num_scope with num.

Class Arith (T : Type) : Type := {
  lit : Q -> T;            (* a numeric literal of the source *)
  nadd : T -> T -> T;
  nsub : T -> T -> T;
  nmul : T -> T -> T;
  ndiv : T -> T -> T;
  nneg : T -> T;
  nsqrt : T -> T;          (* np.sqrt *)
  nabs : T -> T;           (* np.abs *)
  nlt : T -> T -> bool     (* x < y *)
}.

Notation "x + y" := (nadd x y) : num_scope.
Notation "x - y" := (nsub x y) : num_scope.
Notation "x * y" := (nmul x y) : num_scope.
Notation "x / y" := (ndiv x y) : num_scope.
Notation "- x" := (nneg x) : num_scope.

(** *** float64 *)

Definition binary64 : Type := spec_float.

Definition prec64 : Z := 53.
Definition emax64 : Z := 1024.

Definition b64_of_Z (z : Z) : binary64 := binary_normalize prec64 emax64 z 0 false.

(** A literal [n/d] is the quotient of [n] and [d] rounded to nearest.  The
    literals of this development have [n] and [d] that float64 holds
    exactly, so this is the float64 that Python reads the literal as. *)
Definition b64_lit (q : Q) : binary64 :=
  SFdiv prec64 emax64 (b64_of_Z (Qnum q)) (b64_of_Z (Zpos (Qden q))).

#[export] Instance binary64_arith : Arith binary64 := {|
  lit := b64_lit;
  nadd := SFadd prec64 emax64;
  nsub := SFsub prec64 emax64;
  nmul := SFmul prec64 emax64;
  ndiv := SFdiv prec64 emax64;
  nneg := SFopp;
  nsqrt := SFsqrt prec64 emax64;
  nabs := SFabs;
  nlt := SFltb
|}.

(** *** Real numbers *)

Definition Rltb (x y : R) : bool := if Rlt_dec x y then true else false.

#[export] Instance R_arith : Arith R := {|
  lit := Q2R;
  nadd := Rplus;
  nsub := Rminus;
  nmul := Rmult;
  ndiv := Rdiv;
  nneg := Ropp;
  nsqrt := sqrt;
  nabs := Rabs;
  nlt := Rltb
|}.

(** ** Exceptions *)

(** The exceptions of Python that the routines raise.  [Unmodelled] is not
    one of them: it marks a call that this development does not follow, the
    product with a [Sigma_x] that is not a matrix. *)
Inductive exn : Type :=
| ValueError (msg : string)
| IndexError
| UnboundLocalError
| Unmodelled.

Inductive result (A : Type) : Type :=
| Ok (a : A)
| Err (e : exn).

Arguments Ok {A} a.
Arguments Err {A} e.

Definition bind {A B : Type} (r : result A) (k : A -> result B) : result B :=
  match r with
  | Ok a => k a
  | Err e => Err e
  end.

Notation "'do' x <- r ; k" := (bind r (fun x => k))
  (at level 10, x name, r at level 100, k at level 200).

Definition msg_sigma : string :=
  "Input dimension has to be greater than 1 if Sigma is provided".
Definition msg_rank : string :=
  "Dimension of input arguments is too big".
(** numpy's [ValueError] for operands whose shapes do not fit; its text
    names the shapes. *)
Definition msg_align : string :=
  "shapes not aligned".
(** numpy's [ValueError] for [a[j] = v] with an array [v] that has an axis. *)
Definition msg_sequence : string :=
  "setting an array element with a sequence.".

(** ** Arrays *)

Record ndarray (T : Type) : Type := mk_array {
  shape : list nat;
  data : list T
}.

Arguments mk_array {T} shape data.

Definition prod_shape (s : list nat) : nat := fold_right Nat.mul 1 s.

(** A two-dimensional array as the list of its rows: the [d] x [d] arrays
    [P] and [C] of [rand_corr_vine], which the code only reads and writes
    entry by entry. *)
Definition mat (T : Type) : Type := list (list T).

Section Arrays.
Context {T : Type} `{Arith T}.
Local Open Scope num_scope.

Definition ndim (a : ndarray T) : nat := length (shape a).

(** [a.shape[-1]], read only where [a.ndim > 0]. *)
Definition last_dim (a : ndarray T) : nat := last (shape a) 0%nat.

(** The buffer holds as many elements as the shape says. *)
Definition wf (a : ndarray T) : Prop :=
  length (data a) = prod_shape (shape a).

(** [np.asarray(x)] of a Python float. *)
Definition scalar (x : T) : ndarray T := mk_array [] [x].
(** [np.asarray([x0, x1, ...])]. *)
Definition vector (v : list T) : ndarray T := mk_array [length v] v.
(** A [J] x [D] matrix given by its rows. *)
Definition matrix (J D : nat) (rws : list (list T)) : ndarray T :=
  mk_array [J; D] (concat rws).

(** [a[()]] of a 0-d array, the element it holds. *)
Definition item (a : ndarray T) : T := nth 0 (data a) (lit 0).

(** The [n] rows of length [D] of a row-major buffer. *)
Definition rows (n D : nat) (l : list T) : list (list T) :=
  map (fun j => firstn D (skipn (j * D) l)) (seq 0 n).

(** The rows along the last axis. *)
Definition rows_last (a : ndarray T) : list (list T) :=
  rows (prod_shape (removelast (shape a))) (last_dim a) (data a).

(** [np.squeeze(a)]: the axes of length one are dropped. *)
Definition squeeze (a : ndarray T) : ndarray T :=
  mk_array (filter (fun n => negb (n =? 1)%nat) (shape a)) (data a).

(** [a[0]], for an array whose first axis is not empty. *)
Definition index0 (a : ndarray T) : ndarray T :=
  mk_array (tl (shape a)) (firstn (prod_shape (tl (shape a))) (data a)).

(** [a[:, 0]] of a two-dimensional array. *)
Definition col0 (a : ndarray T) : ndarray T :=
  mk_array (removelast (shape a)) (concat (map (firstn 1) (rows_last a))).

(** [a[np.newaxis]]. *)
Definition newaxis (a : ndarray T) : ndarray T :=
  mk_array (1%nat :: shape a) (data a).

Definition map_array (f : T -> T) (a : ndarray T) : ndarray T :=
  mk_array (shape a) (map f (data a)).

(** [np.sum] of the elements of a buffer.  The reduction starts from the
    first element; numpy adds long buffers pairwise, which over the reals
    is the same sum. *)
Definition sum (l : list T) : T :=
  match l with
  | [] => lit 0
  | x :: r => fold_left nadd r x
  end.

Definition square (x : T) : T := x * x.

(** [np.eye(d)]. *)
Definition eye (d : nat) : mat T :=
  map (fun i => map (fun j => if (i =? j)%nat then lit 1 else lit 0) (seq 0 d))
      (seq 0 d).

Definition mul_lists (u v : list T) : list T :=
  map (fun p => fst p * snd p) (combine u v).

(** [np.sum(a, axis=-1)]. *)
Definition sum_last (a : ndarray T) : ndarray T :=
  mk_array (removelast (shape a)) (map sum (rows_last a)).

(** One row of [beta.dot(Sigma_x)]: entry [j] is the sum over [i] of
    [r[i] * Sigma_x[i, j]]. *)
Definition dot_row (D : nat) (Sx : list (list T)) (r : list T) : list T :=
  map (fun j => sum (map (fun p => fst p * nth j (snd p) (lit 0)) (combine r Sx)))
      (seq 0 D).

(** What [beta.dot(Sigma_x)], or [out *= beta] after it, comes to when
    [Sigma_x] is not the [D] x [D] array of the documentation.  The callers
    have checked [D > 1]: a matrix of another shape then makes numpy raise
    [ValueError], in [dot] when its first axis is not [D] and in the
    product in place when its second one is not.  For a [Sigma_x] that is
    not a matrix numpy returns a value for some shapes; those calls are not
    followed here. *)
Definition misfit (D : nat) (Sigma_x : ndarray T) : exn :=
  if ((ndim Sigma_x =? 2) && (1 <? D))%nat then ValueError msg_align
  else Unmodelled.

(** [out = beta.dot(Sigma_x); out *= beta; np.sum(out, axis=-1)], for
    [beta] with one or two axes. *)
Definition quad_last (beta Sigma_x : ndarray T) : result (ndarray T) :=
  let D := last_dim beta in
  if list_eq_dec Nat.eq_dec (shape Sigma_x) [D; D] then
    let Sx := rows D D (data Sigma_x) in
    Ok (mk_array (removelast (shape beta))
          (map (fun r => sum (mul_lists (dot_row D Sx r) r)) (rows_last beta)))
  else Err (misfit D Sigma_x).

(** The row-wise sum of squares, or the quadratic form when [Sigma_x]
    is given. *)
Definition sumsq_last (beta : ndarray T) (Sigma_x : option (ndarray T))
  : result (ndarray T) :=
  match Sigma_x with
  | None => Ok (sum_last (map_array square beta))
  | Some Sx => quad_last beta Sx
  end.

(** ** Linear regression *)

Definition R_SQUARED : T := lit 0.5%Q.

(** [Sigma_x is not None and (beta.ndim == 0 or beta.shape[-1] <= 1)] *)
Definition sigma_low_dim (beta : ndarray T) (Sigma_x : option (ndarray T)) : bool :=
  match Sigma_x with
  | None => false
  | Some _ => (ndim beta =? 0)%nat || (last_dim beta <=? 1)%nat
  end.

Definition calc_input_param_lin_reg
    (beta : ndarray T) (sigma : T) (Sigma_x : option (ndarray T))
  : result (ndarray T) :=
  if sigma_low_dim beta Sigma_x then Err (ValueError msg_sigma)
  else if (ndim beta =? 0)%nat || (last_dim beta =? 1)%nat then
    (* One dimensional input *)
    let beta :=
      if (ndim beta =? 2)%nat then col0 beta
      else if (ndim beta =? 1)%nat then index0 beta
      else beta in
    let out := map_array nabs beta in
    Ok (map_array (fun o => nsqrt (R_SQUARED / (lit 1 - R_SQUARED)) * sigma / o) out)
  else
    (* Multidimensional input *)
    do out <- sumsq_last beta Sigma_x;
    Ok (map_array
          (fun o => nsqrt (R_SQUARED / (o * (lit 1 - R_SQUARED))) * sigma) out).

End Arrays.

(** ** Classification *)

Section Classification.
Context {T : Type} `{Arith T}.
Local Open Scope num_scope.

(** [scipy.special.erfinv] and [scipy.special.logit]. *)
Variables erfinv logit : T -> T.
(** What freshly allocated [np.empty] storage holds. *)
Variable uninit : T.

Definition P_0 : T := lit 0.2%Q.
Definition GAMMA_0 : T := lit 0.01%Q.
Definition SIGMA_F0 : T := lit 0.25%Q.
Definition ERFINVGAMMA0 : T := erfinv (lit 2 * GAMMA_0 - lit 1).
Definition LOGITP0 : T := logit P_0.
Definition DELTA_MAX : T := nsqrt (lit 2) * SIGMA_F0 * ERFINVGAMMA0 - LOGITP0.

(** [a.shape[0]]. *)
Definition shape0 (a : ndarray T) : nat := nth 0 (shape a) 0%nat.

(** The group count [J] and, where the source binds it, [scalar_output]. *)
Definition group_count (alpha beta : ndarray T) : nat * option bool :=
  if (ndim alpha =? 1)%nat && negb (shape0 alpha =? 1)%nat then
    (shape0 alpha, None)
  else if (ndim beta =? 2)%nat && negb (shape0 beta =? 1)%nat then
    (shape0 beta, None)
  else
    (1%nat, Some ((ndim alpha =? 0)%nat && (ndim beta <? 2)%nat)).

(** Sum of squares of a one-dimensional [beta], or
    [np.sum(beta.dot(Sigma_x) * beta)]. *)
Definition sumsq_vec (beta : ndarray T) (Sigma_x : option (ndarray T)) : result T :=
  match Sigma_x with
  | None => Ok (sum (map square (data beta)))
  | Some Sx =>
      let D := last_dim beta in
      if list_eq_dec Nat.eq_dec (shape Sx) [D; D] then
        Ok (sum (mul_lists (dot_row D (rows D D (data Sx)) (data beta)) (data beta)))
      else Err (misfit D Sx)
  end.

(** [mu_x] of the mean adjustment, for the slope sum [sbeta]. *)
Definition shift (alpha sbeta : T) : T :=
  if nlt (lit 0) alpha then (DELTA_MAX - alpha) / sbeta
  else (- DELTA_MAX - alpha) / sbeta.

Definition single_group (alpha beta : ndarray T) (Sigma_x : option (ndarray T))
    (scalar_output : option bool) : result (ndarray T * ndarray T) :=
  let alpha := item (squeeze alpha) in
  let beta := squeeze beta in
  do ms <-
    (if nlt (nabs alpha) DELTA_MAX then
       (* No mean adjustment needed *)
       let mu_x := lit 0 in
       do ssbeta <-
         (if (ndim beta =? 1)%nat then
            do q <- sumsq_vec beta Sigma_x; Ok (nsqrt (lit 2 * q))
          else Ok (nsqrt (lit 2) * nabs (item beta)));
       Ok (mu_x, (LOGITP0 + nabs alpha) / (ERFINVGAMMA0 * ssbeta))
     else
       (* Mean adjustment needed *)
       let mu_x := shift alpha (sum (data beta)) in
       do ssbeta <-
         (if (ndim beta =? 1)%nat then
            do q <- sumsq_vec beta Sigma_x; Ok (nsqrt q)
          else Ok (nabs (item beta)));
       Ok (mu_x, SIGMA_F0 / ssbeta));
  match scalar_output with
  | None => Err UnboundLocalError
  | Some true => Ok (scalar (fst ms), scalar (snd ms))
  | Some false => Ok (vector [fst ms], vector [snd ms])
  end.

(** [l[j] = v]; the loops below only write inside the arrays they
    allocated. *)
Fixpoint upd (l : list T) (j : nat) (v : T) : list T :=
  match l, j with
  | [], _ => []
  | _ :: r, O => v :: r
  | x :: r, S j' => x :: upd r j' v
  end.

(** [a[j]] of a one-dimensional array. *)
Definition get (a : ndarray T) (j : nat) : result T :=
  match nth_error (data a) j with
  | Some x => Ok x
  | None => Err IndexError
  end.

Fixpoint for_each {St : Type} (js : list nat) (body : nat -> St -> result St)
    (st : St) : result St :=
  match js with
  | [] => Ok st
  | j :: r => do st' <- body j st; for_each r body st'
  end.

(** Common alpha, [beta] of shape (J, D). *)
Definition common_alpha (J : nat) (alpha : T) (beta : ndarray T)
    (Sigma_x : option (ndarray T)) : result (ndarray T * ndarray T) :=
  match nth_error (shape beta) 1 with
  | None => Err IndexError
  | Some D =>
      if nlt (nabs alpha) DELTA_MAX then
        let mu_x := vector (repeat (lit 0) J) in
        do sigma_x <-
          (if negb (D =? 1)%nat then
             do q <- sumsq_last beta Sigma_x;
             Ok (map_array (fun s => nsqrt (s * lit 2)) q)
           else Ok (map_array (fun b => nsqrt (lit 2) * nabs b) (col0 beta)));
        Ok (mu_x,
            map_array (fun s => (LOGITP0 + nabs alpha) / (s * ERFINVGAMMA0)) sigma_x)
      else
        let mu_x := map_array (fun m => shift alpha m) (sum_last beta) in
        do sigma_x <-
          (if negb (D =? 1)%nat then
             do q <- sumsq_last beta Sigma_x; Ok (map_array nsqrt q)
           else Ok (map_array nabs (col0 beta)));
        Ok (mu_x, map_array (fun s => SIGMA_F0 / s) sigma_x)
  end.

(** The body of the two per-group loops, once the operands of group [j]
    have been read. *)
Definition group_body (j : nat) (alpha_j : T) (divisor sbeta ssbeta : result T)
    (st : list T * list T) : result (list T * list T) :=
  let (mu_x, sigma_x) := st in
  if nlt (nabs alpha_j) DELTA_MAX then
    do d <- divisor;
    Ok (mu_x, upd sigma_x j ((LOGITP0 + nabs alpha_j) / d))
  else
    do sb <- sbeta;
    let mu_x := upd mu_x j (shift alpha_j sb) in
    do ssb <- ssbeta;
    Ok (mu_x, upd sigma_x j (SIGMA_F0 / ssb)).

(** The operand [x] of a value that is stored with [a[j] = v]: numpy
    stores a 0-d value and refuses an array with an axis, also one of
    length one, with [ValueError]. *)
Definition as_element (x : ndarray T) : result T :=
  if (ndim x =? 0)%nat then Ok (item x) else Err (ValueError msg_sequence).

(** Common beta, [alpha] of shape (J,) and [beta] of shape (D,).  For
    [D <> 1] the magnitude [ssbeta] is a 0-d value; for [D = 1] it is
    [np.abs(beta)], an array of shape (1,), and so is [divisor]: the
    quotients of lines 282 and 289 are then arrays, which the assignment to
    [sigma_x[j]] refuses. *)
Definition common_beta (J : nat) (alpha beta : ndarray T)
    (Sigma_x : option (ndarray T)) : result (ndarray T * ndarray T) :=
  let sbeta := sum (data beta) in
  do ssbeta <-
    (if negb (shape0 beta =? 1)%nat then
       do q <- sumsq_vec beta Sigma_x; Ok (scalar (nsqrt q))
     else Ok (map_array nabs beta));
  let divisor := map_array (fun s => nsqrt (lit 2) * ERFINVGAMMA0 * s) ssbeta in
  do st <-
    for_each (seq 0 J)
      (fun j st =>
         do alpha_j <- get alpha j;
         group_body j alpha_j (as_element divisor) (Ok sbeta) (as_element ssbeta) st)
      (repeat (lit 0) J, repeat uninit J);
  Ok (vector (fst st), vector (snd st)).

(** Multiple alpha and beta: [alpha] of shape (J,), [beta] two-dimensional. *)
Definition both_varying (J : nat) (alpha beta : ndarray T)
    (Sigma_x : option (ndarray T)) : result (ndarray T * ndarray T) :=
  let sbeta := sum_last beta in
  do ssbeta <-
    match nth_error (shape beta) 1 with
    | None => Err IndexError
    | Some D =>
        if negb (D =? 1)%nat then
          do q <- sumsq_last beta Sigma_x; Ok (map_array nsqrt q)
        else Ok (map_array nabs (col0 beta))
    end;
  let divisor := map_array (fun s => nsqrt (lit 2) * ERFINVGAMMA0 * s) ssbeta in
  do st <-
    for_each (seq 0 J)
      (fun j st =>
         do alpha_j <- get alpha j;
         group_body j alpha_j (get divisor j) (get sbeta j) (get ssbeta j) st)
      (repeat (lit 0) J, repeat uninit J);
  Ok (vector (fst st), vector (snd st)).

Definition multi_group (J : nat) (alpha beta : ndarray T)
    (Sigma_x : option (ndarray T)) : result (ndarray T * ndarray T) :=
  let alpha := squeeze alpha in
  let beta :=
    if (ndim beta =? 2)%nat && (shape0 beta =? 1)%nat then index0 beta else beta in
  let beta := if (ndim beta =? 0)%nat then newaxis beta else beta in
  if (ndim alpha =? 0)%nat then common_alpha J (item alpha) beta Sigma_x
  else if (ndim beta =? 1)%nat then common_beta J alpha beta Sigma_x
  else both_varying J alpha beta Sigma_x.

(** The entries that the per-group loops leave for a group with
    intercept [alpha_j]. *)
Definition group_mu (alpha_j sbeta_j : T) : T :=
  if nlt (nabs alpha_j) DELTA_MAX then lit 0 else shift alpha_j sbeta_j.

Definition group_sigma (alpha_j divisor_j ssbeta_j : T) : T :=
  if nlt (nabs alpha_j) DELTA_MAX then (LOGITP0 + nabs alpha_j) / divisor_j
  else SIGMA_F0 / ssbeta_j.

Definition calc_input_param_classification (alpha beta : ndarray T)
    (Sigma_x : option (ndarray T)) : result (ndarray T * ndarray T) :=
  if (1 <? ndim alpha)%nat || (2 <? ndim beta)%nat then
    Err (ValueError msg_rank)
  else
    let (J, scalar_output) := group_count alpha beta in
    if sigma_low_dim beta Sigma_x then Err (ValueError msg_sigma)
    else if (J =? 1)%nat then single_group alpha beta Sigma_x scalar_output
    else multi_group J alpha beta Sigma_x.

End Classification.

(** ** Random correlation matrices *)

(** numpy's [RandomState]: [beta_sample s a b n] is
    [s.beta(a, b, size=n)] and [permutation s d] is [s.permutation(d)],
    each with the state it leaves. *)
Record generator (T : Type) : Type := mk_generator {
  rstate : Type;
  RandomState : option Z -> rstate;
  beta_sample : rstate -> T -> T -> nat -> list T * rstate;
  permutation : rstate -> nat -> list nat * rstate
}.

(** The [seed] argument: a generator state, or what [RandomState] is built from. *)
Inductive seed_arg (St : Type) : Type :=
| SeedState (s : St)
| SeedValue (n : option Z).

Arguments SeedState {St} s.
Arguments SeedValue {St} n.

Section Vine.
Context {T : Type} `{Arith T}.
Local Open Scope num_scope.

Variable uninit : T.

Definition mget (M : mat T) (i j : nat) : T := nth j (nth i M []) (lit 0).

Definition mset (M : mat T) (i j : nat) (v : T) : mat T :=
  map (fun p => if (fst p =? i)%nat then upd (snd p) j v else snd p)
      (combine (seq 0 (length M)) M).

(** [np.empty((d, d))]. *)
Definition empty (d : nat) : mat T := repeat (repeat uninit d) d.

(** [np.triu_indices(d, 1)], as the list of the pairs (row, column). *)
Definition triu_indices (d : nat) : list (nat * nat) :=
  flat_map (fun i => map (pair i) (seq (S i) (d - S i))) (seq 0 d).

(** [M[inds] = vals]. *)
Definition scatter (M : mat T) (inds : list (nat * nat)) (vals : list T) : mat T :=
  fold_left (fun M p => mset M (fst (fst p)) (snd (fst p)) (snd p))
            (combine inds vals) M.

(** The indices that [M.T[inds]] addresses in [M]. *)
Definition transposed (inds : list (nat * nat)) : list (nat * nat) :=
  map (fun p => (snd p, fst p)) inds.

(** Lines 67-69: the loop over [k = i-1, ..., 0]. *)
Definition combine_k (P : mat T) (i j : nat) (cur : T) : T :=
  fold_left
    (fun cur k =>
       let cur := cur * nsqrt ((lit 1 - mget P i k) * (lit 1 - mget P j k)) in
       cur + mget P k i * mget P k j)
    (rev (seq 0 i)) cur.

(** The state of the conversion loop: [P] and the output [C]. *)
Record vine_state : Type := mk_vine {
  vP : mat T;
  vC : mat T
}.

(** Lines 66-71, one pair (i, j). *)
Definition vine_body (i j : nat) (st : vine_state) : vine_state :=
  let cur := combine_k (vP st) i j (mget (vP st) i j) in
  let C := mset (vC st) i j cur in
  let C := mset C j i cur in
  mk_vine (vP st) C.

(** Lines 64-71. *)
Definition vine_loop (d : nat) (st : vine_state) : vine_state :=
  fold_left
    (fun st i => fold_left (fun st j => vine_body i j st) (seq (i + 1) (d - (i + 1))) st)
    (seq 0 (d - 1)) st.

(** Lines 50-58: the partial correlations in the upper triangle of [P],
    their squares in the lower one. *)
Definition partial_correlations (pmin pmax : T) (draws : list T) : list T :=
  map (fun b => b * (pmax - pmin) + pmin) draws.

Definition init_P (d : nat) (betas : list T) : mat T :=
  let P := empty d in
  let uinds := triu_indices d in
  let P := scatter P uinds betas in
  let betas := map square betas in
  scatter P (transposed uinds) betas.

(** [C[np.ix_(perm, perm)]]. *)
Definition ix_ (C : mat T) (perm : list nat) : mat T :=
  map (fun a => map (fun b => mget C a b) perm) perm.

Variable G : generator T.

(** Lines 50-71: the state after the conversion loop. *)
Definition vine_state_of (d : nat) (pmin pmax : T) (draws : list T) : vine_state :=
  let betas := partial_correlations pmin pmax draws in
  vine_loop d (mk_vine (init_P d betas) (eye d)).

Definition rand_corr_vine (d : nat) (alpha beta pmin pmax : T)
    (seed : seed_arg (rstate G)) : mat T :=
  let rand_state :=
    match seed with
    | SeedState s => s
    | SeedValue n => RandomState G n
    end in
  let uinds := triu_indices d in
  let (draws, rand_state) := beta_sample G rand_state alpha beta (length uinds) in
  let st := vine_state_of d pmin pmax draws in
  let (perm, _) := permutation G rand_state d in
  ix_ (vC st) perm.

End Vine.

(** ** The statements of the specification that are compared with the code *)

Section AsSpecified.
Context {T : Type} `{Arith T}.
Local Open Scope num_scope.

(** The conversion loop in the words of the specification: for [k < i < j]
    the factors under the square root are the raw partial correlations of
    the upper triangle, the product is taken over the combined values that
    earlier iterations stored in the lower triangle, and each combined value
    is written back into the lower triangle of [P]. *)
Definition claimed_combine_k (P : mat T) (i j : nat) (cur : T) : T :=
  fold_left
    (fun cur k =>
       let cur := cur * nsqrt ((lit 1 - mget P k i) * (lit 1 - mget P k j)) in
       cur + mget P i k * mget P j k)
    (rev (seq 0 i)) cur.

Definition claimed_vine_body (i j : nat) (st : vine_state) : vine_state :=
  let cur := claimed_combine_k (vP st) i j (mget (vP st) i j) in
  let C := mset (vC st) i j cur in
  let C := mset C j i cur in
  mk_vine (mset (vP st) j i cur) C.

Definition claimed_vine_loop (d : nat) (st : vine_state) : vine_state :=
  fold_left
    (fun st i =>
       fold_left (fun st j => claimed_vine_body i j st) (seq (i + 1) (d - (i + 1))) st)
    (seq 0 (d - 1)) st.




(** The aggregate slope magnitude of the specification, for a scalar or
    a vector [beta]: [|beta|] for one input dimension, else the square
    root of the sum of squares, or of the quadratic form of [Sigma_x]
    when it is given. *)
Definition slope_magnitude (beta : ndarray T) (Sigma_x : option (ndarray T)) : T :=
  let D := length (data beta) in
  if (D =? 1)%nat then nabs (item beta)
  else nsqrt match Sigma_x with
             | None => sum (map square (data beta))
             | Some Sx =>
                 sum (mul_lists (dot_row D (rows D D (data Sx)) (data beta))
                                (data beta))
             end.

End AsSpecified.

(** ** The arguments of the calls, and what the proofs speak of *)

Section Auxiliary.
Context {T : Type} `{Arith T}.
Local Open Scope num_scope.

(** [Sigma_x], when given for an input of dimension above one, is the
    [D] x [D] array of the documentation. *)
Definition sigma_typed (beta : ndarray T) (Sigma_x : option (ndarray T)) : Prop :=
  match Sigma_x with
  | None => True
  | Some Sx =>
      (1 < last_dim beta)%nat -> shape Sx = [last_dim beta; last_dim beta]
  end.

(** A [d] x [d] array. *)
Definition square_mat (d : nat) (M : mat T) : Prop :=
  length M = d /\ forall a, (a < d)%nat -> length (nth a M []) = d.

(** The pairs that the conversion loop visits, in its order. *)
Definition loop_pairs (d : nat) : list (nat * nat) :=
  flat_map (fun i => map (pair i) (seq (i + 1) (d - (i + 1)))) (seq 0 (d - 1)).

(** Whether one of the pairs of [L] writes the entry [(a, b)] of [C]. *)
Definition written (L : list (nat * nat)) (a b : nat) : bool :=
  existsb (fun p => ((fst p =? a) && (snd p =? b) || (fst p =? b) && (snd p =? a))%nat) L.

(** The value that the conversion loop stores at [C[a, b]], [a <> b]. *)
Definition combined (P : mat T) (a b : nat) : T :=
  if (a <? b)%nat then combine_k P a b (mget P a b)
  else combine_k P b a (mget P b a).

(** The determinant of a 3 x 3 array. *)
Definition det3 (M : mat T) : T :=
  mget M 0 0 * (mget M 1 1 * mget M 2 2 - mget M 1 2 * mget M 2 1)
  - mget M 0 1 * (mget M 1 0 * mget M 2 2 - mget M 1 2 * mget M 2 0)
  + mget M 0 2 * (mget M 1 0 * mget M 2 1 - mget M 1 1 * mget M 2 0).

(** [Sigma_x], when given, is a [D] x [D] array. *)
Definition sigma_fits (D : nat) (Sigma_x : option (ndarray T)) : Prop :=
  match Sigma_x with
  | None => True
  | Some Sx => shape Sx = [D; D]
  end.

(** A vector [alpha] and a matrix [beta] that both carry a group axis
    have as many groups. *)
Definition groups_agree (alpha beta : ndarray T) : Prop :=
  ndim alpha = 1%nat -> ndim beta = 2%nat ->
  shape0 alpha <> 1%nat -> shape0 beta <> 1%nat -> shape0 alpha = shape0 beta.

(** [beta] holds one slope: a scalar, a vector of length one or a 1 x 1
    matrix. *)
Definition one_slope (beta : ndarray T) : bool :=
  match shape beta with
  | [] => true
  | [D] => (D =? 1)%nat
  | [J; D] => (J =? 1)%nat && (D =? 1)%nat
  | _ => false
  end.

(** A vector [alpha] of intercepts, not of length one, with one slope for
    all its groups: the arguments that lines 264-289 take with [ssbeta] an
    array of shape (1,). *)
Definition one_shared_slope (alpha beta : ndarray T) : bool :=
  (ndim alpha =? 1)%nat && negb (shape0 alpha =? 1)%nat && one_slope beta.

(** The intercept of group [j]: the one intercept there is, or entry [j]. *)
Definition alpha_of (alpha : ndarray T) (j : nat) : T :=
  nth (if (length (data alpha) =? 1)%nat then 0 else j)%nat (data alpha) (lit 0).

(** A value that is a quotient by a divisor with the property [Z]. *)
Definition quotient_by (Z : T -> Prop) (v : T) : Prop :=
  exists x y, v = x / y /\ Z y.

(** The shape of the two arrays that [calc_input_param_classification]
    returns: [()] for plain scalars, [(1,)] or [(J,)] otherwise. *)
Definition output_shape (alpha beta : ndarray T) : list nat :=
  match group_count alpha beta with
  | (_, Some true) => []
  | (_, Some false) => [1%nat]
  | (J, None) => [J]
  end.

(** A call that returns well-formed [mu_x] and [sigma_x] of shape [sh],
    every entry of [sigma_x] a quotient by a divisor with the property
    [Z], and so every entry of [mu_x] of a group whose intercept [aj j] is
    not below [delta_max]. *)
Definition degenerate_result (delta_max : T) (Z : T -> Prop) (aj : nat -> T)
    (sh : list nat) (r : result (ndarray T * ndarray T)) : Prop :=
  exists m s,
    r = Ok (m, s) /\ shape m = sh /\ shape s = sh /\ wf m /\ wf s /\
    Forall (quotient_by Z) (data s) /\
    forall j, (j < length (data m))%nat ->
              nlt (nabs (aj j)) delta_max = false ->
              quotient_by Z (nth j (data m) (lit 0)).

(** The draws of a generator have the requested size and its
    permutations are permutations of [0, ..., d-1]. *)
Definition generator_ok (G : generator T) : Prop :=
  (forall s a b n, length (fst (beta_sample G s a b n)) = n) /\
  (forall s d, Permutation (fst (permutation G s d)) (seq 0 d)).

End Auxiliary.

(** ** Concrete inputs *)

Definition fl (q : Q) : binary64 := lit q.

(** float64 values near [erfinv(2 * 0.01 - 1)] and [logit(0.2)], for the
    two functions of scipy at the arguments the module calls them with. *)
Definition erfinv64 (_ : binary64) : binary64 := fl (-1.6449763571331868).
Definition logit64 (_ : binary64) : binary64 := fl (-1.3862943611198906).

(** The same two values as real numbers. *)
Definition erfinvR (_ : R) : R := Q2R (-1.6449763571331872).
Definition logitR (_ : R) : R := Q2R (-1.3862943611198906).

(** The zeros, and the zeros and NaN, of float64. *)
Definition is_zero (x : binary64) : Prop :=
  match x with S754_zero _ => True | _ => False end.

Definition zero_or_nan (x : binary64) : Prop :=
  match x with S754_zero _ | S754_nan => True | _ => False end.

(** The infinities and NaN. *)
Definition non_finite (x : binary64) : Prop :=
  match x with S754_infinity _ | S754_nan => True | _ => False end.

(** A generator whose draws are all [x] and whose permutation reverses. *)
Definition constant_generator {T : Type} (x : T) : generator T :=
  mk_generator (fun _ => tt) (fun s _ _ n => (repeat x n, s))
               (fun s d => (rev (seq 0 d), s)).

(** ** The simulated data *)

(** [x != y] on numbers. *)
Class Compare (T : Type) : Type := {
  nneq : T -> T -> bool
}.

#[export] Instance binary64_compare : Compare binary64 := {|
  nneq := fun x y => negb (SFeqb x y)
|}.

#[export] Instance R_compare : Compare R := {|
  nneq := fun x y => if Req_dec_T x y then false else true
|}.

(** A one-dimensional array of integer or of floating dtype. *)
Inductive yarray (T : Type) : Type :=
| IntArray (l : list Z)
| FloatArray (l : list T).

Arguments IntArray {T} l.
Arguments FloatArray {T} l.

Definition msg_broadcast : string :=
  "operands could not be broadcast together".

(** The value of a 64-bit signed integer after wrap-around. *)
Definition int64 (z : Z) : Z := ((z + 2 ^ 63) mod 2 ^ 64 - 2 ^ 63)%Z.

Module data.

Section Data.
Context {T : Type} `{Arith T} `{Compare T}.
Local Open Scope num_scope.

(** The type of the two dictionaries, which the class only stores. *)
Variable Dict : Type.
(** What freshly allocated [np.empty] storage holds. *)
Variable uninit : T.

Record t : Type := mk {
  X : ndarray T;
  y : yarray T;
  y_true : yarray T;
  Nj : list Z;
  N : Z;
  J : nat;
  j_lim : list nat;
  j_ind : list nat;
  true_values : Dict;
  X_param : Dict
}.

(** [__init__]: [N] is [np.sum(Nj)] on int64, [J] is [Nj.shape[0]]. *)
Definition init (X : ndarray T) (y : yarray T) (X_param : Dict) (y_true : yarray T)
    (Nj : list Z) (j_lim j_ind : list nat) (true_values : Dict) : t :=
  mk X y y_true Nj (int64 (fold_left Z.add Nj 0%Z)) (length Nj)
     j_lim j_ind true_values X_param.

(** An integer as a float, as numpy promotes it. *)
Definition of_int (z : Z) : T := lit (inject_Z z).

(** [l[a:b]] for non-negative limits. *)
Definition slice {A : Type} (l : list A) (a b : nat) : list A :=
  firstn (b - a) (skipn a l).

Definition yslice (a : yarray T) (lo hi : nat) : yarray T :=
  match a with
  | IntArray l => IntArray (slice l lo hi)
  | FloatArray l => FloatArray (slice l lo hi)
  end.

Definition ylength (a : yarray T) : nat :=
  match a with
  | IntArray l => length l
  | FloatArray l => length l
  end.

(** An elementwise operation on two one-dimensional arrays: an array of
    one element is broadcast, other lengths have to agree. *)
Definition broadcast2 {A B C : Type} (f : A -> B -> C) (u : list A) (v : list B)
  : result (list C) :=
  match u, v with
  | [x], _ => Ok (map (f x) v)
  | _, [x] => Ok (map (fun a => f a x) u)
  | _, _ =>
      if (length u =? length v)%nat
      then Ok (map (fun p => f (fst p) (snd p)) (combine u v))
      else Err (ValueError msg_broadcast)
  end.

(** [u != v]. *)
Definition not_equal (u v : yarray T) : result (list bool) :=
  match u, v with
  | IntArray a, IntArray b => broadcast2 (fun p q => negb (p =? q)%Z) a b
  | IntArray a, FloatArray b => broadcast2 (fun p q => nneq (of_int p) q) a b
  | FloatArray a, IntArray b => broadcast2 (fun p q => nneq p (of_int q)) a b
  | FloatArray a, FloatArray b => broadcast2 nneq a b
  end.

(** [np.count_nonzero]. *)
Definition count_nonzero (l : list bool) : Z :=
  Z.of_nat (length (filter (fun b => b) l)).

(** The elements as floats. *)
Definition as_float (a : yarray T) : list T :=
  match a with
  | IntArray l => map of_int l
  | FloatArray l => l
  end.

(** [np.mean]. *)
Definition mean (l : list T) : T := sum l / of_int (Z.of_nat (length l)).

(** [l[j]] of an array of indices or counts. *)
Definition geti {A : Type} (l : list A) (j : nat) : result A :=
  match nth_error l j with
  | Some x => Ok x
  | None => Err IndexError
  end.

(** Lines 383 and 387-390: the share of wrong classes among [n]. *)
Definition wrong_share (y_true y : yarray T) (n : Z) : result T :=
  do ne <- not_equal y_true y;
  Ok (of_int (count_nonzero ne) / of_int n).

(** Lines 394-396 and 399-409: one minus [sse / sst]. *)
Definition r_squared (y y_true : list T) : result T :=
  let m := mean y in
  let sst := sum (map (fun v => square (v - m)) y) in
  do diff <- broadcast2 nsub y y_true;
  let sse := sum (map square diff) in
  Ok (lit 1 - sse / sst).

(** The loop that fills [uncertainty_group]. *)
Definition fill_groups (J : nat) (entry : nat -> result T) : result (list T) :=
  for_each (seq 0 J)
    (fun j ug => do u <- entry j; Ok (upd ug j u))
    (repeat uninit J).

Definition calc_uncertainty (self : t) : result (T * list T) :=
  match y self with
  | IntArray _ =>
      (* Categorial: percentage of wrong classes *)
      do uncertainty_global <- wrong_share (y_true self) (y self) (N self);
      do uncertainty_group <-
        fill_groups (J self)
          (fun j =>
             do lo <- geti (j_lim self) j;
             do hi <- geti (j_lim self) (j + 1);
             do ne <- not_equal (yslice (y_true self) lo hi) (yslice (y self) lo hi);
             do n <- geti (Nj self) j;
             Ok (of_int (count_nonzero ne) / of_int n));
      Ok (uncertainty_global, uncertainty_group)
  | FloatArray yl =>
      (* Continuous: R squared *)
      do uncertainty_global <- r_squared yl (as_float (y_true self));
      do uncertainty_group <-
        fill_groups (J self)
          (fun j =>
             do lo <- geti (j_lim self) j;
             do hi <- geti (j_lim self) (j + 1);
             r_squared (slice yl lo hi) (slice (as_float (y_true self)) lo hi));
      Ok (uncertainty_global, uncertainty_group)
  end.

End Data.

End data.

(** What the statements about [data] speak of. *)

Section DataAuxiliary.
Context {T : Type} `{Arith T} `{Compare T}.
Local Open Scope num_scope.

(** [y] and [y_true] hold one value for each observation and there is
    one limit more than there are groups. *)
Definition well_shaped {Dict : Type} (self : @data.t T Dict) : Prop :=
  data.ylength (data.y_true self) = data.ylength (data.y self) /\
  length (data.j_lim self) = S (data.J self) /\
  length (data.Nj self) = data.J self.

(** The total sum of squares of lines 394 and 399. *)
Definition sst (l : list T) : T :=
  sum (map (fun v => square (v - data.mean l)) l).

(** The limit [j_lim[j]]. *)
Definition lim {Dict : Type} (self : @data.t T Dict) (j : nat) : nat :=
  nth j (data.j_lim self) 0%nat.

(** The limits cut the observations into consecutive groups, group [j] of
    [Nj[j] > 0] observations. *)
Definition partitioned {Dict : Type} (self : @data.t T Dict) : Prop :=
  lim self 0 = 0%nat /\
  lim self (data.J self) = data.ylength (data.y self) /\
  forall j, (j < data.J self)%nat ->
    (0 < nth j (data.Nj self) 0)%Z /\
    Z.of_nat (lim self (S j)) = (Z.of_nat (lim self j) + nth j (data.Nj self) 0)%Z.

End DataAuxiliary.

(** * Properties *)

(** ** Lists and matrices *)

Section MatrixFacts.
Context {T : Type} `{Arith T}.

Lemma upd_length (l : list T) j v : length (upd l j v) = length l.
Proof.
  revert j; induction l as [|x l IH]; intros [|j]; simpl; auto.
Qed.

Lemma nth_upd_same (l : list T) j v dflt :
  (j < length l)%nat -> nth j (upd l j v) dflt = v.
Proof.
  revert j; induction l as [|x l IH]; intros [|j] Hj; simpl in *; try lia; auto.
  apply IH; lia.
Qed.

Lemma nth_upd_other (l : list T) j k v dflt :
  k <> j -> nth k (upd l j v) dflt = nth k l dflt.
Proof.
  revert j k; induction l as [|x l IH]; intros [|j] [|k] Hk; simpl; auto;
    try congruence.
Qed.

Lemma upd_app_length (l1 l2 : list T) x v :
  upd (l1 ++ x :: l2) (length l1) v = l1 ++ v :: l2.
Proof.
  induction l1 as [|y l1 IH]; simpl; auto. now rewrite IH.
Qed.

Lemma upd_app_at (l1 l2 : list T) x v k :
  length l1 = k -> upd (l1 ++ x :: l2) k v = l1 ++ v :: l2.
Proof. intros <-. apply upd_app_length. Qed.

Lemma nth_rows_from (f : list T -> list T) (M : mat T) i s a :
  f [] = [] ->
  nth a (map (fun p => if (fst p =? i)%nat then f (snd p) else snd p)
             (combine (seq s (length M)) M)) [] =
  if (s + a =? i)%nat then f (nth a M []) else nth a M [].
Proof.
  intros Hf. revert s a; induction M as [|r M IH]; intros s a; simpl.
  - destruct a; simpl; destruct (_ =? _)%nat; auto.
  - destruct a as [|a]; simpl.
    + now rewrite Nat.add_0_r.
    + rewrite IH. now replace (S s + a)%nat with (s + S a)%nat by lia.
Qed.

Lemma nth_mset (M : mat T) i j v a :
  nth a (mset M i j v) [] =
  if (a =? i)%nat then upd (nth a M []) j v else nth a M [].
Proof.
  unfold mset.
  rewrite (nth_rows_from (fun r => upd r j v) M i 0 a); auto.
Qed.

Lemma mset_length (M : mat T) i j v : length (mset M i j v) = length M.
Proof.
  unfold mset. rewrite length_map, length_combine, length_seq. lia.
Qed.

Lemma mget_mset_same (M : mat T) i j v :
  (j < length (nth i M []))%nat -> mget (mset M i j v) i j = v.
Proof.
  intros Hj. unfold mget. rewrite nth_mset, Nat.eqb_refl.
  now apply nth_upd_same.
Qed.

Lemma mget_mset_other (M : mat T) i j v a b :
  (a, b) <> (i, j) -> mget (mset M i j v) a b = mget M a b.
Proof.
  intros Hab. unfold mget. rewrite nth_mset.
  destruct (Nat.eqb_spec a i) as [->|]; auto.
  apply nth_upd_other. congruence.
Qed.

Lemma square_mat_mset d (M : mat T) i j v :
  square_mat d M -> square_mat d (mset M i j v).
Proof.
  intros [Hl Hr]; split.
  - now rewrite mset_length.
  - intros a Ha. rewrite nth_mset.
    destruct (_ =? _)%nat; rewrite ?upd_length; auto.
Qed.

Lemma mget_mset d (M : mat T) i j v a b :
  square_mat d M -> (i < d)%nat -> (j < d)%nat ->
  mget (mset M i j v) a b =
  if ((a =? i) && (b =? j))%nat then v else mget M a b.
Proof.
  intros [Hl Hr] Hi Hj.
  destruct (Nat.eqb_spec a i) as [->|Ha]; simpl.
  - destruct (Nat.eqb_spec b j) as [->|Hb].
    + apply mget_mset_same. rewrite Hr; auto.
    + apply mget_mset_other. congruence.
  - apply mget_mset_other. congruence.
Qed.

Lemma square_mat_eye d : square_mat d (eye (T := T) d).
Proof.
  unfold eye; split.
  - now rewrite length_map, length_seq.
  - intros a Ha.
    rewrite (nth_indep _ [] (map (fun j => if (0 =? j)%nat then lit 1 else lit 0) (seq 0 d)))
      by now rewrite length_map, length_seq.
    rewrite (map_nth (fun i => map (fun j => if (i =? j)%nat then lit 1 else lit 0) (seq 0 d))
                     (seq 0 d) 0%nat a).
    now rewrite length_map, length_seq.
Qed.

Lemma mget_eye d a b :
  (a < d)%nat -> (b < d)%nat ->
  mget (eye d) a b = if (a =? b)%nat then lit 1 else lit 0.
Proof.
  intros Ha Hb. unfold mget, eye.
  rewrite (nth_indep _ [] (map (fun j => if (0 =? j)%nat then lit 1 else lit 0) (seq 0 d)))
    by now rewrite length_map, length_seq.
  rewrite (map_nth (fun i => map (fun j => if (i =? j)%nat then lit 1 else lit 0) (seq 0 d))
                   (seq 0 d) 0%nat a).
  rewrite seq_nth by auto. simpl.
  rewrite (nth_indep _ (lit 0) (if (a =? 0)%nat then lit 1 else lit 0))
    by now rewrite length_map, length_seq.
  rewrite (map_nth (fun j => if (a =? j)%nat then lit 1 else lit 0) (seq 0 d) 0%nat b).
  now rewrite seq_nth by auto.
Qed.

Lemma square_mat_empty (u : T) d : square_mat d (empty u d).
Proof.
  unfold empty; split.
  - apply repeat_length.
  - intros a Ha. rewrite nth_repeat_lt by auto. apply repeat_length.
Qed.

End MatrixFacts.

(** ** The construction of [P] *)

Section VineFacts.
Context {T : Type} `{Arith T}.
Local Open Scope num_scope.

Lemma fold_nested_pairs {St : Type} (body : nat -> nat -> St -> St)
      (js : nat -> list nat) (l : list nat) (st : St) :
  fold_left (fun st i => fold_left (fun st j => body i j st) (js i) st) l st =
  fold_left (fun st p => body (fst p) (snd p) st)
            (flat_map (fun i => map (pair i) (js i)) l) st.
Proof.
  revert st; induction l as [|i l IH]; intros st; simpl; auto.
  rewrite fold_left_app, <- IH. f_equal.
  generalize (js i) st. clear.
  induction l as [|j l IH]; intros st; simpl; auto.
Qed.

Lemma in_triu_indices d a b :
  In (a, b) (triu_indices d) <-> (a < b /\ b < d)%nat.
Proof.
  unfold triu_indices. rewrite in_flat_map. split.
  - intros (i & Hi & Hab). apply in_map_iff in Hab as (j & Hj & Hin).
    inversion Hj; subst. apply in_seq in Hi, Hin. lia.
  - intros [Hab Hb]. exists a. split.
    + apply in_seq. lia.
    + apply in_map, in_seq. lia.
Qed.

Lemma in_loop_pairs d a b :
  In (a, b) (loop_pairs d) <-> (a < b /\ b < d)%nat.
Proof.
  unfold loop_pairs. rewrite in_flat_map. split.
  - intros (i & Hi & Hab). apply in_map_iff in Hab as (j & Hj & Hin).
    inversion Hj; subst. apply in_seq in Hi, Hin. lia.
  - intros [Hab Hb]. exists a. split.
    + apply in_seq. lia.
    + apply in_map, in_seq. lia.
Qed.

Lemma NoDup_triu_indices d : NoDup (triu_indices d).
Proof.
  unfold triu_indices.
  assert (Hgen : forall l, NoDup l ->
    NoDup (flat_map (fun i => map (pair i) (seq (S i) (d - S i))) l)).
  { induction l as [|i l IH]; intros Hl; simpl.
    - constructor.
    - inversion Hl; subst. apply NoDup_app.
      + apply Finite.Injective_map_NoDup.
        * intros x y Hxy. now inversion Hxy.
        * apply seq_NoDup.
      + auto.
      + intros [a b] Hin Hin'. apply in_map_iff in Hin as (j & Hj & _).
        inversion Hj; subst.
        apply in_flat_map in Hin' as (i' & Hi' & Hin').
        apply in_map_iff in Hin' as (j' & Hj' & _).
        inversion Hj'; subst. auto. }
  apply Hgen, seq_NoDup.
Qed.

Lemma NoDup_transposed (inds : list (nat * nat)) :
  NoDup inds -> NoDup (transposed inds).
Proof.
  intros Hn. unfold transposed. apply Finite.Injective_map_NoDup; auto.
  intros [a b] [a' b'] Heq. simpl in Heq. now inversion Heq.
Qed.

(** [M[inds] = vals] for distinct indices: entry [inds[t]] holds
    [vals[t]], the others are untouched. *)
Lemma scatter_spec d (inds : list (nat * nat)) :
  forall (vals : list T) (M : mat T),
    square_mat d M ->
    (forall p, In p inds -> (fst p < d /\ snd p < d)%nat) ->
    NoDup inds ->
    length vals = length inds ->
    square_mat d (scatter M inds vals) /\
    (forall t dp dv, (t < length inds)%nat ->
       mget (scatter M inds vals) (fst (nth t inds dp)) (snd (nth t inds dp)) =
       nth t vals dv) /\
    (forall a b, ~ In (a, b) inds ->
       mget (scatter M inds vals) a b = mget M a b).
Proof.
  induction inds as [|[i j] inds IH]; intros vals M HM Hin Hnd Hlen.
  - unfold scatter; simpl. repeat split; try apply HM; auto.
    intros t dp dv Ht; simpl in Ht; lia.
  - destruct vals as [|v vals]; [discriminate|].
    inversion Hnd as [|? ? Hni Hnd']; subst.
    assert (Hij : (i < d /\ j < d)%nat) by (apply (Hin (i, j)); now left).
    destruct (IH vals (mset M i j v)) as (Hsq & Hget & Hoth); auto.
    { now apply square_mat_mset. }
    { intros p Hp; apply Hin; now right. }
    unfold scatter in *; simpl. repeat split; try apply Hsq.
    + intros [|t] dp dv Ht; simpl.
      * rewrite Hoth by auto. rewrite (mget_mset _ _ _ HM) by lia.
        now rewrite !Nat.eqb_refl.
      * apply Hget. simpl in Ht; lia.
    + intros a b Hab. rewrite Hoth by (intros Hc; apply Hab; now right).
      apply mget_mset_other. intros Hc; apply Hab; left; congruence.
Qed.

(** After lines 50-58, the upper triangle of [P] holds the partial
    correlations in the order of [triu_indices], the lower triangle
    their squares. *)
Lemma init_P_spec (u : T) d (betas : list T) :
  length betas = length (triu_indices d) ->
  square_mat d (init_P u d betas) /\
  (forall t dv, (t < length betas)%nat ->
     mget (init_P u d betas) (fst (nth t (triu_indices d) (0, 0)%nat))
          (snd (nth t (triu_indices d) (0, 0)%nat)) = nth t betas dv) /\
  (forall a b, (a < b)%nat -> (b < d)%nat ->
     In (mget (init_P u d betas) a b) betas /\
     mget (init_P u d betas) b a = square (mget (init_P u d betas) a b)).
Proof.
  intros Hlen. unfold init_P.
  assert (Hrange : forall p, In p (triu_indices d) -> (fst p < d /\ snd p < d)%nat).
  { intros [a b] Hp. apply in_triu_indices in Hp. simpl; lia. }
  destruct (@scatter_spec d (triu_indices d) betas (empty u d))
    as (Hsq1 & Hget1 & _); auto using square_mat_empty, NoDup_triu_indices.
  destruct (@scatter_spec d (transposed (triu_indices d)) (map square betas)
              (scatter (empty u d) (triu_indices d) betas))
    as (Hsq2 & Hget2 & Hoth2); auto.
  { intros [a b] Hp. unfold transposed in Hp.
    apply in_map_iff in Hp as ([a' b'] & Heq & Hp). simpl in Heq.
    inversion Heq; subst. apply Hrange in Hp. simpl in *; lia. }
  { apply NoDup_transposed, NoDup_triu_indices. }
  { unfold transposed. now rewrite !length_map. }
  assert (Hup : forall a b, (a < b)%nat ->
            ~ In (a, b) (transposed (triu_indices d))).
  { intros a b Hab Hp. unfold transposed in Hp.
    apply in_map_iff in Hp as ([a' b'] & Heq & Hp). simpl in Heq.
    inversion Heq; subst. apply in_triu_indices in Hp. lia. }
  split; [exact Hsq2|]. split.
  - intros t dv Ht.
    destruct (nth t (triu_indices d) (0, 0)%nat) as [a b] eqn:Hn.
    assert (Hin : In (a, b) (triu_indices d)).
    { rewrite <- Hn. apply nth_In. lia. }
    apply in_triu_indices in Hin. simpl.
    rewrite Hoth2 by (apply Hup; lia).
    specialize (Hget1 t (0, 0)%nat dv). rewrite Hn in Hget1. apply Hget1. lia.
  - intros a b Hab Hb.
    assert (Hin : In (a, b) (triu_indices d)) by (apply in_triu_indices; lia).
    destruct (In_nth _ _ (0, 0)%nat Hin) as (t & Ht & Hn).
    assert (Hupper : mget (scatter (scatter (empty u d) (triu_indices d) betas)
                       (transposed (triu_indices d)) (map square betas)) a b
                     = nth t betas (lit 0)).
    { rewrite Hoth2 by (apply Hup; lia).
      specialize (Hget1 t (0, 0)%nat (lit 0)). rewrite Hn in Hget1. now apply Hget1. }
    split.
    + rewrite Hupper. apply nth_In. lia.
    + rewrite Hupper.
      assert (Hnt : nth t (transposed (triu_indices d)) (0, 0)%nat = (b, a)).
      { pose proof (map_nth (fun p : nat * nat => (snd p, fst p))
                            (triu_indices d) (0, 0)%nat t) as Hm.
        simpl in Hm. rewrite Hn in Hm. exact Hm. }
      specialize (Hget2 t (0, 0)%nat (square (lit 0))).
      rewrite Hnt in Hget2. simpl in Hget2.
      rewrite Hget2 by (unfold transposed; rewrite length_map; lia).
      apply (map_nth square).
Qed.

Lemma fold_left_ext_in {A B : Type} (f g : A -> B -> A) (l : list B) :
  (forall x, In x l -> forall a, f a x = g a x) ->
  forall a, fold_left f l a = fold_left g l a.
Proof.
  induction l as [|x l IH]; intros Hfg a; simpl; auto.
  rewrite Hfg by now left. apply IH. intros y Hy; apply Hfg; now right.
Qed.

Lemma written_loop_pairs d a b :
  written (loop_pairs d) a b = true <-> ((a < b /\ b < d) \/ (b < a /\ a < d))%nat.
Proof.
  unfold written. rewrite existsb_exists. split.
  - intros ([i j] & Hin & Hhit). apply in_loop_pairs in Hin. simpl in Hhit.
    apply orb_true_iff in Hhit as [Hh|Hh];
      apply andb_true_iff in Hh as [H1 H2];
      apply Nat.eqb_eq in H1, H2; subst; lia.
  - intros [[Hab Hb]|[Hba Ha]].
    + exists (a, b). split; [apply in_loop_pairs; lia|].
      simpl. now rewrite !Nat.eqb_refl.
    + exists (b, a). split; [apply in_loop_pairs; lia|].
      simpl. rewrite !Nat.eqb_refl. simpl. apply orb_true_r.
Qed.

(** The loop writes [C] only: [P] is the same before and after, and an
    entry of [C] is either untouched or the combined value of its pair. *)
Lemma vine_fold_spec d (L : list (nat * nat)) :
  forall st : vine_state,
    (forall p, In p L -> (fst p < snd p /\ snd p < d)%nat) ->
    square_mat d (vC st) ->
    let st' := fold_left (fun st p => vine_body (fst p) (snd p) st) L st in
    vP st' = vP st /\ square_mat d (vC st') /\
    forall a b, mget (vC st') a b =
                if written L a b then combined (vP st) a b else mget (vC st) a b.
Proof.
  induction L as [|[i j] L IH]; intros st HL Hsq; simpl.
  - auto.
  - assert (Hij : (i < j /\ j < d)%nat) by (apply (HL (i, j)); now left).
    assert (Hsq1 : square_mat d (vC (vine_body i j st))).
    { unfold vine_body; simpl. now do 2 apply square_mat_mset. }
    destruct (IH (vine_body i j st)) as (HP & Hsq' & Hget); auto.
    { intros p Hp; apply HL; now right. }
    simpl in *. split; [exact HP|]. split; [exact Hsq'|].
    intros a b. rewrite Hget.
    destruct (written L a b); [now rewrite orb_true_r|].
    rewrite orb_false_r.
    rewrite (mget_mset (d := d)) by (auto using square_mat_mset; lia).
    rewrite (mget_mset (d := d)) by (auto; lia).
    rewrite (Nat.eqb_sym i a), (Nat.eqb_sym j b), (Nat.eqb_sym i b), (Nat.eqb_sym j a).
    unfold combined.
    destruct (Nat.eqb_spec a i), (Nat.eqb_spec b j), (Nat.eqb_spec a j),
      (Nat.eqb_spec b i); subst; simpl; try lia; try reflexivity.
    + destruct (Nat.ltb_spec i j); [reflexivity|lia].
    + destruct (Nat.ltb_spec j i); [lia|reflexivity].
Qed.

Lemma vine_loop_spec d (st : vine_state) :
  square_mat d (vC st) ->
  vP (vine_loop d st) = vP st /\ square_mat d (vC (vine_loop d st)) /\
  forall a b, mget (vC (vine_loop d st)) a b =
              if written (loop_pairs d) a b then combined (vP st) a b
              else mget (vC st) a b.
Proof.
  intros Hsq. unfold vine_loop.
  rewrite (fold_nested_pairs (fun i j st => vine_body i j st)
             (fun i => seq (i + 1) (d - (i + 1)))).
  apply (vine_fold_spec (d := d)); auto.
  intros [a b] Hp. apply in_loop_pairs in Hp. simpl; lia.
Qed.

End VineFacts.

(** ** The conversion loop of [rand_corr_vine] *)

(** C1, as the code has it.  For draws of the size of the upper triangle,
    the loop of lines 64-71 leaves [P] as lines 50-58 built it: entry
    [t] of [triu_indices] of the upper triangle holds partial correlation
    [t], and the lower triangle holds the squares.  For each pair
    [i < j < d] the value stored at [C[i, j]] and [C[j, i]] is obtained
    from [P[i, j]] by the steps
    [cur = cur * sqrt((1 - P[i,k]) * (1 - P[j,k])) + P[k,i] * P[k,j]],
    [k = i-1, ..., 0], in which [P[i,k]] and [P[j,k]] are the squares of
    the raw partial correlations [P[k,i]] and [P[k,j]] of the upper
    triangle.  The combined values are written to [C] only. *)
Theorem vine_loop_combines_raw_and_squares :
  forall (T : Type) (A : Arith T) (u pmin pmax : T) (d : nat) (draws : list T),
    length draws = length (triu_indices d) ->
    let p := partial_correlations pmin pmax draws in
    let P := init_P u d p in
    let st := vine_state_of u d pmin pmax draws in
    vP st = P /\
    (forall t, (t < length p)%nat ->
       mget P (fst (nth t (triu_indices d) (0, 0)%nat))
            (snd (nth t (triu_indices d) (0, 0)%nat)) = nth t p (lit 0)) /\
    (forall i j k, (k < i)%nat -> (i < j)%nat -> (j < d)%nat ->
       mget P i k = square (mget P k i) /\ mget P j k = square (mget P k j)) /\
    (forall i j, (i < j)%nat -> (j < d)%nat ->
       mget (vC st) i j =
       fold_left
         (fun cur k =>
            (cur * nsqrt ((lit 1 - square (mget P k i)) * (lit 1 - square (mget P k j)))
             + mget P k i * mget P k j)%num)
         (rev (seq 0 i)) (mget P i j) /\
       mget (vC st) j i = mget (vC st) i j).
Proof.
  intros T A u pmin pmax d draws Hlen p P st.
  assert (Hp : length p = length (triu_indices d)).
  { unfold p, partial_correlations. now rewrite length_map. }
  destruct (init_P_spec u d p Hp) as (HsqP & Hupper & Hlower).
  destruct (@vine_loop_spec T A d (mk_vine P (eye d))) as (HP & HsqC & HC).
  { simpl. apply square_mat_eye. }
  fold P in Hupper, Hlower.
  assert (Hst : st = vine_loop d (mk_vine P (eye d))) by reflexivity.
  simpl in HP, HC. rewrite <- Hst in HP, HC.
  split; [exact HP|]. split; [intros t Ht; now apply Hupper|].
  assert (Hsquares : forall i j k, (k < i)%nat -> (i < j)%nat -> (j < d)%nat ->
            mget P i k = square (mget P k i) /\ mget P j k = square (mget P k j)).
  { intros i j k Hk Hi Hj. split; apply Hlower; lia. }
  split; [exact Hsquares|].
  intros i j Hi Hj.
  assert (Hij : mget (vC st) i j = combine_k P i j (mget P i j)).
  { rewrite HC.
    replace (written (loop_pairs d) i j) with true
      by (symmetry; apply written_loop_pairs; lia).
    unfold combined. destruct (Nat.ltb_spec i j); [reflexivity|lia]. }
  split.
  - rewrite Hij. unfold combine_k. apply fold_left_ext_in.
    intros k Hk cur. apply in_rev, in_seq in Hk.
    destruct (Hsquares i j k) as [-> ->]; auto; lia.
  - rewrite Hij, HC.
    replace (written (loop_pairs d) j i) with true
      by (symmetry; apply written_loop_pairs; lia).
    unfold combined. destruct (Nat.ltb_spec j i); [lia|reflexivity].
Qed.

Lemma vine_loop_combines_raw_and_squares_witness :
  mget (vC (vine_state_of (fl 0) 3 (fl (-1)) (fl 1) [fl 0.75; fl 0.75; fl 0.75])) 2 1
  = mget (vC (vine_state_of (fl 0) 3 (fl (-1)) (fl 1) [fl 0.75; fl 0.75; fl 0.75])) 1 2.
Proof.
  apply (vine_loop_combines_raw_and_squares binary64_arith (fl 0) (fl (-1)) (fl 1) 3
           [fl 0.75; fl 0.75; fl 0.75] eq_refl); lia.
Defined.

(** C1, as the specification words it, fails for [d = 3] and the partial
    correlations 0.5, 0.5, 0.5 (draws 0.75 on [-1, 1]): the entry [P[1, 0]]
    that the loop reads under the square root is the square 0.25 and not
    the raw 0.5, the loop leaves [P] as it was, and it stores 0.625 at
    [C[1, 2]] where the loop of the specification stores 0.5. *)
Lemma claimed_vine_loop_differs :
  let P := init_P (fl 0) 3
             (partial_correlations (fl (-1)) (fl 1) [fl 0.75; fl 0.75; fl 0.75]) in
  let code := vine_loop 3 (mk_vine P (eye 3)) in
  let claimed := claimed_vine_loop 3 (mk_vine P (eye 3)) in
  mget P 0 1 = fl 0.5 /\ mget P 1 0 = fl 0.25 /\
  vP code = P /\ vP claimed <> P /\
  mget (vC code) 1 2 = fl 0.625 /\ mget (vC claimed) 1 2 = fl 0.5 /\
  mget (vC code) 1 2 <> mget (vC claimed) 1 2.
Proof.
  vm_compute. repeat split; try discriminate.
Qed.

(** C10.  For [d = 1] the result is the 1 x 1 identity, whatever the seed,
    the shape parameters and the bounds. *)
Theorem rand_corr_vine_d1 :
  forall (T : Type) (A : Arith T) (u : T) (G : generator T)
         (alpha beta pmin pmax : T) (seed : seed_arg (rstate G)),
    generator_ok G ->
    rand_corr_vine u G 1 alpha beta pmin pmax seed = [[lit 1]].
Proof.
  intros T A u G alpha beta pmin pmax seed [_ Hperm].
  unfold rand_corr_vine.
  destruct (beta_sample G _ alpha beta _) as [draws rs].
  specialize (Hperm rs 1%nat).
  destruct (permutation G rs 1) as [perm rs']. simpl in Hperm.
  apply Permutation_sym, Permutation_length_1_inv in Hperm. subst perm.
  reflexivity.
Qed.

Lemma rand_corr_vine_d1_witness :
  rand_corr_vine (fl 0) (constant_generator (fl 0.5)) 1 (fl 2) (fl 2)
                 (fl (-0.8)) (fl 0.8) (SeedValue None) = [[fl 1]].
Proof.
  apply (@rand_corr_vine_d1 binary64 binary64_arith).
  split; intros; simpl.
  - apply repeat_length.
  - apply Permutation_sym, Permutation_rev.
Defined.

(** ** The real-number reading *)

Section RealFacts.
Local Open Scope R_scope.

Lemma Q2R_lit0 : Q2R 0 = 0.
Proof. unfold Q2R; simpl. lra. Qed.

Lemma Q2R_lit1 : Q2R 1 = 1.
Proof. unfold Q2R; simpl. lra. Qed.

Lemma Q2R_lit2 : Q2R 2 = 2.
Proof. unfold Q2R; simpl. lra. Qed.

Lemma lit_R_1 : lit (T := R) 1 = 1.
Proof. exact Q2R_lit1. Qed.

Lemma Rltb_true x y : Rltb x y = true <-> x < y.
Proof. unfold Rltb. destruct (Rlt_dec x y); split; auto; discriminate. Qed.

Lemma Rltb_false x y : Rltb x y = false <-> y <= x.
Proof.
  unfold Rltb. destruct (Rlt_dec x y); split; auto; try discriminate; lra.
Qed.

(** One step of the conversion keeps a correlation in [-1, 1]. *)
Lemma combine_step_bound (c a b : R) :
  -1 <= c <= 1 -> -1 <= a <= 1 -> -1 <= b <= 1 ->
  -1 <= c * sqrt ((1 - a * a) * (1 - b * b)) + a * b <= 1.
Proof.
  intros Hc Ha Hb.
  assert (Hq : 0 <= (1 - a * a) * (1 - b * b)) by (apply Rmult_le_pos; nra).
  pose proof (sqrt_pos ((1 - a * a) * (1 - b * b))) as Hx0.
  pose proof (sqrt_sqrt _ Hq) as Hxx.
  set (x := sqrt ((1 - a * a) * (1 - b * b))) in *. clearbody x.
  assert (Hm : (1 - a * b) * (1 - a * b) - x * x = (a - b) * (a - b))
    by (rewrite Hxx; ring).
  assert (Hp : (1 + a * b) * (1 + a * b) - x * x = (a + b) * (a + b))
    by (rewrite Hxx; ring).
  assert (Hab : -1 <= a * b <= 1) by nra.
  assert (Hx1 : x <= 1 - a * b).
  { destruct (Rle_lt_dec x (1 - a * b)) as [|Hlt]; auto.
    pose proof (Rle_0_sqr (a - b)) as Hs. unfold Rsqr in Hs.
    assert (x * x > (1 - a * b) * (1 - a * b)) by nra.
    lra. }
  assert (Hx2 : x <= 1 + a * b).
  { destruct (Rle_lt_dec x (1 + a * b)) as [|Hlt]; auto.
    pose proof (Rle_0_sqr (a + b)) as Hs. unfold Rsqr in Hs.
    assert (x * x > (1 + a * b) * (1 + a * b)) by nra.
    lra. }
  split; nra.
Qed.

Lemma combine_k_bound (P : mat R) (i j : nat) :
  forall (ks : list nat) (cur : R),
    (forall k, In k ks ->
       -1 <= mget P k i <= 1 /\ -1 <= mget P k j <= 1 /\
       mget P i k = square (mget P k i) /\ mget P j k = square (mget P k j)) ->
    -1 <= cur <= 1 ->
    -1 <= fold_left
            (fun cur k =>
               (cur * nsqrt ((lit 1 - mget P i k) * (lit 1 - mget P j k))
                + mget P k i * mget P k j)%num) ks cur <= 1.
Proof.
  induction ks as [|k ks IH]; intros cur Hks Hcur; simpl; auto.
  apply IH.
  - intros k' Hk'; apply Hks; now right.
  - destruct (Hks k) as (Ha & Hb & -> & ->); [now left|].
    rewrite Q2R_lit1. unfold square. cbn [nadd nsub nmul nsqrt R_arith].
    now apply combine_step_bound.
Qed.

Lemma mget_ix_ (C : mat R) (perm : list nat) a b :
  (a < length perm)%nat -> (b < length perm)%nat ->
  mget (ix_ C perm) a b = mget C (nth a perm 0%nat) (nth b perm 0%nat).
Proof.
  intros Ha Hb. unfold ix_, mget at 1.
  rewrite (nth_indep _ [] (map (fun b => mget C 0 b) perm))
    by now rewrite length_map.
  rewrite (map_nth (fun a => map (fun b => mget C a b) perm) perm 0%nat a).
  rewrite (nth_indep _ (lit 0) (mget C (nth a perm 0%nat) 0))
    by now rewrite length_map.
  apply (map_nth (fun b => mget C (nth a perm 0%nat) b)).
Qed.

Lemma square_mat_ix_ (C : mat R) (perm : list nat) :
  square_mat (length perm) (ix_ C perm).
Proof.
  unfold ix_; split.
  - now rewrite length_map.
  - intros a Ha.
    rewrite (nth_indep _ [] (map (fun b => mget C 0 b) perm))
      by now rewrite length_map.
    rewrite (map_nth (fun a => map (fun b => mget C a b) perm) perm 0%nat a).
    now rewrite length_map.
Qed.

(** The array [C] after the conversion loop. *)
Lemma vine_state_correlations (u pmin pmax : R) (d : nat) (draws : list R) :
  length draws = length (triu_indices d) ->
  Forall (fun p => -1 <= p <= 1) (partial_correlations pmin pmax draws) ->
  let C := vC (vine_state_of u d pmin pmax draws) in
  forall a b, (a < d)%nat -> (b < d)%nat ->
    mget C a b = mget C b a /\ mget C a a = 1 /\ -1 <= mget C a b <= 1.
Proof.
  intros Hlen Hbound C a b Ha Hb.
  set (p := partial_correlations pmin pmax draws) in *.
  assert (Hp : length p = length (triu_indices d)).
  { unfold p, partial_correlations. now rewrite length_map. }
  destruct (init_P_spec u d p Hp) as (HsqP & _ & Hlower).
  set (P := init_P u d p) in *.
  destruct (@vine_loop_spec R R_arith d (mk_vine P (eye d))) as (_ & _ & HC).
  { simpl. apply square_mat_eye. }
  simpl in HC. fold (vine_state_of u d pmin pmax draws) in HC. fold C in HC.
  assert (Hdiag : forall x, (x < d)%nat -> mget C x x = 1).
  { intros x Hx. rewrite HC.
    destruct (written (loop_pairs d) x x) eqn:Hw.
    - apply written_loop_pairs in Hw. lia.
    - rewrite mget_eye, Nat.eqb_refl by auto. apply lit_R_1. }
  assert (Hin : forall x y, (x < y)%nat -> (y < d)%nat -> -1 <= mget P x y <= 1).
  { intros x y Hx Hy. destruct (Hlower x y Hx Hy) as [Hi _].
    rewrite Forall_forall in Hbound. now apply Hbound. }
  assert (Hval : forall x y, (x < y)%nat -> (y < d)%nat ->
            mget C x y = combine_k P x y (mget P x y) /\
            mget C y x = combine_k P x y (mget P x y) /\
            -1 <= combine_k P x y (mget P x y) <= 1).
  { intros x y Hx Hy. repeat split.
    - rewrite HC.
      replace (written (loop_pairs d) x y) with true
        by (symmetry; apply written_loop_pairs; lia).
      unfold combined. destruct (Nat.ltb_spec x y); [reflexivity|lia].
    - rewrite HC.
      replace (written (loop_pairs d) y x) with true
        by (symmetry; apply written_loop_pairs; lia).
      unfold combined. destruct (Nat.ltb_spec y x); [lia|reflexivity].
    - apply combine_k_bound; [|now apply Hin].
      intros k Hk. apply in_rev, in_seq in Hk.
      repeat split; try apply Hin; try apply Hlower; lia.
    - apply combine_k_bound; [|now apply Hin].
      intros k Hk. apply in_rev, in_seq in Hk.
      repeat split; try apply Hin; try apply Hlower; lia. }
  split; [|split; [now apply Hdiag|]].
  - destruct (Nat.lt_trichotomy a b) as [Hlt|[->|Hgt]]; auto.
    + destruct (Hval a b Hlt Hb) as (-> & -> & _). reflexivity.
    + destruct (Hval b a Hgt Ha) as (-> & -> & _). reflexivity.
  - destruct (Nat.lt_trichotomy a b) as [Hlt|[->|Hgt]].
    + destruct (Hval a b Hlt Hb) as (-> & _ & Hbd). exact Hbd.
    + rewrite Hdiag by auto. lra.
    + destruct (Hval b a Hgt Ha) as (_ & -> & Hbd). exact Hbd.
Qed.

End RealFacts.

(** C3.  For [d >= 2] and partial correlations in [pmin, pmax], itself
    within [-1, 1], the returned array is [d] x [d], symmetric, has a unit
    diagonal and entries in [-1, 1]. *)
Theorem rand_corr_vine_symmetric_unit_bounded :
  forall (u : R) (G : generator R) (d : nat) (alpha beta pmin pmax : R)
         (seed : seed_arg (rstate G)),
    generator_ok G ->
    (2 <= d)%nat ->
    (-1 <= pmin)%R -> (pmax <= 1)%R ->
    (forall s n, Forall (fun p => pmin <= p <= pmax)%R
                   (partial_correlations pmin pmax (fst (beta_sample G s alpha beta n)))) ->
    let C := rand_corr_vine u G d alpha beta pmin pmax seed in
    square_mat d C /\
    forall a b, (a < d)%nat -> (b < d)%nat ->
      mget C a b = mget C b a /\ mget C a a = 1%R /\ (-1 <= mget C a b <= 1)%R.
Proof.
  intros u G d alpha beta pmin pmax seed [Hsize Hperm] Hd Hmin Hmax Hdraws C.
  unfold rand_corr_vine in C.
  set (rs0 := match seed with SeedState s => s | SeedValue n => RandomState G n end) in *.
  specialize (Hsize rs0 alpha beta (length (triu_indices d))).
  specialize (Hdraws rs0 (length (triu_indices d))).
  destruct (beta_sample G rs0 alpha beta (length (triu_indices d))) as [draws rs].
  simpl in Hsize, Hdraws.
  specialize (Hperm rs d).
  destruct (permutation G rs d) as [perm rs']. simpl in Hperm.
  assert (Hlen : length perm = d).
  { rewrite (Permutation_length Hperm). apply length_seq. }
  assert (Hrange : forall a, (a < d)%nat -> (nth a perm 0 < d)%nat).
  { intros a Ha.
    assert (Hin : In (nth a perm 0%nat) (seq 0 d)).
    { apply (Permutation_in _ Hperm), nth_In. lia. }
    apply in_seq in Hin. lia. }
  assert (Hbound : Forall (fun p => -1 <= p <= 1)%R (partial_correlations pmin pmax draws)).
  { eapply Forall_impl; [|exact Hdraws]. simpl. intros p Hp. lra. }
  pose proof (@vine_state_correlations u pmin pmax d draws Hsize Hbound) as Hcorr.
  simpl in Hcorr. subst C. split.
  - rewrite <- Hlen at 1. apply square_mat_ix_.
  - intros a b Ha Hb.
    rewrite !mget_ix_ by lia.
    destruct (Hcorr (nth a perm 0%nat) (nth b perm 0%nat)) as (Hs & Hd1 & Hb1); auto.
Qed.

Lemma rand_corr_vine_symmetric_unit_bounded_witness :
  let C := rand_corr_vine 0%R (constant_generator (1 / 2)%R) 3 2%R 2%R
             (- (4 / 5))%R (4 / 5)%R (SeedValue None) in
  mget C 0 1 = mget C 1 0 /\ mget C 0 0 = 1%R /\ (-1 <= mget C 0 1 <= 1)%R.
Proof.
  apply (@rand_corr_vine_symmetric_unit_bounded 0%R (constant_generator (1 / 2)%R) 3
           2%R 2%R (- (4 / 5))%R (4 / 5)%R (SeedValue None)); try lia; try lra.
  - split; intros; simpl.
    + apply repeat_length.
    + apply Permutation_sym, Permutation_rev.
  - intros s n. simpl. apply Forall_forall. intros p Hp.
    unfold partial_correlations in Hp. apply in_map_iff in Hp as (b & <- & Hb).
    apply repeat_spec in Hb. subst b. cbn. lra.
Defined.

(** ** Rows of a buffer *)

Section RowFacts.
Context {T : Type} `{Arith T}.

Lemma rows_S n D (l : list T) :
  rows (S n) D l = firstn D l :: rows n D (skipn D l).
Proof.
  unfold rows. rewrite <- cons_seq, <- seq_shift, map_cons, map_map. simpl.
  f_equal. apply map_ext. intros j. rewrite skipn_skipn.
  now replace (j * D + D)%nat with (D + j * D)%nat by lia.
Qed.

Lemma rows_length n D (l : list T) : length (rows n D l) = n.
Proof. unfold rows. now rewrite length_map, length_seq. Qed.

Lemma rows_map (f : T -> T) n D (l : list T) :
  rows n D (map f l) = map (map f) (rows n D l).
Proof.
  unfold rows. rewrite map_map. apply map_ext. intros j.
  now rewrite skipn_map, firstn_map.
Qed.

Lemma rows_row_length n D (l r : list T) :
  In r (rows n D l) -> (length r <= D)%nat.
Proof.
  unfold rows. intros Hr. apply in_map_iff in Hr as (j & <- & _).
  rewrite length_firstn. lia.
Qed.

Lemma rows_concat D (M : list (list T)) :
  (forall r, In r M -> length r = D) ->
  rows (length M) D (concat M) = M.
Proof.
  induction M as [|r M IH]; intros HM; simpl.
  - reflexivity.
  - rewrite rows_S.
    assert (Hr : length r = D) by (apply HM; now left).
    rewrite firstn_app, skipn_app, Hr, Nat.sub_diag. simpl.
    subst D. rewrite firstn_all, skipn_all, app_nil_r. simpl.
    rewrite IH; auto. intros r' Hr'; apply HM; now right.
Qed.

Lemma rows_repeat D (r : list T) n :
  length r = D -> rows n D (concat (repeat r n)) = repeat r n.
Proof.
  intros Hr. rewrite <- (repeat_length r n) at 1. apply rows_concat.
  intros r' Hr'. apply repeat_spec in Hr'. now subst.
Qed.

(** The column of a buffer of [n] rows of length one is the buffer. *)
Lemma column_of_rows_1 n (l : list T) :
  length l = n -> concat (map (firstn 1) (rows n 1 l)) = l.
Proof.
  revert l; induction n as [|n IH]; intros l Hl.
  - destruct l; [reflexivity|discriminate].
  - destruct l as [|x l]; [discriminate|].
    rewrite rows_S. simpl. f_equal. apply IH. simpl in Hl; lia.
Qed.

Lemma nonzero_last_dim (a : ndarray T) :
  (0 < last_dim a)%nat -> (ndim a =? 0)%nat = false.
Proof.
  unfold last_dim, ndim. destruct (shape a); simpl; [lia|reflexivity].
Qed.

End RowFacts.

(** ** Linear regression *)

(** C6.  For a one-dimensional input (a scalar, a vector of length one, a
    [J] x 1 matrix) and no [Sigma_x], the result is
    [sqrt(R_SQUARED / (1 - R_SQUARED)) * sigma / |beta|], for each group
    when [beta] is [J] x 1; in float64, [beta = 2.0] and [sigma = 1.0]
    give exactly 0.5, and so they do over the reals. *)
Theorem lin_reg_one_dimensional :
  (forall (T : Type) (A : Arith T) (sigma : T),
     let f := fun b => (nsqrt (R_SQUARED / (lit 1 - R_SQUARED)) * sigma / nabs b)%num in
     (forall b, calc_input_param_lin_reg (scalar b) sigma None = Ok (scalar (f b))) /\
     (forall b, calc_input_param_lin_reg (vector [b]) sigma None = Ok (scalar (f b))) /\
     (forall bs, calc_input_param_lin_reg (mk_array [length bs; 1%nat] bs) sigma None =
                 Ok (vector (map f bs)))) /\
  calc_input_param_lin_reg (scalar (fl 2.0)) (fl 1.0) None = Ok (scalar (fl 0.5)) /\
  calc_input_param_lin_reg (scalar 2%R) 1%R None = Ok (scalar (1 / 2)%R).
Proof.
  split; [|split].
  - intros T A sigma f. repeat split.
    + intros bs.
      unfold calc_input_param_lin_reg, vector, col0, map_array, rows_last,
        ndim, last_dim.
      cbn -[rows firstn]. rewrite Nat.mul_1_r, column_of_rows_1 by reflexivity.
      now rewrite !length_map, map_map.
  - vm_compute. reflexivity.
  - unfold calc_input_param_lin_reg, scalar, map_array, R_SQUARED. simpl.
    replace (Q2R 0.5 / (Q2R 1 - Q2R 0.5))%R with 1%R by (unfold Q2R; simpl; field).
    rewrite sqrt_1, Rabs_right by lra. do 3 f_equal. lra.
Qed.

Section RealSums.
Local Open Scope R_scope.

Lemma fold_left_Rplus (l : list R) (x : R) :
  fold_left Rplus l x = x + fold_right Rplus 0 l.
Proof.
  revert x; induction l as [|y l IH]; intros x; simpl.
  - lra.
  - rewrite IH. lra.
Qed.

Lemma sum_R (l : list R) : sum l = fold_right Rplus 0 l.
Proof.
  destruct l as [|x l]; simpl.
  - apply Q2R_lit0.
  - apply fold_left_Rplus.
Qed.

(** The sum over [i] of [r[i] * delta(s + i, j)]. *)
Lemma sum_delta (j : nat) :
  forall (r : list R) (s n : nat),
    fold_right Rplus 0
      (map (fun p : R * nat => fst p * (if (snd p =? j)%nat then 1 else 0))
           (combine r (seq s n))) =
    if ((s <=? j) && (j <? s + Nat.min (length r) n))%nat
    then nth (j - s) r 0 else 0.
Proof.
  induction r as [|x r IH]; intros s n; simpl.
  - destruct (Nat.leb_spec s j), (Nat.ltb_spec j (s + 0)); simpl;
      try reflexivity; lia.
  - destruct n as [|n]; simpl.
    + destruct (Nat.leb_spec s j), (Nat.ltb_spec j (s + 0)); simpl;
        try reflexivity; lia.
    + rewrite IH.
      destruct (Nat.eqb_spec s j) as [Hsj|Hsj],
               (Nat.leb_spec s j) as [Hle|Hle],
               (Nat.leb_spec (S s) j) as [Hle'|Hle'],
               (Nat.ltb_spec j (s + S (Nat.min (length r) n))) as [Hlt|Hlt],
               (Nat.ltb_spec j (S s + Nat.min (length r) n)) as [Hlt'|Hlt'];
        simpl; try lia; try lra.
      * subst. rewrite Nat.sub_diag. lra.
      * replace (j - s)%nat with (S (j - S s)) by lia. lra.
Qed.

Lemma combine_map_snd {A B C : Type} (f : B -> C) (u : list A) (v : list B) :
  combine u (map f v) = map (fun p => (fst p, f (snd p))) (combine u v).
Proof.
  revert v; induction u as [|x u IH]; intros [|y v]; simpl; auto.
  now rewrite IH.
Qed.

Lemma dot_row_eye_entry (D : nat) (r : list R) (j : nat) :
  (j < D)%nat -> (length r <= D)%nat ->
  sum (map (fun p => (fst p * nth j (snd p) (lit 0))%num) (combine r (eye D))) =
  nth j r 0.
Proof.
  intros Hj Hr. rewrite sum_R. unfold eye.
  rewrite combine_map_snd, map_map.
  rewrite (map_ext_in _ (fun p : R * nat => fst p * (if (snd p =? j)%nat then 1 else 0))).
  - rewrite sum_delta. simpl. rewrite Nat.sub_0_r.
    destruct (Nat.ltb_spec j (Nat.min (length r) D)) as [Hlt|Hge]; [reflexivity|].
    rewrite nth_overflow by lia. reflexivity.
  - intros [x i] Hin. simpl.
    apply in_combine_r, in_seq in Hin.
    cbn [nmul R_arith]. f_equal.
    rewrite (nth_indep _ (Q2R 0) (if (i =? 0)%nat then Q2R 1 else Q2R 0))
      by (rewrite length_map, length_seq; lia).
    rewrite (map_nth (fun j => if (i =? j)%nat then Q2R 1 else Q2R 0) (seq 0 D) 0%nat j).
    rewrite seq_nth by lia. simpl.
    destruct (i =? j)%nat; [apply Q2R_lit1|apply Q2R_lit0].
Qed.

Lemma map_nth_seq (r : list R) :
  map (fun j => nth j r 0) (seq 0 (length r)) = r.
Proof.
  induction r as [|x r IH]; simpl; [reflexivity|].
  f_equal. rewrite <- seq_shift, map_map. exact IH.
Qed.

Lemma mul_lists_firstn (u v : list R) :
  mul_lists u v = mul_lists (firstn (length v) u) v.
Proof.
  unfold mul_lists. f_equal.
  revert v; induction u as [|x u IH]; intros [|y v]; simpl; auto.
  now rewrite <- IH.
Qed.

Lemma mul_lists_diag (r : list R) : mul_lists r r = map square r.
Proof.
  unfold mul_lists. induction r as [|x r IH]; [reflexivity|].
  cbn [combine map fst snd]. now rewrite IH.
Qed.

Lemma firstn_seq_le (k s n : nat) :
  (k <= n)%nat -> firstn k (seq s n) = seq s k.
Proof.
  revert s n; induction k as [|k IH]; intros s [|n] Hk; simpl; auto; try lia.
  f_equal. apply IH. lia.
Qed.

(** With the identity, [beta.dot(Sigma_x) * beta] is the square of [beta]. *)
Lemma quad_row_eye (D : nat) (r : list R) :
  (length r <= D)%nat ->
  mul_lists (dot_row D (eye D) r) r = map square r.
Proof.
  intros Hr. rewrite mul_lists_firstn. unfold dot_row.
  rewrite firstn_map, firstn_seq_le by exact Hr.
  rewrite (map_ext_in _ (fun j => nth j r 0)).
  - rewrite map_nth_seq. apply mul_lists_diag.
  - intros j Hj. apply in_seq in Hj. apply dot_row_eye_entry; lia.
Qed.

Lemma eye_rows (D : nat) : rows D D (concat (eye (T := R) D)) = eye D.
Proof.
  destruct (square_mat_eye (T := R) D) as [Hl Hr].
  rewrite <- Hl at 1. apply rows_concat.
  intros r Hin. destruct (In_nth _ _ [] Hin) as (a & Ha & <-).
  apply Hr. now rewrite <- Hl.
Qed.

End RealSums.

(** C7.  For an input of dimension [D > 1] (a vector of length [D], a
    [J] x [D] matrix), the call with the [D] x [D] identity for [Sigma_x]
    returns what the call without [Sigma_x] returns, and that is
    [sigma * sqrt(R_SQUARED / (q * (1 - R_SQUARED)))] with [q] the sum of
    squares of each row of [beta]. *)
Theorem lin_reg_identity_sigma :
  forall (beta : ndarray R) (sigma : R),
    (1 < last_dim beta)%nat ->
    let D := last_dim beta in
    calc_input_param_lin_reg beta sigma (Some (matrix D D (eye D))) =
    calc_input_param_lin_reg beta sigma None /\
    calc_input_param_lin_reg beta sigma None =
    Ok (mk_array (removelast (shape beta))
          (map (fun r => let q := sum (map square r) in
                         sigma * sqrt (R_SQUARED / (q * (1 - R_SQUARED))))%R
               (rows_last beta))).
Proof.
  intros beta sigma HD D.
  assert (Hnd : (ndim beta =? 0)%nat = false) by (apply nonzero_last_dim; lia).
  assert (H1 : (last_dim beta =? 1)%nat = false) by (apply Nat.eqb_neq; lia).
  assert (Hle : (last_dim beta <=? 1)%nat = false) by (apply Nat.leb_gt; lia).
  assert (Hnone : calc_input_param_lin_reg beta sigma None =
    Ok (mk_array (removelast (shape beta))
          (map (fun r => sigma * sqrt (R_SQUARED / (sum (map square r) * (1 - R_SQUARED))))%R
               (rows_last beta)))).
  { unfold calc_input_param_lin_reg. simpl. rewrite Hnd, H1. simpl.
    unfold map_array, sum_last, rows_last, last_dim. simpl.
    rewrite rows_map, !map_map. do 2 f_equal. apply map_ext. intros r.
    rewrite Q2R_lit1. apply Rmult_comm. }
  split; [|exact Hnone].
  rewrite Hnone.
  unfold calc_input_param_lin_reg, sigma_low_dim. rewrite Hnd, H1, Hle. simpl.
  unfold quad_last, matrix. cbn [shape data]. fold D.
  destruct (list_eq_dec Nat.eq_dec [D; D] [D; D]) as [_|Hne]; [|congruence].
  rewrite eye_rows. simpl. unfold map_array. simpl. rewrite map_map.
  do 2 f_equal. apply map_ext_in. intros r Hr.
  rewrite quad_row_eye by (apply (rows_row_length _ _ _ _ Hr)).
  rewrite Q2R_lit1. apply Rmult_comm.
Qed.

Lemma lin_reg_identity_sigma_witness :
  calc_input_param_lin_reg (vector [3; 4]%R) 1%R (Some (matrix 2 2 (eye 2))) =
  calc_input_param_lin_reg (vector [3; 4]%R) 1%R None.
Proof.
  apply (@lin_reg_identity_sigma (vector [3; 4]%R) 1%R).
  unfold last_dim, vector. simpl. lia.
Defined.

(** ** Classification: the paths of the code *)

Section ClassificationFacts.
Context {T : Type} `{Arith T}.
Variables erfinv logit : T -> T.
Variable uninit : T.
Local Open Scope num_scope.

Lemma for_each_app {St : Type} (l1 l2 : list nat)
      (body : nat -> St -> result St) (st : St) :
  for_each (l1 ++ l2) body st =
  do st' <- for_each l1 body st; for_each l2 body st'.
Proof.
  revert st; induction l1 as [|j l1 IH]; intros st; simpl; auto.
  destruct (body j st); simpl; auto.
Qed.

Lemma repeat_S_sub {A : Type} (x : A) (J k : nat) :
  (k < J)%nat -> repeat x (J - k) = x :: repeat x (J - S k).
Proof. intros Hk. now replace (J - k)%nat with (S (J - S k)) by lia. Qed.

(** The per-group loop, run on operands that can all be read, fills
    [mu_x] and [sigma_x] with the entries of each group. *)
Lemma group_loop_spec (J : nat) (a dv sb ssb : nat -> T)
      (gA gD gSb gSsb : nat -> result T) :
  (forall j, (j < J)%nat ->
     gA j = Ok (a j) /\ gD j = Ok (dv j) /\ gSb j = Ok (sb j) /\ gSsb j = Ok (ssb j)) ->
  for_each (seq 0 J)
    (fun j st =>
       do alpha_j <- gA j;
       group_body erfinv logit j alpha_j (gD j) (gSb j) (gSsb j) st)
    (repeat (lit 0) J, repeat uninit J) =
  Ok (map (fun j => group_mu erfinv logit (a j) (sb j)) (seq 0 J),
      map (fun j => group_sigma erfinv logit (a j) (dv j) (ssb j)) (seq 0 J)).
Proof.
  intros Hget.
  assert (Hinv : forall k, (k <= J)%nat ->
    for_each (seq 0 k)
      (fun j st =>
         do alpha_j <- gA j;
         group_body erfinv logit j alpha_j (gD j) (gSb j) (gSsb j) st)
      (repeat (lit 0) J, repeat uninit J) =
    Ok (map (fun j => group_mu erfinv logit (a j) (sb j)) (seq 0 k)
          ++ repeat (lit 0) (J - k),
        map (fun j => group_sigma erfinv logit (a j) (dv j) (ssb j)) (seq 0 k)
          ++ repeat uninit (J - k))).
  { induction k as [|k IH]; intros Hk.
    - simpl. now rewrite Nat.sub_0_r.
    - rewrite seq_S, for_each_app, IH by lia. simpl.
      destruct (Hget k) as (-> & -> & -> & ->); [lia|]. simpl.
      rewrite !map_app. simpl. rewrite <- !app_assoc. simpl.
      rewrite !(repeat_S_sub _ (J := J) (k := k)) by lia.
      unfold group_body.
      assert (Hmu : group_mu erfinv logit (a k) (sb k) =
                    if nlt (nabs (a k)) (DELTA_MAX erfinv logit) then lit 0
                    else shift erfinv logit (a k) (sb k)) by reflexivity.
      assert (Hsg : group_sigma erfinv logit (a k) (dv k) (ssb k) =
                    if nlt (nabs (a k)) (DELTA_MAX erfinv logit)
                    then (LOGITP0 logit + nabs (a k)) / dv k
                    else SIGMA_F0 / ssb k) by reflexivity.
      rewrite Hmu, Hsg.
      destruct (nlt (nabs (a k)) (DELTA_MAX erfinv logit)); simpl;
        rewrite !upd_app_at by (now rewrite length_map, length_seq);
        reflexivity. }
  rewrite Hinv by lia. now rewrite Nat.sub_diag, !app_nil_r.
Qed.

Lemma get_nth (a : ndarray T) (j : nat) (dflt : T) :
  (j < length (data a))%nat -> get a j = Ok (nth j (data a) dflt).
Proof.
  intros Hj. unfold get.
  now rewrite (nth_error_nth' _ dflt Hj).
Qed.

End ClassificationFacts.

(** ** Classification: slopes with a property that the arithmetic preserves *)

Section Degenerate.
Context {T : Type} `{Arith T}.
Variables erfinv logit : T -> T.
Variable uninit : T.
Local Open Scope num_scope.

(** [Z] is a property of numbers that sums, products, square roots and
    absolute values keep: every number has it trivially, and so have the
    zeros and NaN of float64. *)
Variable Z : T -> Prop.
Hypothesis Z_lit0 : Z (lit 0).
Hypothesis Z_add : forall x y, Z x -> Z y -> Z (x + y).
Hypothesis Z_mul_l : forall x y, Z x -> Z (x * y).
Hypothesis Z_mul_r : forall x y, Z y -> Z (x * y).
Hypothesis Z_sqrt : forall x, Z x -> Z (nsqrt x).
Hypothesis Z_abs : forall x, Z x -> Z (nabs x).

Local Abbreviation Dz := (quotient_by Z).
Local Abbreviation DM := (DELTA_MAX erfinv logit).

Lemma Forall_firstn (n : nat) (l : list T) : Forall Z l -> Forall Z (firstn n l).
Proof.
  intros Hl; revert n; induction Hl; intros [|n]; simpl; auto.
Qed.

Lemma Forall_skipn (n : nat) (l : list T) : Forall Z l -> Forall Z (skipn n l).
Proof.
  intros Hl; revert n; induction Hl; intros [|n]; simpl; auto.
Qed.

Lemma rows_Forall (n D : nat) (l : list T) :
  Forall Z l -> Forall (Forall Z) (rows n D l).
Proof.
  intros Hl. unfold rows. apply Forall_map, Forall_forall. intros j _.
  now apply Forall_firstn, Forall_skipn.
Qed.

Lemma sum_Z (l : list T) : Forall Z l -> Z (sum l).
Proof.
  intros Hl. destruct Hl as [|x l Hx Hl]; simpl; auto.
  revert x Hx; induction Hl as [|y l Hy Hl IH]; intros x Hx; simpl; auto.
Qed.

Lemma mul_lists_Z (u v : list T) : Forall Z v -> Forall Z (mul_lists u v).
Proof.
  intros Hv. unfold mul_lists. apply Forall_map, Forall_forall.
  intros [x y] Hin. simpl. apply Z_mul_r.
  rewrite Forall_forall in Hv. apply Hv. eapply in_combine_r; eauto.
Qed.

Lemma item_Z (a : ndarray T) : Forall Z (data a) -> Z (item a).
Proof.
  intros Ha. unfold item. destruct (data a) as [|x l]; simpl; auto.
  now inversion Ha.
Qed.

Lemma sumsq_vec_Z (b : ndarray T) (Sx : option (ndarray T)) :
  Forall Z (data b) -> sigma_fits (last_dim b) Sx ->
  exists q, sumsq_vec b Sx = Ok q /\ Z q.
Proof.
  intros Hb Hfit. destruct Sx as [S0|]; simpl in *.
  - rewrite Hfit.
    destruct (list_eq_dec Nat.eq_dec _ _) as [_|Hne]; [|congruence].
    eexists; split; [reflexivity|]. now apply sum_Z, mul_lists_Z.
  - eexists; split; [reflexivity|]. apply sum_Z, Forall_map.
    eapply Forall_impl; [|exact Hb]. intros x Hx. now apply Z_mul_l.
Qed.

Lemma sumsq_last_Z (b : ndarray T) (Sx : option (ndarray T)) :
  Forall Z (data b) -> sigma_fits (last_dim b) Sx ->
  exists q, sumsq_last b Sx = Ok q /\ Forall Z (data q) /\
            length (data q) = prod_shape (removelast (shape b)) /\
            shape q = removelast (shape b).
Proof.
  intros Hb Hfit. destruct Sx as [S0|]; simpl in *.
  - unfold quad_last. rewrite Hfit.
    destruct (list_eq_dec Nat.eq_dec _ _) as [_|Hne]; [|congruence].
    eexists; split; [reflexivity|]. simpl. repeat split.
    + apply Forall_map. unfold rows_last.
      eapply Forall_impl; [|apply rows_Forall; exact Hb].
      intros r Hr. now apply sum_Z, mul_lists_Z.
    + unfold rows_last. now rewrite length_map, rows_length.
  - eexists; split; [reflexivity|]. simpl. repeat split.
    + apply Forall_map. unfold rows_last. simpl.
      eapply Forall_impl; [|apply rows_Forall].
      * intros r Hr. apply sum_Z, Hr.
      * apply Forall_map. eapply Forall_impl; [|exact Hb].
        intros x Hx. now apply Z_mul_l.
    + unfold rows_last. now rewrite length_map, rows_length.
Qed.

Lemma col0_Z (b : ndarray T) : Forall Z (data b) -> Forall Z (data (col0 b)).
Proof.
  intros Hb. unfold col0. cbn [data]. apply Forall_concat, Forall_map.
  eapply Forall_impl; [|apply rows_Forall; exact Hb].
  intros r Hr. now apply Forall_firstn.
Qed.

Lemma col0_length (b : ndarray T) (J : nat) :
  shape b = [J; 1%nat] -> wf b -> length (data (col0 b)) = J.
Proof.
  intros Hs Hw. unfold col0, rows_last, last_dim, wf in *. rewrite Hs in *.
  cbn -[rows firstn] in *. rewrite Nat.mul_1_r in *.
  rewrite column_of_rows_1; lia.
Qed.

Lemma shift_Dz (a m : T) : Z m -> Dz (shift erfinv logit a m).
Proof.
  intros Hm. unfold shift. destruct (nlt (lit 0) a); eexists _, m; eauto.
Qed.

Lemma nth_map_seq (f : nat -> T) (J j : nat) (dflt : T) :
  (j < J)%nat -> nth j (map f (seq 0 J)) dflt = f j.
Proof.
  intros Hj. rewrite (nth_indep _ dflt (f 0%nat)) by now rewrite length_map, length_seq.
  rewrite (map_nth f (seq 0 J) 0%nat j). now rewrite seq_nth.
Qed.

Lemma deg_intro (aj : nat -> T) (sh : list nat) (m s : ndarray T) :
  shape m = sh -> shape s = sh ->
  length (data m) = prod_shape sh -> length (data s) = prod_shape sh ->
  Forall Dz (data s) ->
  (forall j, (j < length (data m))%nat -> nlt (nabs (aj j)) DM = false ->
             Dz (nth j (data m) (lit 0))) ->
  degenerate_result DM Z aj sh (Ok (m, s)).
Proof.
  intros Hm Hs Hlm Hls Hsig Hmu. exists m, s. unfold wf.
  rewrite Hm, Hs. repeat split; auto.
Qed.

Lemma Dz_intro (x y : T) : Z y -> Dz (x / y).
Proof. intros Hy; exists x, y; auto. Qed.

Lemma Dz_singleton (aj : nat -> T) (v : T) :
  Dz v ->
  forall j, (j < length [v])%nat -> nlt (nabs (aj j)) DM = false ->
            Dz (nth j [v] (lit 0)).
Proof. intros Hv [|j] Hj _; simpl in *; [exact Hv|lia]. Qed.

Lemma single_group_deg (alpha beta : ndarray T) (Sx : option (ndarray T)) (so : bool) :
  Forall Z (data beta) ->
  (ndim (squeeze beta) = 1%nat -> sigma_fits (last_dim (squeeze beta)) Sx) ->
  degenerate_result DM Z (fun _ => item (squeeze alpha)) (if so then [] else [1%nat])
    (single_group erfinv logit alpha beta Sx (Some so)).
Proof.
  intros Hb Hfit. unfold single_group.
  set (a := item (squeeze alpha)).
  assert (Hsb : Forall Z (data (squeeze beta))) by exact Hb.
  assert (Hmu : Dz (shift erfinv logit a (sum (data (squeeze beta)))))
    by (apply shift_Dz, sum_Z, Hsb).
  assert (Hitem : Z (item (squeeze beta))) by (apply item_Z, Hsb).
  destruct (nlt (nabs a) DM) eqn:Hth;
    destruct (Nat.eqb_spec (ndim (squeeze beta)) 1) as [Hnd|Hnd];
    try (destruct (sumsq_vec_Z (squeeze beta) Sx Hsb (Hfit Hnd)) as (q & -> & Hq));
    cbn [bind fst snd]; destruct so;
    apply deg_intro; try reflexivity;
    try (intros j _ Hc; congruence);
    try (apply Dz_singleton; exact Hmu);
    constructor; auto; apply Dz_intro; auto.
Qed.

Lemma common_alpha_deg (a : T) (beta : ndarray T) (Sx : option (ndarray T))
      (J D : nat) :
  shape beta = [J; D] -> wf beta -> Forall Z (data beta) ->
  (D <> 1%nat -> sigma_fits D Sx) ->
  degenerate_result DM Z (fun _ => a) [J] (common_alpha erfinv logit J a beta Sx).
Proof.
  intros Hs Hw Hb Hfit. unfold common_alpha. rewrite Hs. cbn [nth_error].
  assert (HD : last_dim beta = D) by (unfold last_dim; now rewrite Hs).
  assert (Hrl : removelast (shape beta) = [J]) by now rewrite Hs.
  assert (Hsum : Forall Z (data (sum_last beta))).
  { unfold sum_last. cbn [data]. apply Forall_map.
    eapply Forall_impl; [|apply rows_Forall; exact Hb]. intros r Hr. now apply sum_Z. }
  assert (Hmu : forall j,
            (j < length (data (map_array (fun m => shift erfinv logit a m)
                                         (sum_last beta))))%nat ->
            Dz (nth j (data (map_array (fun m => shift erfinv logit a m)
                                       (sum_last beta))) (lit 0))).
  { intros j Hj. apply Forall_nth; auto. unfold map_array. cbn [data].
    apply Forall_map. eapply Forall_impl; [|exact Hsum].
    intros x Hx. now apply shift_Dz. }
  assert (Hcl : D = 1%nat ->
            length (concat (map (firstn 1) (rows_last beta))) = J).
  { intros HD1. rewrite HD1 in Hs. exact (col0_length Hs Hw). }
  rewrite <- HD in Hfit.
  destruct (nlt (nabs a) DM) eqn:Hth;
    destruct (Nat.eqb_spec D 1) as [HD1|HD1]; cbn [negb];
    try (destruct (sumsq_last_Z beta Sx Hb (Hfit ltac:(congruence)))
          as (q & -> & Hq & Hlen & Hsh));
    cbn [bind]; apply deg_intro;
    try (intros j _ Hc; congruence); try (intros j Hj _; now apply Hmu);
    try (unfold map_array, vector, col0, sum_last; cbn [data];
         rewrite ?length_map, ?repeat_length, ?Hlen, ?Hrl, ?Hcl by assumption;
         unfold rows_last; rewrite ?rows_length, ?Hrl;
         simpl; lia);
    cbn [shape data map_array vector sum_last col0];
    rewrite ?repeat_length, ?Hsh, ?Hrl; try reflexivity;
    rewrite !Forall_map;
    (eapply Forall_impl; [|first [eassumption | exact (@col0_Z beta Hb)]]);
    intros x Hx; apply Dz_intro; auto.
Qed.

Lemma common_beta_deg (J : nat) (alpha beta : ndarray T) (Sx : option (ndarray T)) :
  Forall Z (data beta) ->
  shape0 beta <> 1%nat ->
  sigma_fits (last_dim beta) Sx ->
  length (data alpha) = J ->
  degenerate_result DM Z (fun j => nth j (data alpha) (lit 0)) [J]
    (common_beta erfinv logit uninit J alpha beta Sx).
Proof.
  intros Hb Hne Hfit Hlen. unfold common_beta.
  rewrite (proj2 (Nat.eqb_neq (shape0 beta) 1) Hne). cbn [negb].
  destruct (sumsq_vec_Z beta Sx Hb Hfit) as (q & -> & Hq).
  assert (Hssb : Z (nsqrt q)) by auto.
  set (ssb := nsqrt q) in *. cbn [bind].
  rewrite (@group_loop_spec T _ erfinv logit uninit J
             (fun j => nth j (data alpha) (lit 0))
             (fun _ => nsqrt (lit 2) * ERFINVGAMMA0 erfinv * ssb)
             (fun _ => sum (data beta)) (fun _ => ssb)
             (get alpha)
             (fun _ => as_element
                         (map_array (fun s => nsqrt (lit 2) * ERFINVGAMMA0 erfinv * s)
                                    (scalar ssb)))
             (fun _ => Ok (sum (data beta))) (fun _ => as_element (scalar ssb))).
  2:{ intros j Hj. repeat split; try reflexivity. apply get_nth. lia. }
  cbn [bind fst snd]. apply deg_intro.
  - unfold vector. cbn [shape]. now rewrite length_map, length_seq.
  - unfold vector. cbn [shape]. now rewrite length_map, length_seq.
  - cbn [data vector]. rewrite length_map, length_seq. simpl. lia.
  - cbn [data vector]. rewrite length_map, length_seq. simpl. lia.
  - cbn [data vector]. apply Forall_map, Forall_forall. intros j _.
    unfold group_sigma. destruct (nlt _ _); apply Dz_intro; auto.
  - cbn [data vector]. intros j Hj Hc. rewrite length_map, length_seq in Hj.
    rewrite nth_map_seq by exact Hj. unfold group_mu. rewrite Hc.
    apply shift_Dz, sum_Z, Hb.
Qed.

Lemma both_varying_deg (J J' D : nat) (alpha beta : ndarray T)
      (Sx : option (ndarray T)) :
  shape beta = [J'; D] -> wf beta -> Forall Z (data beta) ->
  (D <> 1%nat -> sigma_fits D Sx) ->
  length (data alpha) = J -> (J <= J')%nat ->
  degenerate_result DM Z (fun j => nth j (data alpha) (lit 0)) [J]
    (both_varying erfinv logit uninit J alpha beta Sx).
Proof.
  intros Hs Hw Hb Hfit Hlen HJ. unfold both_varying. rewrite Hs. cbn [nth_error].
  assert (HD : last_dim beta = D) by (unfold last_dim; now rewrite Hs).
  assert (Hrl : removelast (shape beta) = [J']) by now rewrite Hs.
  assert (Hsum : Forall Z (data (sum_last beta)) /\ length (data (sum_last beta)) = J').
  { unfold sum_last, rows_last. cbn [data]. rewrite length_map, rows_length, Hrl. split.
    - apply Forall_map.
      eapply Forall_impl; [|apply rows_Forall; exact Hb]. intros r Hr. now apply sum_Z.
    - simpl. lia. }
  destruct Hsum as [Hsum Hsl].
  assert (Hss : exists ssb,
            (if negb (D =? 1)%nat
             then do q <- sumsq_last beta Sx; Ok (map_array nsqrt q)
             else Ok (map_array nabs (col0 beta))) = Ok ssb /\
            Forall Z (data ssb) /\ length (data ssb) = J').
  { rewrite <- HD in Hfit.
    destruct (Nat.eqb_spec D 1) as [He|Hne]; cbn [negb].
    - eexists; split; [reflexivity|]. unfold map_array; cbn [data]. split.
      + apply Forall_map. eapply Forall_impl; [|exact (@col0_Z beta Hb)]. auto.
      + rewrite length_map. apply col0_length; auto. now rewrite Hs, He.
    - destruct (sumsq_last_Z beta Sx Hb (Hfit ltac:(congruence)))
        as (q & -> & Hq & Hql & _).
      eexists; split; [reflexivity|]. unfold map_array; cbn [data]. split.
      + apply Forall_map. eapply Forall_impl; [|exact Hq]. auto.
      + rewrite length_map, Hql, Hrl. simpl. lia. }
  destruct Hss as (ssb & -> & Hssb & Hssl). cbn [bind].
  set (dv := map_array (fun s => nsqrt (lit 2) * ERFINVGAMMA0 erfinv * s) ssb).
  assert (Hdvl : length (data dv) = J') by (unfold dv, map_array; cbn [data]; now rewrite length_map).
  rewrite (@group_loop_spec T _ erfinv logit uninit J
             (fun j => nth j (data alpha) (lit 0))
             (fun j => nth j (data dv) (lit 0))
             (fun j => nth j (data (sum_last beta)) (lit 0))
             (fun j => nth j (data ssb) (lit 0))
             (get alpha) (get dv) (get (sum_last beta)) (get ssb)).
  2:{ intros j Hj. repeat split; apply get_nth; lia. }
  cbn [bind fst snd]. apply deg_intro.
  - unfold vector. cbn [shape]. now rewrite length_map, length_seq.
  - unfold vector. cbn [shape]. now rewrite length_map, length_seq.
  - cbn [data vector]. rewrite length_map, length_seq. simpl. lia.
  - cbn [data vector]. rewrite length_map, length_seq. simpl. lia.
  - cbn [data vector]. apply Forall_map, Forall_forall. intros j Hj.
    apply in_seq in Hj. unfold group_sigma. destruct (nlt _ _); apply Dz_intro.
    + unfold dv, map_array. cbn [data].
      rewrite (nth_indep _ (lit 0) (nsqrt (lit 2) * ERFINVGAMMA0 erfinv * lit 0))
        by (rewrite length_map; lia).
      rewrite (map_nth (fun s => nsqrt (lit 2) * ERFINVGAMMA0 erfinv * s)).
      apply Z_mul_r, Forall_nth; auto; lia.
    + apply Forall_nth; auto; lia.
  - cbn [data vector]. intros j Hj Hc. rewrite length_map, length_seq in Hj.
    rewrite nth_map_seq by exact Hj. unfold group_mu. rewrite Hc.
    apply shift_Dz, Forall_nth; auto; lia.
Qed.

Lemma degenerate_result_ext (aj aj' : nat -> T) (sh : list nat)
      (r : result (ndarray T * ndarray T)) :
  (forall j, aj j = aj' j) ->
  degenerate_result DM Z aj sh r -> degenerate_result DM Z aj' sh r.
Proof.
  intros Hext (m & s & Hr & Hm & Hs & Hwm & Hws & Hsig & Hmu).
  exists m, s. repeat split; auto. intros j Hj Hc. apply Hmu; auto.
  now rewrite Hext.
Qed.

Lemma sigma_fits_of_typed (beta : ndarray T) (Sx : option (ndarray T)) :
  sigma_low_dim beta Sx = false -> sigma_typed beta Sx ->
  sigma_fits (last_dim beta) Sx /\ (Sx <> None -> (1 < last_dim beta)%nat).
Proof.
  intros Hlow Htyped. destruct Sx as [S0|]; simpl in *.
  - apply orb_false_iff in Hlow as [_ Hle]. apply Nat.leb_gt in Hle. auto.
  - split; [exact I|congruence].
Qed.

(** Every path of the code, for arguments that pass the validation. *)
Lemma classification_deg (alpha beta : ndarray T) (Sx : option (ndarray T)) :
  (ndim alpha <= 1)%nat -> (ndim beta <= 2)%nat ->
  sigma_low_dim beta Sx = false -> sigma_typed beta Sx ->
  wf alpha -> wf beta -> groups_agree alpha beta ->
  one_shared_slope alpha beta = false ->
  Forall Z (data beta) ->
  degenerate_result DM Z (alpha_of alpha) (output_shape alpha beta)
    (calc_input_param_classification erfinv logit uninit alpha beta Sx).
Proof.
  intros Hra Hrb Hlow Htyped Hwa Hwb Hagree Hshared Hb.
  destruct (sigma_fits_of_typed beta Sx Hlow Htyped) as [Hfit Hsome].
  unfold calc_input_param_classification, output_shape.
  rewrite Hlow.
  replace ((1 <? ndim alpha)%nat || (2 <? ndim beta)%nat) with false
    by (symmetry; apply orb_false_iff; split; apply Nat.ltb_ge; lia).
  destruct alpha as [sa da], beta as [sb db].
  unfold group_count, wf, groups_agree, alpha_of, one_shared_slope, one_slope in *.
  unfold ndim, shape0, last_dim in *.
  cbn [shape data] in *.
  assert (Hsingle : forall (sa' sb' : list nat) (so : bool),
            length da = 1%nat ->
            (ndim (squeeze (mk_array sb' db)) = 1%nat ->
             sigma_fits (last_dim (squeeze (mk_array sb' db))) Sx) ->
            degenerate_result DM Z
              (fun j => nth (if (length da =? 1)%nat then 0 else j)%nat da (lit 0))
              (if so then [] else [1%nat])
              (single_group erfinv logit (mk_array sa' da) (mk_array sb' db) Sx (Some so))).
  { intros sa' sb' so Hda Hsq.
    apply (@degenerate_result_ext (fun _ => item (squeeze (mk_array sa' da)))).
    - intros j. rewrite Hda. reflexivity.
    - now apply single_group_deg. }
  assert (Hsqueeze1 : forall D, sigma_fits D Sx ->
            ndim (squeeze (mk_array [D] db)) = 1%nat ->
            sigma_fits (last_dim (squeeze (mk_array [D] db))) Sx).
  { intros D HfD. unfold squeeze, ndim, last_dim. cbn [shape filter].
    destruct (Nat.eqb_spec D 1); cbn; intros; [discriminate|exact HfD]. }
  assert (Hsqueeze2 : forall D, sigma_fits D Sx ->
            ndim (squeeze (mk_array [1%nat; D] db)) = 1%nat ->
            sigma_fits (last_dim (squeeze (mk_array [1%nat; D] db))) Sx).
  { intros D HfD. unfold squeeze, ndim, last_dim. cbn [shape filter Nat.eqb negb].
    destruct (Nat.eqb_spec D 1); cbn; intros; [discriminate|exact HfD]. }
  destruct sa as [|n [|? ?]]; [| |simpl in Hra; lia];
    destruct sb as [|D1 [|D2 [|? ?]]]; try (simpl in Hrb; lia);
    cbn [length nth Nat.eqb Nat.ltb Nat.leb andb negb prod_shape fold_right last] in *.
  - (* alpha (), beta () *)
    apply (Hsingle [] [] true Hwa). discriminate.
  - (* alpha (), beta (D,) *)
    apply (Hsingle [] [D1] true Hwa). now apply Hsqueeze1.
  - (* alpha (), beta (J, D) *)
    destruct (Nat.eqb_spec D1 1) as [->|HD1]; cbn [negb Nat.eqb].
    + apply (Hsingle [] [1%nat; D2] false Hwa). now apply Hsqueeze2.
    + destruct (Nat.eqb_spec D1 1); [contradiction|].
      unfold multi_group, squeeze, ndim, shape0.
      cbn [shape data filter length nth Nat.eqb andb negb].
      rewrite (proj2 (Nat.eqb_neq D1 1) HD1). cbn [andb Nat.eqb].
      apply (@degenerate_result_ext (fun _ => item (mk_array [] da))).
      * intros j. rewrite Hwa. reflexivity.
      * apply common_alpha_deg with (D := D2); auto.
  - (* alpha (n,), beta () *)
    destruct (Nat.eqb_spec n 1) as [->|Hn]; cbn [negb Nat.eqb].
    + apply (Hsingle [1%nat] [] false).
      * simpl in Hwa; lia.
      * discriminate.
    + destruct (Nat.eqb_spec n 1); [contradiction|].
      unfold multi_group, squeeze, ndim, shape0, newaxis.
      cbn [shape data filter length nth Nat.eqb andb negb].
      rewrite (proj2 (Nat.eqb_neq n 1) Hn).
      cbn [shape data filter length nth Nat.eqb andb negb].
      apply (@degenerate_result_ext (fun j => nth j da (lit 0))).
      * intros j. replace (length da =? 1)%nat with false; [reflexivity|].
        symmetry; apply Nat.eqb_neq. lia.
      * discriminate Hshared.
  - (* alpha (n,), beta (D,) *)
    destruct (Nat.eqb_spec n 1) as [->|Hn]; cbn [negb Nat.eqb].
    + apply (Hsingle [1%nat] [D1] false).
      * simpl in Hwa; lia.
      * now apply Hsqueeze1.
    + destruct (Nat.eqb_spec n 1); [contradiction|].
      unfold multi_group, squeeze, ndim, shape0.
      cbn [shape data filter length nth Nat.eqb andb negb].
      rewrite (proj2 (Nat.eqb_neq n 1) Hn).
      cbn [shape data filter length nth Nat.eqb andb negb].
      apply (@degenerate_result_ext (fun j => nth j da (lit 0))).
      * intros j. replace (length da =? 1)%nat with false; [reflexivity|].
        symmetry; apply Nat.eqb_neq. lia.
      * cbn [negb andb] in Hshared.
        apply (@common_beta_deg n (mk_array [n] da) (mk_array [D1] db) Sx); auto.
        -- unfold shape0. cbn [shape nth]. now apply Nat.eqb_neq.
        -- cbn [data]. lia.
  - (* alpha (n,), beta (J, D) *)
    destruct (Nat.eqb_spec n 1) as [->|Hn]; cbn [negb Nat.eqb].
    + destruct (Nat.eqb_spec D1 1) as [->|HD1]; cbn [negb Nat.eqb].
      * apply (Hsingle [1%nat] [1%nat; D2] false).
        -- simpl in Hwa; lia.
        -- now apply Hsqueeze2.
      * destruct (Nat.eqb_spec D1 1); [contradiction|].
        unfold multi_group, squeeze, ndim, shape0.
        cbn [shape data filter length nth Nat.eqb andb negb].
        rewrite (proj2 (Nat.eqb_neq D1 1) HD1). cbn [andb Nat.eqb].
        apply (@degenerate_result_ext (fun _ => item (mk_array [] da))).
        -- intros j. replace (length da =? 1)%nat with true; [reflexivity|].
           symmetry; apply Nat.eqb_eq. simpl in Hwa; lia.
        -- apply common_alpha_deg with (D := D2); auto.
    + destruct (Nat.eqb_spec n 1); [contradiction|].
      unfold multi_group, squeeze, ndim, shape0, index0.
      cbn [shape data filter length nth Nat.eqb andb negb].
      rewrite (proj2 (Nat.eqb_neq n 1) Hn).
      cbn [shape data filter length nth Nat.eqb andb negb].
      assert (Hext : forall j, nth j da (lit 0) =
                nth (if (length da =? 1)%nat then 0 else j)%nat da (lit 0)).
      { intros j. replace (length da =? 1)%nat with false; [reflexivity|].
        symmetry; apply Nat.eqb_neq. lia. }
      destruct (Nat.eqb_spec D1 1) as [->|HD1];
        cbn [shape data tl length nth Nat.eqb andb negb];
        apply (@degenerate_result_ext (fun j => nth j da (lit 0)) _ _ _ Hext).
      * cbn [negb andb Nat.eqb] in Hshared.
        apply (@common_beta_deg n (mk_array [n] da)
                 (mk_array [D2] (firstn (prod_shape [D2]) db)) Sx); auto.
        -- cbn [data]. now apply Forall_firstn.
        -- unfold shape0. cbn [shape nth]. now apply Nat.eqb_neq.
        -- cbn [data]. lia.
      * apply both_varying_deg with (J' := D1) (D := D2); auto.
        -- cbn [data]. lia.
        -- rewrite (Hagree eq_refl eq_refl Hn HD1). lia.
Qed.

End Degenerate.

(** ** Validation and the shape of the results *)

Lemma sigma_low_dim_iff {T : Type} `{Arith T} (beta : ndarray T)
      (Sigma_x : option (ndarray T)) :
  sigma_low_dim beta Sigma_x = true <->
  Sigma_x <> None /\ (ndim beta = 0 \/ last_dim beta <= 1)%nat.
Proof.
  unfold sigma_low_dim. destruct Sigma_x as [Sx|].
  - rewrite orb_true_iff, Nat.eqb_eq, Nat.leb_le. split.
    + intros Hc. split; [discriminate|exact Hc].
    + intros [_ Hc]. exact Hc.
  - split; [discriminate|]. intros [Hc _]. congruence.
Qed.

Lemma lin_reg_ok {T : Type} `{Arith T} (beta : ndarray T) (sigma : T)
      (Sigma_x : option (ndarray T)) :
  sigma_typed beta Sigma_x -> sigma_low_dim beta Sigma_x = false ->
  exists out, calc_input_param_lin_reg beta sigma Sigma_x = Ok out.
Proof.
  intros Htyped Hlow. unfold calc_input_param_lin_reg. rewrite Hlow.
  destruct ((ndim beta =? 0)%nat || (last_dim beta =? 1)%nat).
  - eexists; reflexivity.
  - destruct (sigma_fits_of_typed beta Sigma_x Hlow Htyped) as [Hfit _].
    destruct Sigma_x as [Sx|]; simpl in *.
    + unfold quad_last. rewrite Hfit.
      destruct (list_eq_dec Nat.eq_dec _ _) as [_|Hne]; [|congruence].
      eexists; reflexivity.
    + eexists; reflexivity.
Qed.

Lemma classification_ok {T : Type} `{Arith T} (erfinv logit : T -> T) (uninit : T)
      (alpha beta : ndarray T) (Sigma_x : option (ndarray T)) :
  (ndim alpha <= 1)%nat -> (ndim beta <= 2)%nat ->
  sigma_low_dim beta Sigma_x = false -> sigma_typed beta Sigma_x ->
  wf alpha -> wf beta -> groups_agree alpha beta ->
  one_shared_slope alpha beta = false ->
  exists mu_x sigma_x,
    calc_input_param_classification erfinv logit uninit alpha beta Sigma_x
    = Ok (mu_x, sigma_x) /\
    shape mu_x = output_shape alpha beta /\ shape sigma_x = output_shape alpha beta /\
    wf mu_x /\ wf sigma_x.
Proof.
  intros Hra Hrb Hlow Htyped Hwa Hwb Hagree Hshared.
  destruct (@classification_deg T _ erfinv logit uninit (fun _ => True))
    with (alpha := alpha) (beta := beta) (Sx := Sigma_x)
    as (m & s & Hr & Hm & Hs & Hwm & Hws & _); auto.
  - apply Forall_forall. auto.
  - exists m, s. auto.
Qed.


(** C5, as the code has it.  The validation fails with its [ValueError],
    before anything is computed and without a result, whatever the
    arguments hold: in [calc_input_param_lin_reg] when [Sigma_x] is given
    and the input dimension is at most one; in
    [calc_input_param_classification] when [alpha] has more than one axis
    or [beta] more than two, and else when [Sigma_x] is given and the input
    dimension is at most one.  When none of this holds, the calls return for
    the arguments of the documentation: well-formed arrays, [Sigma_x] absent
    or [D] x [D], [alpha] and [beta] with the same number of groups, and
    not one slope for the several groups of a vector [alpha]. *)
Theorem validation_errors :
  forall (T : Type) (A : Arith T) (erfinv logit : T -> T) (uninit : T),
    (forall (beta : ndarray T) (Sigma_x : option (ndarray T)),
        sigma_low_dim beta Sigma_x = true <->
        Sigma_x <> None /\ (ndim beta = 0 \/ last_dim beta <= 1)%nat) /\
    (forall (beta : ndarray T) (sigma : T) (Sigma_x : option (ndarray T)),
        (sigma_low_dim beta Sigma_x = true ->
         calc_input_param_lin_reg beta sigma Sigma_x = Err (ValueError msg_sigma)) /\
        (sigma_low_dim beta Sigma_x = false -> sigma_typed beta Sigma_x ->
         exists out, calc_input_param_lin_reg beta sigma Sigma_x = Ok out)) /\
    (forall (alpha beta : ndarray T) (Sigma_x : option (ndarray T)),
        (((1 <? ndim alpha) || (2 <? ndim beta))%nat = true ->
         calc_input_param_classification erfinv logit uninit alpha beta Sigma_x
         = Err (ValueError msg_rank)) /\
        (((1 <? ndim alpha) || (2 <? ndim beta))%nat = false ->
         sigma_low_dim beta Sigma_x = true ->
         calc_input_param_classification erfinv logit uninit alpha beta Sigma_x
         = Err (ValueError msg_sigma)) /\
        (((1 <? ndim alpha) || (2 <? ndim beta))%nat = false ->
         sigma_low_dim beta Sigma_x = false ->
         sigma_typed beta Sigma_x -> wf alpha -> wf beta -> groups_agree alpha beta ->
         one_shared_slope alpha beta = false ->
         exists mu_x sigma_x,
           calc_input_param_classification erfinv logit uninit alpha beta Sigma_x
           = Ok (mu_x, sigma_x))).
Proof.
  intros T A erfinv logit uninit. split; [|split].
  - intros beta Sigma_x. apply sigma_low_dim_iff.
  - intros beta sigma Sigma_x. split.
    + intros Hlow. unfold calc_input_param_lin_reg. now rewrite Hlow.
    + intros Hlow Htyped. now apply lin_reg_ok.
  - intros alpha beta Sigma_x. split; [|split].
    + intros Hrank. unfold calc_input_param_classification. now rewrite Hrank.
    + intros Hrank Hlow. unfold calc_input_param_classification.
      rewrite Hrank, Hlow. now destruct (group_count alpha beta).
    + intros Hrank Hlow Htyped Hwa Hwb Hagree Hshared.
      apply orb_false_iff in Hrank as [Ha Hb].
      apply Nat.ltb_ge in Ha, Hb.
      destruct (@classification_ok T A erfinv logit uninit alpha beta Sigma_x)
        as (m & s & Hr & _); auto.
      exists m, s. exact Hr.
Qed.

Lemma validation_errors_witness :
  calc_input_param_lin_reg (vector [fl 2]) (fl 1) (Some (matrix 1 1 [[fl 1]]))
  = Err (ValueError msg_sigma).
Proof.
  apply (proj1 (proj1 (proj2 (validation_errors binary64_arith erfinv64 logit64 (fl 0)))
                  (vector [fl 2]) (fl 1) (Some (matrix 1 1 [[fl 1]])))).
  reflexivity.
Defined.

(** C5, as the specification words it, fails: the shape of [Sigma_x] is
    not validated.  For the two slopes [beta = [1.0, 2.0]] and a 3 x 3
    [Sigma_x] the input dimension is above one and none of the conditions of
    the validation holds, and both routines fail with the [ValueError] that
    numpy raises in [beta.dot(Sigma_x)]. *)
Lemma validation_is_not_the_only_error :
  sigma_low_dim (vector [fl 1; fl 2])
    (Some (mk_array [3; 3]%nat (repeat (fl 0) 9))) = false /\
  ((1 <? ndim (scalar (fl 0))) || (2 <? ndim (vector [fl 1; fl 2])))%nat = false /\
  (exists msg,
     calc_input_param_lin_reg (vector [fl 1; fl 2]) (fl 1)
       (Some (mk_array [3; 3]%nat (repeat (fl 0) 9))) = Err (ValueError msg)) /\
  (exists msg,
     calc_input_param_classification erfinv64 logit64 (fl 0)
       (scalar (fl 0)) (vector [fl 1; fl 2])
       (Some (mk_array [3; 3]%nat (repeat (fl 0) 9))) = Err (ValueError msg)).
Proof.
  split; [reflexivity|]. split; [reflexivity|].
  split; exists msg_align; vm_compute; reflexivity.
Qed.




(** ** Zero slopes in float64 *)

Section ZeroSlopes.

Lemma zero_or_nan_lit0 : zero_or_nan (lit 0).
Proof. vm_compute. exact I. Qed.

Lemma zero_or_nan_add (x y : binary64) :
  zero_or_nan x -> zero_or_nan y -> zero_or_nan (x + y)%num.
Proof.
  destruct x as [sx|sx| |sx mx ex], y as [sy|sy| |sy my ey]; simpl;
    try contradiction; auto.
  destruct sx, sy; simpl; auto.
Qed.

Lemma zero_or_nan_mul_l (x y : binary64) : zero_or_nan x -> zero_or_nan (x * y)%num.
Proof.
  destruct x as [sx|sx| |sx mx ex], y as [sy|sy| |sy my ey]; simpl;
    try contradiction; auto.
Qed.

Lemma zero_or_nan_mul_r (x y : binary64) : zero_or_nan y -> zero_or_nan (x * y)%num.
Proof.
  destruct x as [sx|sx| |sx mx ex], y as [sy|sy| |sy my ey]; simpl;
    try contradiction; auto.
Qed.


Lemma zero_or_nan_abs (x : binary64) : zero_or_nan x -> zero_or_nan (nabs x).
Proof. destruct x as [sx|sx| |sx mx ex]; simpl; try contradiction; auto. Qed.

(** Dividing by a zero or by NaN gives an infinity or NaN. *)
Lemma quotient_non_finite (v : binary64) :
  quotient_by zero_or_nan v -> non_finite v.
Proof.
  intros (x & y & -> & Hy).
  destruct x as [sx|sx| |sx mx ex], y as [sy|sy| |sy my ey]; simpl in *;
    try contradiction; auto.
Qed.

End ZeroSlopes.



(** ** The single group *)

(** Reads the arithmetic of a goal over the reals. *)
Ltac real_arith :=
  cbn [nadd nsub nmul ndiv nneg nsqrt nabs nlt lit R_arith];
  rewrite ?Q2R_lit0, ?Q2R_lit1, ?Q2R_lit2.

Section SingleGroup.
Local Open Scope R_scope.
Variables erfinv logit : R -> R.
Variable uninit : R.

Lemma sqrt_twice (q : R) : sqrt (2 * q) = sqrt 2 * sqrt q.
Proof. apply sqrt_mult_alt. lra. Qed.

(** The call on a scalar [alpha] and a scalar or vector [beta] is the
    single-group computation with plain scalars for results. *)
Lemma scalar_alpha_single (a : R) (beta : ndarray R) (Sigma_x : option (ndarray R)) :
  (ndim beta <= 1)%nat -> sigma_low_dim beta Sigma_x = false ->
  calc_input_param_classification erfinv logit uninit (scalar a) beta Sigma_x =
  single_group erfinv logit (scalar a) beta Sigma_x (Some true).
Proof.
  intros Hnd Hlow. unfold calc_input_param_classification. rewrite Hlow.
  unfold group_count, ndim in *. simpl.
  replace (2 <? length (shape beta))%nat with false
    by (symmetry; apply Nat.ltb_ge; lia).
  replace (length (shape beta) =? 2)%nat with false
    by (symmetry; apply Nat.eqb_neq; lia).
  replace (length (shape beta) <? 2)%nat with true
    by (symmetry; apply Nat.ltb_lt; lia).
  reflexivity.
Qed.

(** The slope magnitude that the single-group code divides by, without
    and with the factor [sqrt 2]. *)
Lemma single_group_ssbeta (beta : ndarray R) (Sigma_x : option (ndarray R)) :
  (ndim beta <= 1)%nat -> wf beta ->
  sigma_low_dim beta Sigma_x = false -> sigma_typed beta Sigma_x ->
  (if (ndim (squeeze beta) =? 1)%nat
   then do q <- sumsq_vec (squeeze beta) Sigma_x; Ok (nsqrt q)
   else Ok (nabs (item (squeeze beta)))) = Ok (slope_magnitude beta Sigma_x) /\
  (if (ndim (squeeze beta) =? 1)%nat
   then do q <- sumsq_vec (squeeze beta) Sigma_x; Ok (nsqrt (lit 2 * q)%num)
   else Ok (nsqrt (lit 2) * nabs (item (squeeze beta)))%num)
  = Ok (sqrt 2 * slope_magnitude beta Sigma_x).
Proof.
  intros Hnd Hw Hlow Htyped.
  destruct (sigma_fits_of_typed beta Sigma_x Hlow Htyped) as [Hfit Hsome].
  destruct beta as [sb db]. unfold ndim, wf, last_dim in *. cbn [shape data] in *.
  unfold slope_magnitude, squeeze, ndim, item, sumsq_vec, last_dim.
  cbn [shape data].
  destruct sb as [|D [|? ?]]; [| |simpl in Hnd; lia]; cbn [filter length last] in *.
  - simpl in Hw. rewrite Hw. cbn [Nat.eqb]. real_arith. auto.
  - simpl in Hw. rewrite Nat.mul_1_r in Hw. rewrite Hw.
    destruct (Nat.eqb_spec D 1) as [->|HD]; cbn [negb length Nat.eqb last].
    + real_arith. auto.
    + destruct Sigma_x as [Sx|]; cbn [sigma_fits] in *.
      * rewrite Hfit.
        destruct (list_eq_dec Nat.eq_dec [D; D] [D; D]) as [_|Hne]; [|congruence].
        cbn [bind]. real_arith. rewrite sqrt_twice. auto.
      * cbn [bind]. real_arith. rewrite sqrt_twice. auto.
Qed.

End SingleGroup.

(** C2.  For one group, a scalar [alpha] and a scalar or vector [beta]
    that pass the validation, with [s] the aggregate slope magnitude: if
    [|alpha| < DELTA_MAX] the results are [mu_x = 0] and
    [sigma_x = (LOGITP0 + |alpha|) / (ERFINVGAMMA0 * sqrt(2) * s)]; else
    [mu_x = (DELTA_MAX - alpha) / sum(beta)] when [alpha > 0] and
    [(-DELTA_MAX - alpha) / sum(beta)] otherwise, and [sigma_x = SIGMA_F0 / s]. *)
Theorem single_group_formulas :
  forall (erfinv logit : R -> R) (uninit a : R)
         (beta : ndarray R) (Sigma_x : option (ndarray R)),
    (ndim beta <= 1)%nat -> wf beta ->
    sigma_low_dim beta Sigma_x = false -> sigma_typed beta Sigma_x ->
    let s := slope_magnitude beta Sigma_x in
    let DM := DELTA_MAX erfinv logit in
    let call :=
      calc_input_param_classification erfinv logit uninit (scalar a) beta Sigma_x in
    (Rabs a < DM ->
     call = Ok (scalar 0,
                scalar ((LOGITP0 logit + Rabs a) / (ERFINVGAMMA0 erfinv * sqrt 2 * s))))%R /\
    (DM <= Rabs a -> 0 < a ->
     call = Ok (scalar ((DM - a) / sum (data beta)), scalar (SIGMA_F0 / s)))%R /\
    (DM <= Rabs a -> a <= 0 ->
     call = Ok (scalar ((- DM - a) / sum (data beta)), scalar (SIGMA_F0 / s)))%R.
Proof.
  intros erfinv logit uninit a beta Sigma_x Hnd Hw Hlow Htyped s DM call.
  unfold call. rewrite scalar_alpha_single by assumption.
  destruct (@single_group_ssbeta beta Sigma_x Hnd Hw Hlow Htyped) as [Hs1 Hs2].
  fold s in Hs1, Hs2.
  unfold single_group. rewrite Hs1, Hs2. cbn [bind fst snd].
  change (item (squeeze (scalar a))) with a.
  change (data (squeeze beta)) with (data beta).
  unfold shift. real_arith. fold DM.
  repeat split.
  - intros Hlt. apply Rltb_true in Hlt. rewrite Hlt.
    now rewrite Rmult_assoc.
  - intros Hge Hpos. apply Rltb_false in Hge. apply Rltb_true in Hpos.
    now rewrite Hge, Hpos.
  - intros Hge Hneg. apply Rltb_false in Hge, Hneg.
    now rewrite Hge, Hneg.
Qed.

Lemma single_group_formulas_witness :
  calc_input_param_classification erfinvR logitR 0%R (scalar 100%R) (scalar 1%R) None =
  Ok (scalar ((DELTA_MAX erfinvR logitR - 100) / 1)%R,
      scalar (SIGMA_F0 / Rabs 1)%R).
Proof.
  apply (@single_group_formulas erfinvR logitR 0%R 100%R (scalar 1%R) None);
    try reflexivity; try exact I; try lra.
  - unfold ndim. simpl. lia.
  - rewrite Rabs_right by lra.
    unfold DELTA_MAX, SIGMA_F0, ERFINVGAMMA0, LOGITP0, erfinvR, logitR. real_arith.
    assert (H0 : (0 <= sqrt 2)%R) by apply sqrt_pos.
    unfold Q2R; simpl. nra.
Defined.

(** ** Several groups with the same coefficients *)

Section SameGroups.
Local Open Scope R_scope.
Variables erfinv logit : R -> R.
Variable uninit : R.

Lemma get_repeat (sh : list nat) (x : R) (J j : nat) :
  (j < J)%nat -> get (mk_array sh (repeat x J)) j = Ok x.
Proof.
  intros Hj. rewrite (get_nth _ 0) by (cbn [data]; now rewrite repeat_length).
  cbn [data]. now rewrite nth_repeat_lt.
Qed.


Lemma concat_repeat_singleton (b : R) (J : nat) :
  concat (repeat [b] J) = repeat b J.
Proof. induction J as [|J IH]; simpl; [reflexivity|]. now rewrite IH. Qed.

(** The rows of [J] copies of [b0]. *)
Lemma rows_last_repeat (b0 : list R) (J : nat) :
  rows_last (matrix J (length b0) (repeat b0 J)) = repeat b0 J.
Proof.
  unfold rows_last, matrix, last_dim. cbn [shape data removelast last prod_shape fold_right].
  rewrite Nat.mul_1_r. now apply rows_repeat.
Qed.

(** The slope magnitudes of [J] copies of [b0] are [J] copies of the
    magnitude of [b0]. *)
Lemma ssbeta_repeat (b0 : list R) (J : nat) (Sigma_x : option (ndarray R)) :
  (if negb (length b0 =? 1)%nat
   then do q <- sumsq_last (matrix J (length b0) (repeat b0 J)) Sigma_x;
        Ok (map_array nsqrt q)
   else Ok (map_array nabs (col0 (matrix J (length b0) (repeat b0 J))))) =
  do v <- (if negb (length b0 =? 1)%nat
           then do q <- sumsq_vec (vector b0) Sigma_x; Ok (nsqrt q)
           else Ok (nabs (item (vector b0))));
  Ok (mk_array [J] (repeat v J)).
Proof.
  destruct (Nat.eqb_spec (length b0) 1) as [H1|H1]; cbn [negb].
  - destruct b0 as [|b [|? ?]]; try discriminate. cbn [bind].
    unfold col0, map_array. rewrite rows_last_repeat.
    cbn [shape data matrix removelast item vector nth].
    rewrite map_repeat. cbn [firstn]. rewrite concat_repeat_singleton.
    now rewrite map_repeat.
  - unfold sumsq_last, sumsq_vec, quad_last.
    assert (HD : last_dim (matrix J (length b0) (repeat b0 J)) = length b0)
      by reflexivity.
    assert (HD' : last_dim (vector b0) = length b0) by reflexivity.
    rewrite HD, HD'.
    destruct Sigma_x as [Sx|].
    + destruct (list_eq_dec Nat.eq_dec (shape Sx) [length b0; length b0]);
        [|reflexivity].
      cbn [bind]. unfold map_array. rewrite rows_last_repeat.
      cbn [shape data matrix vector removelast].
      now rewrite !map_repeat.
    + cbn [bind]. unfold map_array, sum_last, rows_last, last_dim.
      cbn [shape data matrix vector removelast last prod_shape fold_right].
      rewrite Nat.mul_1_r, rows_map, rows_repeat by reflexivity.
      now rewrite !map_repeat.
Qed.


(** A vector [alpha] and a matrix [beta], each with a group axis, take
    the path of the last loop. *)
Lemma multi_group_both (J J' D : nat) (da db : list R)
      (Sigma_x : option (ndarray R)) :
  J <> 1%nat -> J' <> 1%nat ->
  multi_group erfinv logit uninit J (mk_array [J] da) (mk_array [J'; D] db) Sigma_x =
  both_varying erfinv logit uninit J (mk_array [J] da) (mk_array [J'; D] db) Sigma_x.
Proof.
  intros HJ HJ'. unfold multi_group, squeeze, ndim, shape0.
  cbn [shape data filter length nth].
  rewrite (proj2 (Nat.eqb_neq J 1) HJ), (proj2 (Nat.eqb_neq J' 1) HJ').
  reflexivity.
Qed.

End SameGroups.




(** ** The simulated data *)

Section DataFacts.
Context {T : Type} `{Arith T} `{Compare T}.
Variable Dict : Type.
Variable uninit : T.

Lemma for_each_fill (v : nat -> T) (entry : nat -> result T) (J : nat) :
  (forall j, (j < J)%nat -> entry j = Ok (v j)) ->
  data.fill_groups uninit J entry = Ok (map v (seq 0 J)).
Proof.
  intros Hentry. unfold data.fill_groups.
  assert (Hinv : forall k, (k <= J)%nat ->
    for_each (seq 0 k) (fun j ug => do u <- entry j; Ok (upd ug j u)) (repeat uninit J)
    = Ok (map v (seq 0 k) ++ repeat uninit (J - k))).
  { induction k as [|k IH]; intros Hk.
    - simpl. now rewrite Nat.sub_0_r.
    - rewrite seq_S, for_each_app, IH by lia. simpl.
      rewrite Hentry by lia. simpl.
      rewrite (repeat_S_sub _ (J := J) (k := k)) by lia.
      rewrite upd_app_at by now rewrite length_map, length_seq.
      rewrite map_app, <- app_assoc. reflexivity. }
  rewrite Hinv by lia. now rewrite Nat.sub_diag, app_nil_r.
Qed.

(** The loop stops at the first group whose entry cannot be computed. *)
Lemma for_each_fill_error (v : nat -> T) (entry : nat -> result T) (J j0 : nat)
      (e : exn) :
  (j0 < J)%nat ->
  (forall j, (j < j0)%nat -> entry j = Ok (v j)) ->
  entry j0 = Err e ->
  data.fill_groups uninit J entry = Err e.
Proof.
  intros Hj0 Hbefore Herr. unfold data.fill_groups.
  replace (seq 0 J) with (seq 0 j0 ++ j0 :: seq (S j0) (J - S j0)).
  - rewrite for_each_app.
    assert (Hpre : exists st,
      for_each (seq 0 j0) (fun j ug => do u <- entry j; Ok (upd ug j u)) (repeat uninit J)
      = Ok st).
    { clear Herr. induction j0 as [|k IH].
      - eexists; reflexivity.
      - destruct IH as (st & Hst); [lia|auto|].
        rewrite seq_S, for_each_app, Hst. simpl. rewrite Hbefore by lia.
        eexists; reflexivity. }
    destruct Hpre as (st & ->). simpl. now rewrite Herr.
  - replace (seq 0 J) with (seq 0 (j0 + S (J - S j0))) by (f_equal; lia).
    rewrite seq_app. reflexivity.
Qed.

Lemma geti_nth {A : Type} (l : list A) (j : nat) (dflt : A) :
  (j < length l)%nat -> data.geti l j = Ok (nth j l dflt).
Proof.
  intros Hj. unfold data.geti. now rewrite (nth_error_nth' _ dflt Hj).
Qed.

Lemma geti_overflow {A : Type} (l : list A) (j : nat) :
  (length l <= j)%nat -> data.geti l j = Err IndexError.
Proof.
  intros Hj. unfold data.geti.
  now rewrite (proj2 (nth_error_None l j) Hj).
Qed.

(** On arrays of one length the elementwise operation pairs the elements. *)
Lemma broadcast2_same_length {A B C : Type} (f : A -> B -> C)
      (u : list A) (v : list B) :
  length u = length v ->
  data.broadcast2 f u v = Ok (map (fun p => f (fst p) (snd p)) (combine u v)).
Proof.
  intros Hlen. unfold data.broadcast2.
  destruct u as [|x [|x' u]], v as [|w [|w' v]]; try discriminate; try reflexivity.
  simpl in Hlen. injection Hlen as Hlen. simpl. now rewrite Hlen, Nat.eqb_refl.
Qed.

Lemma slice_length {A : Type} (l : list A) (a b : nat) :
  length (data.slice l a b) = (Nat.min b (length l) - a)%nat.
Proof. unfold data.slice. rewrite length_firstn, length_skipn. lia. Qed.

Lemma yslice_length (a : yarray T) (lo hi : nat) :
  data.ylength (data.yslice a lo hi) = (Nat.min hi (data.ylength a) - lo)%nat.
Proof. destruct a; simpl; apply slice_length. Qed.

Lemma not_equal_ok (u v : yarray T) :
  data.ylength u = data.ylength v ->
  exists ne, data.not_equal u v = Ok ne /\ length ne = data.ylength v.
Proof.
  intros Hlen. destruct u as [a|a], v as [b|b]; simpl in *;
    rewrite broadcast2_same_length by assumption;
    eexists; (split; [reflexivity|]);
    rewrite length_map, length_combine; lia.
Qed.

Lemma count_nonzero_bounds (l : list bool) :
  (0 <= data.count_nonzero l <= Z.of_nat (length l))%Z.
Proof.
  unfold data.count_nonzero. pose proof (filter_length_le (fun b : bool => b) l). lia.
Qed.

Lemma fill_groups_ok (entry : nat -> result T) (J : nat) :
  (forall j, (j < J)%nat -> exists x, entry j = Ok x) ->
  exists gs, data.fill_groups uninit J entry = Ok gs /\ length gs = J /\
             forall j, (j < J)%nat -> entry j = Ok (nth j gs uninit).
Proof.
  intros Hentry.
  set (v := fun j => match entry j with Ok x => x | Err _ => uninit end).
  assert (Hv : forall j, (j < J)%nat -> entry j = Ok (v j)).
  { intros j Hj. destruct (Hentry j Hj) as (x & Hx). unfold v. now rewrite Hx. }
  exists (map v (seq 0 J)). split; [now apply for_each_fill|].
  split; [now rewrite length_map, length_seq|].
  intros j Hj. rewrite Hv by exact Hj. f_equal.
  rewrite (nth_indep _ uninit (v 0%nat)) by now rewrite length_map, length_seq.
  rewrite (map_nth v (seq 0 J) 0%nat j). now rewrite seq_nth.
Qed.

Lemma r_squared_ok (u v : list T) :
  length u = length v -> exists x, data.r_squared u v = Ok x.
Proof.
  intros Hlen. unfold data.r_squared.
  rewrite broadcast2_same_length by exact Hlen. eexists; reflexivity.
Qed.

Lemma as_float_length (a : yarray T) : length (data.as_float a) = data.ylength a.
Proof. destruct a; simpl; [apply length_map|reflexivity]. Qed.

(** The entry of group [j], when the limits [j] and [j + 1] exist. *)
Lemma group_entry_ok (self : @data.t T Dict) (j : nat) :
  data.ylength (data.y_true self) = data.ylength (data.y self) ->
  (S j < length (data.j_lim self))%nat -> (j < length (data.Nj self))%nat ->
  (exists x,
     (do lo <- data.geti (data.j_lim self) j;
      do hi <- data.geti (data.j_lim self) (j + 1);
      do ne <- data.not_equal (data.yslice (data.y_true self) lo hi)
                              (data.yslice (data.y self) lo hi);
      do n <- data.geti (data.Nj self) j;
      Ok (data.of_int (data.count_nonzero ne) / data.of_int n)%num) = Ok x) /\
  (forall yl, data.y self = FloatArray yl ->
     exists x,
       (do lo <- data.geti (data.j_lim self) j;
        do hi <- data.geti (data.j_lim self) (j + 1);
        data.r_squared (data.slice yl lo hi)
                       (data.slice (data.as_float (data.y_true self)) lo hi)) = Ok x).
Proof.
  intros Hlen Hlim HNj.
  rewrite (geti_nth _ 0%nat) by lia.
  rewrite Nat.add_1_r, (geti_nth _ 0%nat) by lia. cbn [bind].
  split.
  - destruct (not_equal_ok
                (data.yslice (data.y_true self) (nth j (data.j_lim self) 0%nat)
                             (nth (S j) (data.j_lim self) 0%nat))
                (data.yslice (data.y self) (nth j (data.j_lim self) 0%nat)
                             (nth (S j) (data.j_lim self) 0%nat)))
      as (ne & -> & _).
    { now rewrite !yslice_length, Hlen. }
    cbn [bind]. rewrite (geti_nth _ 0%Z) by lia. eexists; reflexivity.
  - intros yl Hy. apply r_squared_ok.
    rewrite !slice_length, as_float_length, Hlen, Hy. reflexivity.
Qed.

End DataFacts.

(** X1.  For data whose [y] and [y_true] have one value for each
    observation and whose [j_lim] has one limit more than there are groups,
    [calc_uncertainty] returns the global value and one value for each of
    the [J] groups, also when there is no group. *)
Theorem calc_uncertainty_returns :
  forall (T : Type) (A : Arith T) (C : Compare T) (Dict : Type) (uninit : T)
         (self : @data.t T Dict),
    well_shaped self ->
    exists g gs,
      data.calc_uncertainty uninit self = Ok (g, gs) /\ length gs = data.J self.
Proof.
  intros T A C Dict uninit self (Hlen & Hlim & HNj).
  unfold data.calc_uncertainty.
  destruct (data.y self) as [yl|yl] eqn:Hy; rewrite <- Hy in Hlen.
  - unfold data.wrong_share. rewrite <- Hy.
    destruct (not_equal_ok (data.y_true self) (data.y self) Hlen) as (ne & -> & _).
    cbn [bind].
    destruct (fill_groups_ok uninit
                (fun j =>
                   do lo <- data.geti (data.j_lim self) j;
                   do hi <- data.geti (data.j_lim self) (j + 1);
                   do ne <- data.not_equal (data.yslice (data.y_true self) lo hi)
                                           (data.yslice (data.y self) lo hi);
                   do n <- data.geti (data.Nj self) j;
                   Ok (data.of_int (data.count_nonzero ne) / data.of_int n)%num)
                (J := data.J self)) as (gs & -> & Hgs & _).
    { intros j Hj. apply (group_entry_ok self); auto; lia. }
    cbn [bind]. eauto.
  - destruct (@r_squared_ok T A yl (data.as_float (data.y_true self))) as (g & ->).
    { rewrite as_float_length, Hlen, Hy. reflexivity. }
    cbn [bind].
    destruct (fill_groups_ok uninit
                (fun j =>
                   do lo <- data.geti (data.j_lim self) j;
                   do hi <- data.geti (data.j_lim self) (j + 1);
                   data.r_squared (data.slice yl lo hi)
                                  (data.slice (data.as_float (data.y_true self)) lo hi))
                (J := data.J self)) as (gs & -> & Hgs & _).
    { intros j Hj. apply (group_entry_ok self); auto; lia. }
    cbn [bind]. eauto.
Qed.

Lemma calc_uncertainty_returns_witness :
  exists g gs,
    data.calc_uncertainty (fl 0)
      (data.init (scalar (fl 0)) (IntArray [1; 0; 1; 1]%Z) tt (IntArray [1; 1; 1; 0]%Z)
                 [2; 2]%Z [0; 2; 4]%nat [0; 0; 1; 1]%nat tt) = Ok (g, gs) /\
    length gs = 2%nat.
Proof.
  apply (@calc_uncertainty_returns binary64 _ _ unit (fl 0)).
  repeat split.
Defined.

(** X2.  When [j_lim] has no more limits than there are groups, and there
    is a group, [calc_uncertainty] fails with [IndexError] on reading a
    limit and returns neither value. *)
Theorem calc_uncertainty_missing_limit :
  forall (T : Type) (A : Arith T) (C : Compare T) (Dict : Type) (uninit : T)
         (self : @data.t T Dict),
    data.ylength (data.y_true self) = data.ylength (data.y self) ->
    length (data.Nj self) = data.J self ->
    (0 < data.J self)%nat ->
    (length (data.j_lim self) <= data.J self)%nat ->
    data.calc_uncertainty uninit self = Err IndexError.
Proof.
  intros T A C Dict uninit self Hlen HNj HJ Hlim.
  set (j0 := Nat.pred (length (data.j_lim self))).
  assert (Hfail : forall (k : nat -> nat -> result T),
            (do lo <- data.geti (data.j_lim self) j0;
             do hi <- data.geti (data.j_lim self) (j0 + 1); k lo hi) = Err IndexError).
  { intros k. destruct (length (data.j_lim self)) as [|n] eqn:Hn.
    - rewrite geti_overflow by (subst j0; lia). reflexivity.
    - rewrite (geti_nth _ 0%nat) by (subst j0; simpl; lia). cbn [bind].
      rewrite geti_overflow by (subst j0; simpl; lia). reflexivity. }
  unfold data.calc_uncertainty.
  destruct (data.y self) as [yl|yl] eqn:Hy; rewrite <- Hy in Hlen.
  - unfold data.wrong_share. rewrite <- Hy.
    destruct (not_equal_ok (data.y_true self) (data.y self) Hlen) as (ne & -> & _).
    cbn [bind].
    rewrite (@for_each_fill_error T uninit
               (fun j => match
                   (do lo <- data.geti (data.j_lim self) j;
                    do hi <- data.geti (data.j_lim self) (j + 1);
                    do ne <- data.not_equal (data.yslice (data.y_true self) lo hi)
                                            (data.yslice (data.y self) lo hi);
                    do n <- data.geti (data.Nj self) j;
                    Ok (data.of_int (data.count_nonzero ne) / data.of_int n)%num)
                 with Ok x => x | Err _ => uninit end)
               _ (data.J self) j0 IndexError).
    + reflexivity.
    + subst j0. lia.
    + intros j Hj.
      destruct (group_entry_ok self (j := j)) as [(x & ->) _]; auto; subst j0; lia.
    + apply Hfail.
  - destruct (@r_squared_ok T A yl (data.as_float (data.y_true self))) as (g & ->).
    { rewrite as_float_length, Hlen, Hy. reflexivity. }
    cbn [bind].
    rewrite (@for_each_fill_error T uninit
               (fun j => match
                   (do lo <- data.geti (data.j_lim self) j;
                    do hi <- data.geti (data.j_lim self) (j + 1);
                    data.r_squared (data.slice yl lo hi)
                                   (data.slice (data.as_float (data.y_true self)) lo hi))
                 with Ok x => x | Err _ => uninit end)
               _ (data.J self) j0 IndexError).
    + reflexivity.
    + subst j0. lia.
    + intros j Hj.
      destruct (group_entry_ok self (j := j)) as [_ Hc]; auto; try (subst j0; lia).
      destruct (Hc yl Hy) as (x & ->). reflexivity.
    + apply Hfail.
Qed.

Lemma calc_uncertainty_missing_limit_witness :
  data.calc_uncertainty (fl 0)
    (data.init (scalar (fl 0)) (IntArray [1; 0; 1; 1]%Z) tt (IntArray [1; 1; 1; 0]%Z)
               [2; 2]%Z [0; 2]%nat [0; 0; 1; 1]%nat tt) = Err IndexError.
Proof.
  apply (@calc_uncertainty_missing_limit binary64 _ _ unit (fl 0)); simpl; auto; lia.
Defined.

Section DataLists.

Lemma skipn_combine {A B : Type} (n : nat) :
  forall (u : list A) (v : list B),
    skipn n (combine u v) = combine (skipn n u) (skipn n v).
Proof.
  induction n as [|n IH]; intros [|x u] [|w v]; simpl; try reflexivity.
  - now destruct (skipn n u).
  - apply IH.
Qed.

Lemma slice_map {A B : Type} (f : A -> B) (l : list A) (a b : nat) :
  data.slice (map f l) a b = map f (data.slice l a b).
Proof. unfold data.slice. now rewrite skipn_map, firstn_map. Qed.

Lemma slice_combine {A B : Type} (u : list A) (v : list B) (a b : nat) :
  data.slice (combine u v) a b = combine (data.slice u a b) (data.slice v a b).
Proof. unfold data.slice. now rewrite skipn_combine, combine_firstn. Qed.

Lemma firstn_slice {A : Type} (l : list A) (a b : nat) :
  (a <= b)%nat -> firstn b l = firstn a l ++ data.slice l a b.
Proof.
  intros Hab. unfold data.slice.
  rewrite <- (firstn_skipn a l) at 1.
  destruct (Nat.le_gt_cases (length l) a) as [Hl|Hl].
  - rewrite (skipn_all2 l Hl), app_nil_r, firstn_nil, app_nil_r.
    rewrite firstn_firstn. f_equal. lia.
  - replace b with (length (firstn a l) + (b - a))%nat at 1
      by (rewrite length_firstn; lia).
    apply firstn_app_2.
Qed.

Lemma count_nonzero_app (u v : list bool) :
  data.count_nonzero (u ++ v) = (data.count_nonzero u + data.count_nonzero v)%Z.
Proof. unfold data.count_nonzero. rewrite filter_app, length_app. lia. Qed.

(** The count over the whole array is the sum of the counts over the
    consecutive slices. *)
Lemma count_nonzero_slices (limit : nat -> nat) (ne : list bool) (J : nat) :
  limit 0%nat = 0%nat ->
  (forall j, (j < J)%nat -> (limit j <= limit (S j))%nat) ->
  data.count_nonzero (firstn (limit J) ne) =
  fold_right Z.add 0%Z
    (map (fun j => data.count_nonzero (data.slice ne (limit j) (limit (S j)))) (seq 0 J)).
Proof.
  intros H0 Hmono. induction J as [|k IH].
  - rewrite H0. reflexivity.
  - rewrite seq_S, map_app, fold_right_app. simpl.
    rewrite (firstn_slice ne (a := limit k) (b := limit (S k))) by (apply Hmono; lia).
    rewrite count_nonzero_app, IH by (intros; apply Hmono; lia).
    generalize (map (fun j => data.count_nonzero (data.slice ne (limit j) (limit (S j))))
                    (seq 0 k)).
    intros l. generalize (data.count_nonzero (data.slice ne (limit k) (limit (S k)))).
    intros c. induction l as [|x l IHl]; simpl; lia.
Qed.

End DataLists.

Section DataResults.
Context {T : Type} `{Arith T} `{Compare T}.
Local Open Scope num_scope.
Variable Dict : Type.
Variable uninit : T.

(** The comparison of two slices is the slice of the comparison. *)
Lemma not_equal_slice (u v : yarray T) (ne : list bool) (lo hi : nat) :
  data.ylength u = data.ylength v ->
  data.not_equal u v = Ok ne ->
  data.not_equal (data.yslice u lo hi) (data.yslice v lo hi) = Ok (data.slice ne lo hi).
Proof.
  intros Hlen Hne.
  assert (Hsl : data.ylength (data.yslice u lo hi) = data.ylength (data.yslice v lo hi))
    by now rewrite !yslice_length, Hlen.
  destruct u as [a|a], v as [b|b]; simpl in *;
    rewrite broadcast2_same_length in Hne by assumption;
    rewrite broadcast2_same_length by assumption;
    injection Hne as <-; now rewrite slice_map, slice_combine.
Qed.

(** The two values of the categorical branch. *)
Lemma categorical_result (self : @data.t T Dict) (yl : list Z) (ne : list bool) :
  data.y self = IntArray yl ->
  well_shaped self ->
  data.not_equal (data.y_true self) (data.y self) = Ok ne ->
  data.calc_uncertainty uninit self =
  Ok (data.of_int (data.count_nonzero ne) / data.of_int (data.N self),
      map (fun j => data.of_int
                      (data.count_nonzero (data.slice ne (lim self j) (lim self (S j))))
                    / data.of_int (nth j (data.Nj self) 0%Z))
          (seq 0 (data.J self))).
Proof.
  intros Hy (Hlen & Hlim & HNj) Hne.
  unfold data.calc_uncertainty. rewrite Hy. cbv iota. rewrite <- Hy.
  unfold data.wrong_share. rewrite Hne. cbn [bind].
  rewrite (@for_each_fill T uninit
             (fun j => data.of_int
                         (data.count_nonzero (data.slice ne (lim self j) (lim self (S j))))
                       / data.of_int (nth j (data.Nj self) 0%Z))).
  - reflexivity.
  - intros j Hj. unfold lim.
    rewrite (geti_nth _ 0%nat) by lia.
    rewrite Nat.add_1_r, (geti_nth _ 0%nat) by lia. cbn [bind].
    erewrite not_equal_slice; [| exact Hlen | exact Hne]. cbn [bind].
    rewrite (geti_nth _ 0%Z) by lia. reflexivity.
Qed.

(** The two values of the continuous branch. *)
Lemma continuous_result (self : @data.t T Dict) (yl : list T) :
  data.y self = FloatArray yl ->
  well_shaped self ->
  let yt := data.as_float (data.y_true self) in
  let r2 := fun u v : list T =>
    lit 1 - sum (map square (map (fun p => fst p - snd p) (combine u v))) / sst u in
  data.calc_uncertainty uninit self =
  Ok (r2 yl yt,
      map (fun j => r2 (data.slice yl (lim self j) (lim self (S j)))
                       (data.slice yt (lim self j) (lim self (S j))))
          (seq 0 (data.J self))).
Proof.
  intros Hy (Hlen & Hlim & HNj) yt r2.
  assert (Hr2 : forall u v : list T, length u = length v ->
                                     data.r_squared u v = Ok (r2 u v)).
  { intros u v Huv. unfold data.r_squared.
    rewrite broadcast2_same_length by exact Huv. reflexivity. }
  unfold data.calc_uncertainty. rewrite Hy. cbv iota.
  rewrite Hr2 by (subst yt; rewrite as_float_length, Hlen, Hy; reflexivity).
  cbn [bind].
  rewrite (@for_each_fill T uninit
             (fun j => r2 (data.slice yl (lim self j) (lim self (S j)))
                          (data.slice yt (lim self j) (lim self (S j))))).
  - reflexivity.
  - intros j Hj. unfold lim.
    rewrite (geti_nth _ 0%nat) by lia.
    rewrite Nat.add_1_r, (geti_nth _ 0%nat) by lia. cbn [bind].
    apply Hr2. subst yt.
    rewrite !slice_length, as_float_length, Hlen, Hy. reflexivity.
Qed.

End DataResults.

Section DataCounts.

Lemma fold_left_Zadd (l : list Z) (z : Z) :
  fold_left Z.add l z = (z + fold_right Z.add 0 l)%Z.
Proof.
  revert z; induction l as [|x l IH]; intros z; simpl; [lia|].
  rewrite IH. lia.
Qed.

Lemma fold_right_Zadd_snoc (l : list Z) (x : Z) :
  fold_right Z.add 0%Z (l ++ [x]) = (fold_right Z.add 0 l + x)%Z.
Proof. induction l as [|w l IH]; simpl; lia. Qed.

Lemma int64_small (z : Z) : (- 2 ^ 63 <= z < 2 ^ 63)%Z -> int64 z = z.
Proof. intros Hz. unfold int64. rewrite Z.mod_small; lia. Qed.

Context {T : Type} `{Arith T} `{Compare T}.
Variable Dict : Type.

Lemma lim_mono (self : @data.t T Dict) (j : nat) :
  partitioned self -> (j < data.J self)%nat -> (lim self j <= lim self (S j))%nat.
Proof. intros (_ & _ & Hp) Hj. destruct (Hp j Hj). lia. Qed.

(** The group sizes add up to the last limit. *)
Lemma sizes_add_up (self : @data.t T Dict) :
  length (data.Nj self) = data.J self ->
  partitioned self ->
  fold_right Z.add 0%Z (data.Nj self) = Z.of_nat (data.ylength (data.y self)).
Proof.
  intros HNj (Hl0 & HJ & Hp). rewrite <- HJ.
  rewrite <- (firstn_all (data.Nj self)), HNj.
  assert (Hk : forall k, (k <= data.J self)%nat ->
            fold_right Z.add 0%Z (firstn k (data.Nj self)) = Z.of_nat (lim self k)).
  { induction k as [|k IH]; intros Hk.
    - rewrite Hl0. reflexivity.
    - rewrite (firstn_slice (data.Nj self) (a := k) (b := S k)) by lia.
      unfold data.slice. replace (S k - k)%nat with 1%nat by lia.
      destruct (skipn k (data.Nj self)) as [|x r] eqn:Hsk.
      + exfalso. assert (Hl := length_skipn k (data.Nj self)).
        rewrite Hsk in Hl. simpl in Hl. lia.
      + simpl. rewrite fold_right_Zadd_snoc, IH by lia.
        destruct (Hp k) as (_ & ->); [lia|].
        f_equal. rewrite <- (firstn_skipn k (data.Nj self)), Hsk at 1.
        rewrite app_nth2 by (rewrite length_firstn; lia).
        rewrite length_firstn. replace (k - Nat.min k _)%nat with 0%nat by lia.
        reflexivity. }
  apply Hk. lia.
Qed.

End DataCounts.

(** X3.  For an object built by [__init__] whose limits cut the
    observations into consecutive groups of [Nj[j]] observations, [N] is the
    number of observations, as long as that number fits an int64. *)
Theorem init_counts_observations :
  forall (T : Type) (A : Arith T) (Dict : Type)
         (X : ndarray T) (y : yarray T) (X_param : Dict) (y_true : yarray T)
         (Nj : list Z) (j_lim j_ind : list nat) (true_values : Dict),
    partitioned (data.init X y X_param y_true Nj j_lim j_ind true_values) ->
    (Z.of_nat (data.ylength y) < 2 ^ 63)%Z ->
    data.N (data.init X y X_param y_true Nj j_lim j_ind true_values) =
    Z.of_nat (data.ylength y) /\
    data.J (data.init X y X_param y_true Nj j_lim j_ind true_values) = length Nj.
Proof.
  intros T A Dict X y X_param y_true Nj j_lim j_ind true_values Hp Hsmall.
  split; [|reflexivity].
  pose proof (sizes_add_up (self := data.init X y X_param y_true Nj j_lim j_ind true_values)
                eq_refl Hp) as Hsum.
  cbn [data.init data.N data.Nj data.y] in *.
  rewrite fold_left_Zadd, Z.add_0_l, Hsum. apply int64_small. lia.
Qed.

Lemma init_counts_observations_witness :
  data.N (data.init (scalar (fl 0)) (IntArray [1; 0; 1; 1]%Z) tt (IntArray [1; 1; 1; 0]%Z)
                    [1; 3]%Z [0; 1; 4]%nat [0; 1; 1; 1]%nat tt) = 4%Z /\
  data.J (data.init (scalar (fl 0)) (IntArray [1; 0; 1; 1]%Z) tt (IntArray [1; 1; 1; 0]%Z)
                    [1; 3]%Z [0; 1; 4]%nat [0; 1; 1; 1]%nat tt) = 2%nat.
Proof.
  apply (@init_counts_observations binary64 _ unit).
  - split; [reflexivity|]. split; [reflexivity|].
    intros [|[|j]] Hj; simpl in *; lia.
  - simpl. lia.
Defined.

Section DataReal.
Local Open Scope R_scope.
Variable Dict : Type.
Variable uninit : R.

Lemma of_int_R (z : Z) : data.of_int z = IZR z.
Proof.
  unfold data.of_int. cbn [lit R_arith]. unfold Q2R, inject_Z. simpl.
  rewrite Rinv_1. apply Rmult_1_r.
Qed.

Lemma IZR_fold_right (l : list Z) :
  IZR (fold_right Z.add 0%Z l) = fold_right Rplus 0 (map IZR l).
Proof.
  induction l as [|x l IH]; simpl; [reflexivity|].
  now rewrite plus_IZR, IH.
Qed.

Lemma share_bounds (c n : Z) :
  (0 <= c <= n)%Z -> (0 < n)%Z -> 0 <= IZR c / IZR n <= 1.
Proof.
  intros [Hc Hcn] Hn.
  apply IZR_le in Hc. apply IZR_le in Hcn. apply IZR_lt in Hn.
  assert (Hinv : 0 < / IZR n) by now apply Rinv_0_lt_compat.
  unfold Rdiv. split.
  - apply Rmult_le_pos; lra.
  - apply (Rmult_le_reg_r (IZR n)); [exact Hn|].
    rewrite Rmult_assoc, Rinv_l by lra. lra.
Qed.

Lemma sumsq_nonneg (l : list R) : 0 <= fold_right Rplus 0 (map square l).
Proof.
  induction l as [|x l IH]; cbn [map fold_right]; [lra|].
  assert (0 <= square x) by (unfold square; cbn [nmul R_arith]; apply Rle_0_sqr).
  lra.
Qed.

Lemma sumsq_zero (u v : list R) :
  length u = length v ->
  fold_right Rplus 0 (map square (map (fun p => (fst p - snd p)%num) (combine u v))) = 0 ->
  v = u.
Proof.
  revert v; induction u as [|x u IH]; intros [|w v] Hlen Hz; try discriminate;
    [reflexivity|].
  cbn [length] in Hlen. injection Hlen as Hlen.
  cbn [combine map fold_right fst snd] in Hz.
  pose proof (sumsq_nonneg (map (fun p => (fst p - snd p)%num) (combine u v))) as Hpos.
  remember (fold_right Rplus 0
              (map square (map (fun p => (fst p - snd p)%num) (combine u v)))) as rest
    eqn:Hrest.
  unfold square in Hz. cbn [nmul nsub R_arith] in Hz.
  pose proof (Rle_0_sqr (x - w)) as Hsq. unfold Rsqr in Hsq.
  assert (Hx : (x - w) * (x - w) = 0) by lra.
  assert (Hr : rest = 0) by lra.
  f_equal.
  - destruct (Rmult_integral _ _ Hx); lra.
  - apply IH; [exact Hlen | now rewrite <- Hrest].
Qed.

Lemma sumsq_same (u : list R) :
  fold_right Rplus 0 (map square (map (fun p => (fst p - snd p)%num) (combine u u))) = 0.
Proof.
  induction u as [|x u IH]; cbn [combine map fold_right fst snd]; [reflexivity|].
  rewrite IH. unfold square. cbn [nmul nsub R_arith]. lra.
Qed.

(** One minus [sse / sst] is at most one, and one only for equal arrays. *)
Lemma r2_at_most_one (u v : list R) :
  length u = length v -> 0 < sst u ->
  (lit 1 - sum (map square (map (fun p => fst p - snd p) (combine u v))) / sst u)%num <= 1 /\
  ((lit 1 - sum (map square (map (fun p => fst p - snd p) (combine u v))) / sst u)%num = 1
   <-> v = u).
Proof.
  intros Hlen Hsst. rewrite sum_R.
  pose proof (sumsq_nonneg (map (fun p => (fst p - snd p)%num) (combine u v))) as Hpos.
  remember (fold_right Rplus 0
              (map square (map (fun p => (fst p - snd p)%num) (combine u v)))) as sse
    eqn:Hsse.
  real_arith.
  assert (Hinv : 0 < / sst u) by now apply Rinv_0_lt_compat.
  assert (Hq : 0 <= sse / sst u) by (unfold Rdiv; apply Rmult_le_pos; lra).
  split; [lra|]. split.
  - intros Hone. apply sumsq_zero; [exact Hlen|]. rewrite <- Hsse.
    assert (Hz : sse / sst u = 0) by lra.
    unfold Rdiv in Hz. apply Rmult_integral in Hz. destruct Hz; lra.
  - intros ->. rewrite sumsq_same in Hsse. subst sse. unfold Rdiv. lra.
Qed.

End DataReal.

(** X4.  Categorical data over the reals: when the limits cut the
    observations into consecutive groups, [N] times the global share of wrong
    classes is the sum over the groups of [Nj[j]] times the share of the
    group: the global value is the weighted mean of the group values. *)
Theorem wrong_share_is_weighted_mean :
  forall (Dict : Type) (uninit : R) (self : @data.t R Dict) (yl : list Z),
    data.y self = IntArray yl ->
    well_shaped self ->
    partitioned self ->
    data.N self <> 0%Z ->
    exists g gs,
      data.calc_uncertainty uninit self = Ok (g, gs) /\
      (data.of_int (data.N self) * g =
       sum (map (fun j => data.of_int (nth j (data.Nj self) 0%Z) * nth j gs 0)
                (seq 0 (data.J self))))%R.
Proof.
  intros Dict uninit self yl Hy Hws Hp HN.
  destruct (not_equal_ok (data.y_true self) (data.y self) (proj1 Hws))
    as (ne & Hne & Hlen).
  rewrite (categorical_result uninit Hy Hws Hne).
  eexists; eexists; split; [reflexivity|].
  rewrite sum_R, !of_int_R. real_arith.
  transitivity (IZR (data.count_nonzero ne)); [field; now apply not_0_IZR|].
  rewrite <- (firstn_all ne), Hlen at 1.
  destruct Hp as (Hl0 & HJ & Hgroups). rewrite <- HJ.
  rewrite (@count_nonzero_slices (lim self) ne (data.J self) Hl0)
    by (intros j Hj; destruct (Hgroups j Hj); lia).
  rewrite IZR_fold_right, map_map. f_equal.
  apply map_ext_in. intros j Hj. apply in_seq in Hj.
  rewrite nth_map_seq by lia. rewrite !of_int_R. real_arith.
  destruct (Hgroups j) as (Hpos & _); [lia|].
  field. apply not_0_IZR. lia.
Qed.

Lemma wrong_share_is_weighted_mean_witness :
  exists g gs,
    data.calc_uncertainty 0%R
      (data.init (scalar 0%R) (IntArray [1; 0; 1; 1]%Z) tt (IntArray [1; 1; 1; 0]%Z)
                 [1; 3]%Z [0; 1; 4]%nat [0; 1; 1; 1]%nat tt) = Ok (g, gs) /\
    (data.of_int 4 * g =
     sum (map (fun j => data.of_int (nth j [1; 3]%Z 0%Z) * nth j gs 0) (seq 0 2)))%R.
Proof.
  apply (@wrong_share_is_weighted_mean unit 0%R
           (data.init (scalar 0%R) (IntArray [1; 0; 1; 1]%Z) tt (IntArray [1; 1; 1; 0]%Z)
                      [1; 3]%Z [0; 1; 4]%nat [0; 1; 1; 1]%nat tt) [1; 0; 1; 1]%Z).
  - reflexivity.
  - repeat split.
  - split; [reflexivity|]. split; [reflexivity|].
    intros [|[|j]] Hj; simpl in *; lia.
  - vm_compute. discriminate.
Defined.

(** X5.  Categorical data over the reals: when the limits cut the
    observations into consecutive groups and [N] is the positive number of
    observations, the global share of wrong classes and the share of every
    group lie between 0 and 1. *)
Theorem wrong_share_bounds :
  forall (Dict : Type) (uninit : R) (self : @data.t R Dict) (yl : list Z),
    data.y self = IntArray yl ->
    well_shaped self ->
    partitioned self ->
    data.N self = Z.of_nat (length yl) ->
    yl <> [] ->
    exists g gs,
      data.calc_uncertainty uninit self = Ok (g, gs) /\
      (0 <= g <= 1)%R /\ Forall (fun u => 0 <= u <= 1)%R gs.
Proof.
  intros Dict uninit self yl Hy Hws Hp HN Hyl.
  destruct (not_equal_ok (data.y_true self) (data.y self) (proj1 Hws))
    as (ne & Hne & Hlen).
  rewrite (categorical_result uninit Hy Hws Hne).
  eexists; eexists; split; [reflexivity|].
  rewrite Hy in Hlen. simpl in Hlen.
  split.
  - rewrite !of_int_R. apply share_bounds.
    + pose proof (count_nonzero_bounds ne). lia.
    + destruct yl; [congruence|simpl in HN; lia].
  - apply Forall_forall. intros u Hu. apply in_map_iff in Hu.
    destruct Hu as (j & <- & Hj). apply in_seq in Hj.
    destruct Hp as (_ & _ & Hgroups). destruct (Hgroups j) as (Hpos & Hstep); [lia|].
    rewrite !of_int_R. apply share_bounds; [|exact Hpos].
    pose proof (count_nonzero_bounds (data.slice ne (lim self j) (lim self (S j)))) as Hc.
    rewrite slice_length in Hc. lia.
Qed.

Lemma wrong_share_bounds_witness :
  exists g gs,
    data.calc_uncertainty 0%R
      (data.init (scalar 0%R) (IntArray [1; 0; 1; 1]%Z) tt (IntArray [1; 1; 1; 0]%Z)
                 [1; 3]%Z [0; 1; 4]%nat [0; 1; 1; 1]%nat tt) = Ok (g, gs) /\
    (0 <= g <= 1)%R /\ Forall (fun u => 0 <= u <= 1)%R gs.
Proof.
  apply (@wrong_share_bounds unit 0%R
           (data.init (scalar 0%R) (IntArray [1; 0; 1; 1]%Z) tt (IntArray [1; 1; 1; 0]%Z)
                      [1; 3]%Z [0; 1; 4]%nat [0; 1; 1; 1]%nat tt) [1; 0; 1; 1]%Z).
  - reflexivity.
  - repeat split.
  - split; [reflexivity|]. split; [reflexivity|].
    intros [|[|j]] Hj; simpl in *; lia.
  - reflexivity.
  - discriminate.
Defined.

(** X6.  Continuous data over the reals: when the total sum of squares of
    [y] and of every group is positive, the global R squared and that of
    every group are at most 1, and a value is 1 exactly when [y_true]
    equals [y] on the observations it covers. *)
Theorem r_squared_at_most_one :
  forall (Dict : Type) (uninit : R) (self : @data.t R Dict) (yl : list R),
    data.y self = FloatArray yl ->
    well_shaped self ->
    (0 < sst yl)%R ->
    (forall j, (j < data.J self)%nat ->
               (0 < sst (data.slice yl (lim self j) (lim self (S j))))%R) ->
    exists g gs,
      data.calc_uncertainty uninit self = Ok (g, gs) /\
      length gs = data.J self /\
      (g <= 1)%R /\
      (g = 1%R <-> data.as_float (data.y_true self) = yl) /\
      forall j, (j < data.J self)%nat ->
        (nth j gs 0 <= 1)%R /\
        (nth j gs 0%R = 1%R <->
         data.slice (data.as_float (data.y_true self)) (lim self j) (lim self (S j)) =
         data.slice yl (lim self j) (lim self (S j))).
Proof.
  intros Dict uninit self yl Hy Hws Hsst Hgroups.
  rewrite (continuous_result uninit Hy Hws).
  eexists; eexists; split; [reflexivity|].
  destruct Hws as (Hlen & _ & _).
  assert (Hl : length yl = length (data.as_float (data.y_true self)))
    by (rewrite as_float_length, Hlen, Hy; reflexivity).
  split; [now rewrite length_map, length_seq|].
  destruct (@r2_at_most_one yl (data.as_float (data.y_true self)) Hl Hsst) as [Hle Hiff].
  split; [exact Hle|]. split; [exact Hiff|].
  intros j Hj. rewrite nth_map_seq by exact Hj.
  apply (@r2_at_most_one (data.slice yl (lim self j) (lim self (S j)))
           (data.slice (data.as_float (data.y_true self)) (lim self j) (lim self (S j))));
    [|now apply Hgroups].
  now rewrite !slice_length, Hl.
Qed.

Lemma r_squared_at_most_one_witness :
  exists g gs,
    data.calc_uncertainty 0%R
      (data.init (scalar 0%R) (FloatArray [0; 2]%R) tt (FloatArray [0; 1]%R)
                 [2]%Z [0; 2]%nat [0; 0]%nat tt) = Ok (g, gs) /\
    length gs = 1%nat /\
    (g <= 1)%R /\
    (g = 1%R <-> [0; 1]%R = [0; 2]%R) /\
    forall j, (j < 1)%nat ->
      (nth j gs 0 <= 1)%R /\
      (nth j gs 0%R = 1%R <->
       data.slice [0; 1]%R (nth j [0; 2]%nat 0%nat) (nth (S j) [0; 2]%nat 0%nat) =
       data.slice [0; 2]%R (nth j [0; 2]%nat 0%nat) (nth (S j) [0; 2]%nat 0%nat)).
Proof.
  assert (Hsst : (0 < sst [0; 2]%R)%R).
  { unfold sst, data.mean, data.of_int, square. simpl.
    unfold Q2R. simpl. lra. }
  apply (@r_squared_at_most_one unit 0%R
           (data.init (scalar 0%R) (FloatArray [0; 2]%R) tt (FloatArray [0; 1]%R)
                      [2]%Z [0; 2]%nat [0; 0]%nat tt) [0; 2]%R).
  - reflexivity.
  - repeat split.
  - exact Hsst.
  - intros [|j] Hj; [exact Hsst|simpl in Hj; lia].
Defined.

(** X7.  Continuous data over the reals: predicting the mean of [y] for
    every observation gives a global R squared of 0, when the total sum of
    squares is not 0. *)
Theorem r_squared_of_mean_is_zero :
  forall (Dict : Type) (uninit : R) (self : @data.t R Dict) (yl : list R),
    data.y self = FloatArray yl ->
    data.y_true self = FloatArray (repeat (data.mean yl) (length yl)) ->
    length (data.j_lim self) = S (data.J self) ->
    length (data.Nj self) = data.J self ->
    sst yl <> 0%R ->
    exists gs, data.calc_uncertainty uninit self = Ok (0%R, gs).
Proof.
  intros Dict uninit self yl Hy Hyt Hlim HNj Hsst.
  assert (Hws : well_shaped self).
  { split; [|split; assumption]. rewrite Hy, Hyt. simpl. apply repeat_length. }
  rewrite (continuous_result uninit Hy Hws). rewrite Hyt.
  eexists. f_equal. f_equal.
  cbn [data.as_float].
  assert (Hsse : forall (m : R) (l : list R),
             map square (map (fun p : R * R => (fst p - snd p)%num)
                             (combine l (repeat m (length l)))) =
             map (fun v => square (v - m)%num) l).
  { intros m l. induction l as [|x l IH]; cbn [length repeat combine map fst snd];
      [reflexivity|]. now rewrite IH. }
  rewrite Hsse. fold (sst yl). real_arith. field. exact Hsst.
Qed.

Lemma r_squared_of_mean_is_zero_witness :
  exists gs,
    data.calc_uncertainty 0%R
      (data.init (scalar 0%R) (FloatArray [0; 2]%R) tt
                 (FloatArray (repeat (data.mean [0; 2]%R) 2))
                 [2]%Z [0; 2]%nat [0; 0]%nat tt) = Ok (0%R, gs).
Proof.
  apply (@r_squared_of_mean_is_zero unit 0%R
           (data.init (scalar 0%R) (FloatArray [0; 2]%R) tt
                      (FloatArray (repeat (data.mean [0; 2]%R) 2))
                      [2]%Z [0; 2]%nat [0; 0]%nat tt) [0; 2]%R).
  - reflexivity.
  - reflexivity.
  - reflexivity.
  - reflexivity.
  - unfold sst, data.mean, data.of_int, square. simpl.
    unfold Q2R. simpl. lra.
Defined.

(** ** What the routines leave of freshly allocated storage *)

Section VineAnyArithmetic.
Context {T : Type} `{Arith T}.
Local Open Scope num_scope.

Lemma mget_ix_any (C : mat T) (perm : list nat) (a b : nat) :
  (a < length perm)%nat -> (b < length perm)%nat ->
  mget (ix_ C perm) a b = mget C (nth a perm 0%nat) (nth b perm 0%nat).
Proof.
  intros Ha Hb. unfold ix_, mget at 1.
  rewrite (nth_indep _ [] (map (fun b => mget C 0 b) perm))
    by now rewrite length_map.
  rewrite (map_nth (fun a => map (fun b => mget C a b) perm) perm 0%nat a).
  rewrite (nth_indep _ (lit 0) (mget C (nth a perm 0%nat) 0))
    by now rewrite length_map.
  apply (map_nth (fun b => mget C (nth a perm 0%nat) b)).
Qed.

Lemma square_mat_ix_any (C : mat T) (perm : list nat) :
  square_mat (length perm) (ix_ C perm).
Proof.
  unfold ix_; split.
  - now rewrite length_map.
  - intros a Ha.
    rewrite (nth_indep _ [] (map (fun b => mget C 0 b) perm))
      by now rewrite length_map.
    rewrite (map_nth (fun a => map (fun b => mget C a b) perm) perm 0%nat a).
    now rewrite length_map.
Qed.

(** The output array before the permutation: the diagonal of [np.eye]
    and, on both sides of it, the value combined for the pair. *)
Lemma vine_C_entries (u pmin pmax : T) (d : nat) (draws : list T) :
  let P := init_P u d (partial_correlations pmin pmax draws) in
  let C := vC (vine_state_of u d pmin pmax draws) in
  (forall x, (x < d)%nat -> mget C x x = lit 1) /\
  (forall x y, (x < y)%nat -> (y < d)%nat ->
     mget C x y = combine_k P x y (mget P x y) /\
     mget C y x = combine_k P x y (mget P x y)) /\
  (forall x y, mget C x y = if written (loop_pairs d) x y then combined P x y
                            else mget (eye d) x y).
Proof.
  intros P C.
  destruct (@vine_loop_spec T _ d (mk_vine P (eye d))) as (_ & _ & HC).
  { simpl. apply square_mat_eye. }
  simpl in HC. fold (vine_state_of u d pmin pmax draws) in HC. fold C in HC.
  split; [|split; [|exact HC]].
  - intros x Hx. rewrite HC.
    destruct (written (loop_pairs d) x x) eqn:Hw.
    + apply written_loop_pairs in Hw. lia.
    + now rewrite mget_eye, Nat.eqb_refl by auto.
  - intros x y Hx Hy. split.
    + rewrite HC.
      replace (written (loop_pairs d) x y) with true
        by (symmetry; apply written_loop_pairs; lia).
      unfold combined. destruct (Nat.ltb_spec x y); [reflexivity|lia].
    + rewrite HC.
      replace (written (loop_pairs d) y x) with true
        by (symmetry; apply written_loop_pairs; lia).
      unfold combined. destruct (Nat.ltb_spec y x); [lia|reflexivity].
Qed.

(** Off the diagonal [P] holds the partial correlations and their squares,
    whatever [np.empty] held. *)
Lemma init_P_off_diagonal (u1 u2 : T) (d : nat) (betas : list T) (a b : nat) :
  length betas = length (triu_indices d) ->
  a <> b -> (a < d)%nat -> (b < d)%nat ->
  mget (init_P u1 d betas) a b = mget (init_P u2 d betas) a b.
Proof.
  intros Hlen Hab Ha Hb.
  destruct (init_P_spec u1 d betas Hlen) as (_ & Hget1 & Hlow1).
  destruct (init_P_spec u2 d betas Hlen) as (_ & Hget2 & Hlow2).
  assert (Hup : forall x y, (x < y)%nat -> (y < d)%nat ->
            mget (init_P u1 d betas) x y = mget (init_P u2 d betas) x y).
  { intros x y Hx Hy.
    assert (Hin : In (x, y) (triu_indices d)) by (apply in_triu_indices; lia).
    destruct (In_nth _ _ (0, 0)%nat Hin) as (t & Ht & Hnth).
    rewrite <- Hlen in Ht.
    specialize (Hget1 t (lit 0) Ht). specialize (Hget2 t (lit 0) Ht).
    rewrite Hnth in Hget1, Hget2. simpl in Hget1, Hget2. congruence. }
  destruct (Nat.lt_trichotomy a b) as [Hlt|[Heq|Hgt]]; [now apply Hup|lia|].
  destruct (Hlow1 b a Hgt Ha) as (_ & ->).
  destruct (Hlow2 b a Hgt Ha) as (_ & ->).
  f_equal. now apply Hup.
Qed.

Lemma combined_off_diagonal (u1 u2 : T) (d : nat) (betas : list T) (x y : nat) :
  length betas = length (triu_indices d) ->
  (x < y)%nat -> (y < d)%nat ->
  combine_k (init_P u1 d betas) x y (mget (init_P u1 d betas) x y) =
  combine_k (init_P u2 d betas) x y (mget (init_P u2 d betas) x y).
Proof.
  intros Hlen Hx Hy. unfold combine_k.
  rewrite (@init_P_off_diagonal u1 u2 d betas x y) by (auto; lia).
  apply fold_left_ext_in. intros k Hk cur.
  apply in_rev, in_seq in Hk.
  rewrite (@init_P_off_diagonal u1 u2 d betas x k) by (auto; lia).
  rewrite (@init_P_off_diagonal u1 u2 d betas y k) by (auto; lia).
  rewrite (@init_P_off_diagonal u1 u2 d betas k x) by (auto; lia).
  rewrite (@init_P_off_diagonal u1 u2 d betas k y) by (auto; lia).
  reflexivity.
Qed.

End VineAnyArithmetic.

(** X8.  In float64 as in every arithmetic, for every [d] and whatever
    the partial correlations are, the array that [rand_corr_vine] returns
    is [d] x [d], exactly symmetric, and has exactly 1 on its diagonal. *)
Theorem rand_corr_vine_exactly_symmetric :
  forall (T : Type) (A : Arith T) (u : T) (G : generator T) (d : nat)
         (alpha beta pmin pmax : T) (seed : seed_arg (rstate G)),
    (forall s, Permutation (fst (permutation G s d)) (seq 0 d)) ->
    let C := rand_corr_vine u G d alpha beta pmin pmax seed in
    square_mat d C /\
    forall a b, (a < d)%nat -> (b < d)%nat ->
      mget C a b = mget C b a /\ mget C a a = lit 1.
Proof.
  intros T A u G d alpha beta pmin pmax seed Hperm C.
  unfold rand_corr_vine in C.
  set (rs0 := match seed with SeedState s => s | SeedValue n => RandomState G n end) in *.
  destruct (beta_sample G rs0 alpha beta (length (triu_indices d))) as [draws rs].
  specialize (Hperm rs).
  destruct (permutation G rs d) as [perm rs']. simpl in Hperm.
  assert (Hlen : length perm = d).
  { rewrite (Permutation_length Hperm). apply length_seq. }
  assert (Hrange : forall a, (a < d)%nat -> (nth a perm 0 < d)%nat).
  { intros a Ha.
    assert (Hin : In (nth a perm 0%nat) (seq 0 d)).
    { apply (Permutation_in _ Hperm), nth_In. lia. }
    apply in_seq in Hin. lia. }
  destruct (vine_C_entries u pmin pmax d draws) as (Hdiag & Hval & _).
  subst C. split.
  - rewrite <- Hlen. apply square_mat_ix_any.
  - intros a b Ha Hb. rewrite !mget_ix_any by lia. split.
    + destruct (Nat.lt_trichotomy (nth a perm 0%nat) (nth b perm 0%nat)) as [Hlt|[Heq|Hgt]].
      * destruct (Hval _ _ Hlt (Hrange b Hb)) as (-> & ->). reflexivity.
      * now rewrite Heq.
      * destruct (Hval _ _ Hgt (Hrange a Ha)) as (-> & ->). reflexivity.
    + apply Hdiag. now apply Hrange.
Qed.

Lemma rand_corr_vine_exactly_symmetric_witness :
  let C := rand_corr_vine (fl 0) (constant_generator (fl 0.5)) 3 (fl 2) (fl 2)
             (fl (-0.8)) (fl 0.8) (SeedValue None) in
  square_mat 3 C /\
  forall a b, (a < 3)%nat -> (b < 3)%nat ->
    mget C a b = mget C b a /\ mget C a a = fl 1.
Proof.
  apply (@rand_corr_vine_exactly_symmetric binary64 _ (fl 0) (constant_generator (fl 0.5)) 3
           (fl 2) (fl 2) (fl (-0.8)) (fl 0.8) (SeedValue None)).
  intros s. simpl. apply Permutation_sym, (Permutation_rev [0; 1; 2]%nat).
Defined.

(** X9.  [rand_corr_vine] never reads the entries of [P] that it leaves
    as [np.empty] allocated them: when the generator returns as many draws
    as requested, the result does not depend on what that storage held. *)
Theorem rand_corr_vine_ignores_uninitialised :
  forall (T : Type) (A : Arith T) (u1 u2 : T) (G : generator T) (d : nat)
         (alpha beta pmin pmax : T) (seed : seed_arg (rstate G)),
    (forall s a b n, length (fst (beta_sample G s a b n)) = n) ->
    rand_corr_vine u1 G d alpha beta pmin pmax seed =
    rand_corr_vine u2 G d alpha beta pmin pmax seed.
Proof.
  intros T A u1 u2 G d alpha beta pmin pmax seed Hsize.
  unfold rand_corr_vine.
  set (rs0 := match seed with SeedState s => s | SeedValue n => RandomState G n end).
  specialize (Hsize rs0 alpha beta (length (triu_indices d))).
  destruct (beta_sample G rs0 alpha beta (length (triu_indices d))) as [draws rs].
  simpl in Hsize.
  destruct (permutation G rs d) as [perm rs'].
  assert (Hp : length (partial_correlations pmin pmax draws) = length (triu_indices d)).
  { unfold partial_correlations. now rewrite length_map. }
  destruct (vine_C_entries u1 pmin pmax d draws) as (_ & _ & HC1).
  destruct (vine_C_entries u2 pmin pmax d draws) as (_ & _ & HC2).
  unfold ix_. apply map_ext. intros a. apply map_ext. intros b.
  rewrite HC1, HC2.
  destruct (written (loop_pairs d) a b) eqn:Hw; [|reflexivity].
  apply written_loop_pairs in Hw. unfold combined.
  destruct (Nat.ltb_spec a b); apply combined_off_diagonal; auto; lia.
Qed.

Lemma rand_corr_vine_ignores_uninitialised_witness :
  rand_corr_vine (fl 0) (constant_generator (fl 0.5)) 3 (fl 2) (fl 2)
    (fl (-0.8)) (fl 0.8) (SeedValue None) =
  rand_corr_vine (fl 7) (constant_generator (fl 0.5)) 3 (fl 2) (fl 2)
    (fl (-0.8)) (fl 0.8) (SeedValue None).
Proof.
  apply (@rand_corr_vine_ignores_uninitialised binary64 _ (fl 0) (fl 7)
           (constant_generator (fl 0.5)) 3 (fl 2) (fl 2) (fl (-0.8)) (fl 0.8)
           (SeedValue None)).
  intros s a b n. simpl. apply repeat_length.
Defined.

Section LoopsAndStorage.
Context {T : Type} `{Arith T}.
Local Open Scope num_scope.

(** The loop of [calc_uncertainty] overwrites every entry of the array
    it allocated, or stops at an error. *)
Lemma fill_groups_uninit (u1 u2 : T) (J : nat) (entry : nat -> result T) :
  data.fill_groups u1 J entry = data.fill_groups u2 J entry.
Proof.
  unfold data.fill_groups.
  assert (Hinv : forall k, (k <= J)%nat ->
    (exists pre, length pre = k /\
       forall u, for_each (seq 0 k) (fun j ug => do x <- entry j; Ok (upd ug j x))
                   (repeat u J) = Ok (pre ++ repeat u (J - k))) \/
    (exists e,
       forall u, for_each (seq 0 k) (fun j ug => do x <- entry j; Ok (upd ug j x))
                   (repeat u J) = Err e)).
  { induction k as [|k IH]; intros Hk.
    - left. exists []. split; [reflexivity|]. intros u. simpl. now rewrite Nat.sub_0_r.
    - destruct IH as [(pre & Hlen & Hpre)|(e & He)]; [lia| |].
      + destruct (entry k) as [x|e] eqn:Hx.
        * left. exists (pre ++ [x]). split; [rewrite length_app; simpl; lia|].
          intros u. rewrite seq_S, for_each_app, Hpre. simpl. rewrite Hx. simpl.
          rewrite (repeat_S_sub _ (J := J) (k := k)) by lia.
          rewrite upd_app_at by exact Hlen.
          now rewrite <- app_assoc.
        * right. exists e. intros u.
          rewrite seq_S, for_each_app, Hpre. simpl. now rewrite Hx.
      + right. exists e. intros u. now rewrite seq_S, for_each_app, He. }
  destruct (Hinv J) as [(pre & _ & Hpre)|(e & He)]; [lia| |].
  - now rewrite !Hpre, Nat.sub_diag.
  - now rewrite !He.
Qed.

Variables erfinv logit : T -> T.

(** The per-group loops of [calc_input_param_classification] overwrite
    every entry of the [sigma_x] they allocated, or stop at an error. *)
Lemma group_loop_uninit (u1 u2 : T) (J : nat) (gA gD gSb gSsb : nat -> result T) :
  (do st <- for_each (seq 0 J)
       (fun j st =>
          do alpha_j <- gA j;
          group_body erfinv logit j alpha_j (gD j) (gSb j) (gSsb j) st)
       (repeat (lit 0) J, repeat u1 J);
   Ok (vector (fst st), vector (snd st))) =
  (do st <- for_each (seq 0 J)
       (fun j st =>
          do alpha_j <- gA j;
          group_body erfinv logit j alpha_j (gD j) (gSb j) (gSsb j) st)
       (repeat (lit 0) J, repeat u2 J);
   Ok (vector (fst st), vector (snd st))).
Proof.
  assert (Hinv : forall k, (k <= J)%nat ->
    (exists m s, length m = J /\ length s = k /\
       forall u, for_each (seq 0 k)
                   (fun j st =>
                      do alpha_j <- gA j;
                      group_body erfinv logit j alpha_j (gD j) (gSb j) (gSsb j) st)
                   (repeat (lit 0) J, repeat u J) = Ok (m, s ++ repeat u (J - k))) \/
    (exists e,
       forall u, for_each (seq 0 k)
                   (fun j st =>
                      do alpha_j <- gA j;
                      group_body erfinv logit j alpha_j (gD j) (gSb j) (gSsb j) st)
                   (repeat (lit 0) J, repeat u J) = Err e)).
  { induction k as [|k IH]; intros Hk.
    - left. exists (repeat (lit 0) J), []. split; [apply repeat_length|].
      split; [reflexivity|]. intros u. simpl. now rewrite Nat.sub_0_r.
    - destruct IH as [(m & s & Hm & Hs & Hpre)|(e & He)]; [lia| |].
      + destruct (gA k) as [a|e] eqn:Ha.
        2:{ right. exists e. intros u.
            rewrite seq_S, for_each_app, Hpre. simpl. now rewrite Ha. }
        unfold group_body.
        destruct (nlt (nabs a) (DELTA_MAX erfinv logit)) eqn:Hlt.
        * destruct (gD k) as [dv|e] eqn:Hd.
          -- left. exists m, (s ++ [(LOGITP0 logit + nabs a) / dv]).
             split; [exact Hm|]. split; [rewrite length_app; simpl; lia|].
             intros u. rewrite seq_S, for_each_app, Hpre. simpl.
             rewrite Ha. simpl. rewrite Hlt, Hd. simpl.
             rewrite (repeat_S_sub _ (J := J) (k := k)) by lia.
             rewrite upd_app_at by exact Hs.
             now rewrite <- app_assoc.
          -- right. exists e. intros u.
             rewrite seq_S, for_each_app, Hpre. simpl.
             rewrite Ha. simpl. now rewrite Hlt, Hd.
        * destruct (gSb k) as [sb|e] eqn:Hsb.
          2:{ right. exists e. intros u.
              rewrite seq_S, for_each_app, Hpre. simpl.
              rewrite Ha. simpl. now rewrite Hlt, Hsb. }
          destruct (gSsb k) as [ssb|e] eqn:Hssb.
          -- left. exists (upd m k (shift erfinv logit a sb)), (s ++ [SIGMA_F0 / ssb]).
             split; [now rewrite upd_length|].
             split; [rewrite length_app; simpl; lia|].
             intros u. rewrite seq_S, for_each_app, Hpre. simpl.
             rewrite Ha. simpl. rewrite Hlt, Hsb. simpl. rewrite Hssb. simpl.
             rewrite (repeat_S_sub _ (J := J) (k := k)) by lia.
             rewrite upd_app_at by exact Hs.
             now rewrite <- app_assoc.
          -- right. exists e. intros u.
             rewrite seq_S, for_each_app, Hpre. simpl.
             rewrite Ha. simpl. rewrite Hlt, Hsb. simpl. now rewrite Hssb.
      + right. exists e. intros u. now rewrite seq_S, for_each_app, He. }
  destruct (Hinv J) as [(m & s & _ & _ & Hpre)|(e & He)]; [lia| |].
  - now rewrite !Hpre, Nat.sub_diag.
  - now rewrite !He.
Qed.

End LoopsAndStorage.

(** X10.  [calc_uncertainty] overwrites every entry of the
    [uncertainty_group] array it allocates with [np.empty]: what it returns,
    a result or an error, does not depend on what that storage held. *)
Theorem calc_uncertainty_ignores_uninitialised :
  forall (T : Type) (A : Arith T) (C : Compare T) (Dict : Type) (u1 u2 : T)
         (self : @data.t T Dict),
    data.calc_uncertainty u1 self = data.calc_uncertainty u2 self.
Proof.
  intros T A C Dict u1 u2 self. unfold data.calc_uncertainty.
  destruct (data.y self) as [yl|yl].
  - destruct (data.wrong_share (data.y_true self) (IntArray yl) (data.N self));
      [|reflexivity].
    cbn [bind]. now rewrite (fill_groups_uninit u1 u2).
  - destruct (data.r_squared yl (data.as_float (data.y_true self))); [|reflexivity].
    cbn [bind]. now rewrite (fill_groups_uninit u1 u2).
Qed.

(** X11.  [calc_input_param_classification] overwrites every entry of the
    [sigma_x] array it allocates with [np.empty]: what it returns, a result
    or an error, does not depend on what that storage held. *)
Theorem classification_ignores_uninitialised :
  forall (T : Type) (A : Arith T) (erfinv logit : T -> T) (u1 u2 : T)
         (alpha beta : ndarray T) (Sigma_x : option (ndarray T)),
    calc_input_param_classification erfinv logit u1 alpha beta Sigma_x =
    calc_input_param_classification erfinv logit u2 alpha beta Sigma_x.
Proof.
  intros T A erfinv logit u1 u2 alpha beta Sigma_x.
  unfold calc_input_param_classification.
  destruct ((1 <? ndim alpha)%nat || (2 <? ndim beta)%nat); [reflexivity|].
  destruct (group_count alpha beta) as [J so].
  destruct (sigma_low_dim beta Sigma_x); [reflexivity|].
  destruct (J =? 1)%nat; [reflexivity|].
  unfold multi_group.
  set (al := squeeze alpha).
  set (be := if (ndim (if (ndim beta =? 2)%nat && (shape0 beta =? 1)%nat
                       then index0 beta else beta) =? 0)%nat
             then newaxis (if (ndim beta =? 2)%nat && (shape0 beta =? 1)%nat
                           then index0 beta else beta)
             else (if (ndim beta =? 2)%nat && (shape0 beta =? 1)%nat
                   then index0 beta else beta)).
  destruct (ndim al =? 0)%nat; [reflexivity|].
  destruct (ndim be =? 1)%nat.
  - unfold common_beta.
    destruct (if negb (shape0 be =? 1)%nat
              then do q <- sumsq_vec be Sigma_x; Ok (scalar (nsqrt q))
              else Ok (map_array nabs be)) as [ssbeta|e]; [|reflexivity].
    cbn [bind]. apply group_loop_uninit.
  - unfold both_varying.
    destruct (match nth_error (shape be) 1 with
              | Some D =>
                  if negb (D =? 1)%nat
                  then do q <- sumsq_last be Sigma_x; Ok (map_array nsqrt q)
                  else Ok (map_array nabs (col0 be))
              | None => Err IndexError
              end) as [ssbeta|e]; [|reflexivity].
    cbn [bind]. apply group_loop_uninit.
Qed.

(** X12.  Continuous data: when [y] and [y_true] differ in length and
    neither holds exactly one value, [calc_uncertainty] fails with the
    [ValueError] of the subtraction [y - y_true] and returns nothing,
    whatever the limits are. *)
Theorem calc_uncertainty_length_mismatch :
  forall (T : Type) (A : Arith T) (C : Compare T) (Dict : Type) (uninit : T)
         (self : @data.t T Dict) (yl : list T),
    data.y self = FloatArray yl ->
    length yl <> data.ylength (data.y_true self) ->
    length yl <> 1%nat ->
    data.ylength (data.y_true self) <> 1%nat ->
    exists msg, data.calc_uncertainty uninit self = Err (ValueError msg).
Proof.
  intros T A C Dict uninit self yl Hy Hne Hy1 Ht1.
  exists msg_broadcast.
  unfold data.calc_uncertainty. rewrite Hy. cbv iota.
  unfold data.r_squared, data.broadcast2.
  rewrite <- (as_float_length (data.y_true self)) in Hne, Ht1.
  destruct yl as [|x [|x' yl]]; [|now elim Hy1|];
    (destruct (data.as_float (data.y_true self)) as [|w [|w' v]];
     [|now elim Ht1|]);
    try (now elim Hne);
    try (rewrite (proj2 (Nat.eqb_neq _ _) Hne)); reflexivity.
Qed.

Lemma calc_uncertainty_length_mismatch_witness :
  exists msg,
    data.calc_uncertainty (fl 0)
      (data.init (scalar (fl 0)) (FloatArray [fl 1; fl 2; fl 3]) tt
                 (FloatArray [fl 1; fl 2]) [3]%Z [0; 3]%nat [0; 0; 0]%nat tt)
    = Err (ValueError msg).
Proof.
  apply (@calc_uncertainty_length_mismatch binary64 _ _ unit (fl 0)
           (data.init (scalar (fl 0)) (FloatArray [fl 1; fl 2; fl 3]) tt
                      (FloatArray [fl 1; fl 2]) [3]%Z [0; 3]%nat [0; 0; 0]%nat tt)
           [fl 1; fl 2; fl 3]).
  - reflexivity.
  - simpl. lia.
  - simpl. lia.
  - simpl. lia.
Defined.

(** ** Classification: what the single group is given *)

Section SingleGroupValues.
Local Open Scope R_scope.
Variables erfinv logit : R -> R.
Variable uninit : R.

(** The two results of the single-group call, on each branch. *)
Lemma single_group_values (a : R) (beta : ndarray R) (Sigma_x : option (ndarray R)) :
  (ndim beta <= 1)%nat -> wf beta ->
  sigma_low_dim beta Sigma_x = false -> sigma_typed beta Sigma_x ->
  calc_input_param_classification erfinv logit uninit (scalar a) beta Sigma_x =
  Ok (if Rltb (Rabs a) (DELTA_MAX erfinv logit)
      then (scalar 0,
            scalar ((LOGITP0 logit + Rabs a) /
                    (ERFINVGAMMA0 erfinv * (sqrt 2 * slope_magnitude beta Sigma_x))))
      else (scalar (if Rltb 0 a
                    then (DELTA_MAX erfinv logit - a) / sum (data beta)
                    else (- DELTA_MAX erfinv logit - a) / sum (data beta)),
            scalar (SIGMA_F0 / slope_magnitude beta Sigma_x))).
Proof.
  intros Hnd Hw Hlow Htyped.
  rewrite scalar_alpha_single by assumption.
  destruct (@single_group_ssbeta beta Sigma_x Hnd Hw Hlow Htyped) as [Hs1 Hs2].
  unfold single_group. rewrite Hs1, Hs2.
  change (item (squeeze (scalar a))) with a.
  change (data (squeeze beta)) with (data beta).
  cbn [nlt nabs R_arith].
  destruct (Rltb (Rabs a) (DELTA_MAX erfinv logit)); cbn [bind fst snd].
  - real_arith. reflexivity.
  - unfold shift. real_arith.
    destruct (Rltb 0 a); reflexivity.
Qed.

Lemma DELTA_MAX_sum :
  LOGITP0 logit + DELTA_MAX erfinv logit = sqrt 2 * SIGMA_F0 * ERFINVGAMMA0 erfinv.
Proof. unfold DELTA_MAX. real_arith. lra. Qed.

End SingleGroupValues.

(** X13.  One group over the reals, on the mean adjustment branch
    ([|alpha| >= DELTA_MAX]) with slopes whose sum is not 0: the returned
    [mu_x] puts the linear predictor at the mean, [alpha + sum(beta) * mu_x],
    at [DELTA_MAX] when [alpha > 0] and at [-DELTA_MAX] otherwise. *)
Theorem mean_shift_recenters :
  forall (erfinv logit : R -> R) (uninit a : R)
         (beta : ndarray R) (Sigma_x : option (ndarray R)),
    (ndim beta <= 1)%nat -> wf beta ->
    sigma_low_dim beta Sigma_x = false -> sigma_typed beta Sigma_x ->
    (DELTA_MAX erfinv logit <= Rabs a)%R ->
    sum (data beta) <> 0%R ->
    exists mu_x sigma_x,
      calc_input_param_classification erfinv logit uninit (scalar a) beta Sigma_x =
      Ok (scalar mu_x, scalar sigma_x) /\
      (0 < a -> a + sum (data beta) * mu_x = DELTA_MAX erfinv logit)%R /\
      (a <= 0 -> a + sum (data beta) * mu_x = - DELTA_MAX erfinv logit)%R.
Proof.
  intros erfinv logit uninit a beta Sigma_x Hnd Hw Hlow Htyped Hbig Hsum.
  rewrite single_group_values by assumption.
  rewrite (proj2 (Rltb_false _ _) Hbig).
  eexists; eexists; split; [reflexivity|]. split; intros Ha.
  - rewrite (proj2 (Rltb_true _ _) Ha). field. exact Hsum.
  - rewrite (proj2 (Rltb_false _ _) Ha). field. exact Hsum.
Qed.

Lemma mean_shift_recenters_witness :
  exists mu_x sigma_x,
    calc_input_param_classification (fun _ => - 1)%R (fun _ => - 1)%R 0%R
      (scalar 3%R) (vector [2%R; 1%R]) None = Ok (scalar mu_x, scalar sigma_x) /\
    (0 < 3 -> 3 + sum [2; 1] * mu_x = DELTA_MAX (fun _ => - 1) (fun _ => - 1))%R /\
    (3 <= 0 -> 3 + sum [2; 1] * mu_x = - DELTA_MAX (fun _ => - 1) (fun _ => - 1))%R.
Proof.
  assert (Hs2 : (1 < sqrt 2 < 2)%R).
  { split.
    - rewrite <- sqrt_1 at 1. apply sqrt_lt_1; lra.
    - replace 2%R with (sqrt 4) at 2
        by (replace 4%R with (2 * 2)%R by lra; apply sqrt_square; lra).
      apply sqrt_lt_1; lra. }
  apply (@mean_shift_recenters (fun _ => - 1)%R (fun _ => - 1)%R 0%R 3%R
           (vector [2%R; 1%R]) None).
  - unfold ndim. simpl. lia.
  - reflexivity.
  - reflexivity.
  - exact I.
  - unfold DELTA_MAX, SIGMA_F0, ERFINVGAMMA0, LOGITP0. real_arith.
    cbn [lit R_arith]. unfold Q2R. simpl. rewrite Rabs_right by lra. lra.
  - simpl. lra.
Defined.

(** X14.  One group over the reals, with [ERFINVGAMMA0 < 0] as for the
    inverse error function and a positive slope magnitude [s]: the standard
    deviation of the linear predictor, [s * sigma_x], is
    [(LOGITP0 + min(|alpha|, DELTA_MAX)) / (ERFINVGAMMA0 * sqrt 2)] on both
    branches; it is at least [SIGMA_F0], and [SIGMA_F0] on the mean
    adjustment branch. *)
Theorem predictor_deviation_at_least_minimum :
  forall (erfinv logit : R -> R) (uninit a : R)
         (beta : ndarray R) (Sigma_x : option (ndarray R)),
    (ndim beta <= 1)%nat -> wf beta ->
    sigma_low_dim beta Sigma_x = false -> sigma_typed beta Sigma_x ->
    (ERFINVGAMMA0 erfinv < 0)%R ->
    (0 < slope_magnitude beta Sigma_x)%R ->
    exists mu_x sigma_x,
      calc_input_param_classification erfinv logit uninit (scalar a) beta Sigma_x =
      Ok (scalar mu_x, scalar sigma_x) /\
      (slope_magnitude beta Sigma_x * sigma_x =
       (LOGITP0 logit + Rmin (Rabs a) (DELTA_MAX erfinv logit)) /
       (ERFINVGAMMA0 erfinv * sqrt 2))%R /\
      (SIGMA_F0 <= slope_magnitude beta Sigma_x * sigma_x)%R /\
      (DELTA_MAX erfinv logit <= Rabs a ->
       slope_magnitude beta Sigma_x * sigma_x = SIGMA_F0)%R.
Proof.
  intros erfinv logit uninit a beta Sigma_x Hnd Hw Hlow Htyped HE Hs.
  rewrite single_group_values by assumption.
  pose proof (DELTA_MAX_sum erfinv logit) as HDM.
  assert (H2 : (0 < sqrt 2)%R) by (apply sqrt_lt_R0; lra).
  set (s := slope_magnitude beta Sigma_x) in *.
  set (E := ERFINVGAMMA0 erfinv) in *.
  set (L := LOGITP0 logit) in *.
  set (DM := DELTA_MAX erfinv logit) in *.
  clearbody s E L DM.
  assert (Hden : (E * sqrt 2 < 0)%R) by nra.
  assert (Hinv : (/ (E * sqrt 2) < 0)%R) by now apply Rinv_lt_0_compat.
  assert (Hmin : ((L + DM) / (E * sqrt 2) = SIGMA_F0)%R).
  { rewrite HDM. field. split; lra. }
  destruct (Rltb (Rabs a) DM) eqn:Hlt.
  - apply Rltb_true in Hlt.
    eexists; eexists; split; [reflexivity|].
    assert (Hval : (s * ((L + Rabs a) / (E * (sqrt 2 * s))) =
                    (L + Rabs a) / (E * sqrt 2))%R) by (field; repeat split; lra).
    rewrite Hval, Rmin_left by lra.
    split; [reflexivity|]. split; [|intros; lra].
    rewrite <- Hmin. unfold Rdiv.
    pose proof (Rmult_le_compat_neg_l (/ (E * sqrt 2)) (L + Rabs a) (L + DM)
                  ltac:(lra) ltac:(lra)) as Hle.
    lra.
  - apply Rltb_false in Hlt.
    eexists; eexists; split; [reflexivity|].
    assert (Hval : (s * (SIGMA_F0 / s) = SIGMA_F0)%R) by (field; lra).
    rewrite Hval, Rmin_right by lra.
    split; [now rewrite Hmin|]. split; [lra|reflexivity].
Qed.

Lemma predictor_deviation_at_least_minimum_witness :
  exists mu_x sigma_x,
    calc_input_param_classification (fun _ => - 1)%R (fun _ => - 1)%R 0%R
      (scalar 3%R) (vector [2%R; 1%R]) None = Ok (scalar mu_x, scalar sigma_x) /\
    (slope_magnitude (vector [2; 1]) None * sigma_x =
     (LOGITP0 (fun _ => - 1) + Rmin (Rabs 3) (DELTA_MAX (fun _ => - 1) (fun _ => - 1))) /
     (ERFINVGAMMA0 (fun _ => - 1) * sqrt 2))%R /\
    (SIGMA_F0 <= slope_magnitude (vector [2; 1]) None * sigma_x)%R /\
    (DELTA_MAX (fun _ => - 1) (fun _ => - 1) <= Rabs 3 ->
     slope_magnitude (vector [2; 1]) None * sigma_x = SIGMA_F0)%R.
Proof.
  apply (@predictor_deviation_at_least_minimum (fun _ => - 1)%R (fun _ => - 1)%R 0%R 3%R
           (vector [2%R; 1%R]) None).
  - unfold ndim. simpl. lia.
  - reflexivity.
  - reflexivity.
  - exact I.
  - unfold ERFINVGAMMA0. lra.
  - unfold slope_magnitude, square. simpl. apply sqrt_lt_R0. lra.
Defined.

(** ** Classification: the groups one by one *)

Section GroupByGroup.
Local Open Scope R_scope.
Variables erfinv logit : R -> R.
Variable uninit : R.

Lemma rows_last_matrix (D : nat) (bs : list (list R)) :
  (forall r, In r bs -> length r = D) ->
  rows_last (matrix (length bs) D bs) = bs.
Proof.
  intros Hrows. unfold rows_last, matrix, last_dim.
  cbn [shape data removelast last prod_shape fold_right].
  rewrite Nat.mul_1_r. now apply rows_concat.
Qed.

Lemma concat_singletons (f : R -> R) (g : list R -> R) (bs : list (list R)) :
  (forall r, In r bs -> length r = 1%nat) ->
  (forall x, g [x] = f x) ->
  map f (concat (map (firstn 1) bs)) = map g bs.
Proof.
  intros Hrows Hg. induction bs as [|r bs IH]; [reflexivity|].
  assert (Hr : length r = 1%nat) by (apply Hrows; now left).
  destruct r as [|x [|? ?]]; try discriminate.
  cbn [map concat firstn app]. rewrite Hg. f_equal.
  apply IH. intros r' Hr'. apply Hrows. now right.
Qed.

(** The slope magnitudes of the rows of a [J] x [D] matrix. *)
Lemma ssbeta_rows (D : nat) (bs : list (list R)) (Sigma_x : option (ndarray R)) :
  (forall r, In r bs -> length r = D) ->
  sigma_fits D Sigma_x ->
  (if negb (D =? 1)%nat
   then do q <- sumsq_last (matrix (length bs) D bs) Sigma_x; Ok (map_array nsqrt q)
   else Ok (map_array nabs (col0 (matrix (length bs) D bs)))) =
  Ok (mk_array [length bs] (map (fun b => slope_magnitude (vector b) Sigma_x) bs)).
Proof.
  intros Hrows Hfit.
  destruct (Nat.eqb_spec D 1) as [->|HD]; cbn [negb].
  - unfold col0, map_array. rewrite rows_last_matrix by exact Hrows.
    cbn [shape data matrix removelast]. do 2 f_equal.
    apply concat_singletons; [exact Hrows|].
    intros x. reflexivity.
  - assert (Hmag : forall q : list R -> R,
              (forall b, In b bs ->
                 slope_magnitude (vector b) Sigma_x = sqrt (q b)) ->
              map (fun b => sqrt (q b)) bs =
              map (fun b => slope_magnitude (vector b) Sigma_x) bs).
    { intros q Hq. apply map_ext_in. intros b Hb. symmetry. now apply Hq. }
    unfold sumsq_last.
    destruct Sigma_x as [Sx|]; cbn [sigma_fits] in Hfit.
    + unfold quad_last.
      assert (HD' : last_dim (matrix (length bs) D bs) = D) by reflexivity.
      rewrite HD', Hfit.
      destruct (list_eq_dec Nat.eq_dec [D; D] [D; D]) as [_|Hne]; [|congruence].
      cbn [bind]. unfold map_array. rewrite rows_last_matrix by exact Hrows.
      cbn [shape data matrix removelast]. rewrite map_map. do 2 f_equal.
      apply (Hmag (fun b => sum (mul_lists (dot_row D (rows D D (data Sx)) b) b))).
      intros b Hb. unfold slope_magnitude. cbn [vector data].
      rewrite (Hrows b Hb), (proj2 (Nat.eqb_neq D 1) HD). reflexivity.
    + cbn [bind]. unfold map_array, sum_last, rows_last, last_dim.
      cbn [shape data matrix removelast last prod_shape fold_right].
      rewrite Nat.mul_1_r, rows_map, rows_concat by exact Hrows.
      rewrite !map_map. do 2 f_equal.
      apply (Hmag (fun b => sum (map square b))).
      intros b Hb. unfold slope_magnitude. cbn [vector data].
      rewrite (Hrows b Hb), (proj2 (Nat.eqb_neq D 1) HD). reflexivity.
Qed.

(** The call on one group, in the terms of the per-group loops. *)
Lemma single_vector_values (a : R) (b : list R) (Sigma_x : option (ndarray R)) :
  sigma_fits (length b) Sigma_x ->
  (Sigma_x <> None -> (1 < length b)%nat) ->
  calc_input_param_classification erfinv logit uninit (scalar a) (vector b) Sigma_x =
  Ok (scalar (group_mu erfinv logit a (sum b)),
      scalar (group_sigma erfinv logit a
                (sqrt 2 * ERFINVGAMMA0 erfinv * slope_magnitude (vector b) Sigma_x)
                (slope_magnitude (vector b) Sigma_x))).
Proof.
  intros Hfit Hsome.
  rewrite single_group_values.
  - unfold group_mu, group_sigma, shift. real_arith.
    destruct (Rltb (Rabs a) (DELTA_MAX erfinv logit)).
    + do 4 f_equal. ring.
    + destruct (Rltb 0 a); reflexivity.
  - unfold ndim. simpl. lia.
  - unfold wf, vector, prod_shape. simpl. lia.
  - destruct Sigma_x as [Sx|]; [|reflexivity].
    unfold sigma_low_dim, ndim, last_dim. cbn [vector shape length last Nat.eqb orb].
    apply Nat.leb_gt. apply Hsome. discriminate.
  - destruct Sigma_x as [Sx|]; [|exact I].
    intros _. exact Hfit.
Qed.

(** A vector [alpha] of [J > 1] intercepts and a [J] x [D] matrix [beta]. *)
Lemma both_varying_values (al : list R) (bs : list (list R)) (D : nat)
      (Sigma_x : option (ndarray R)) :
  (1 < length al)%nat -> length bs = length al ->
  (forall r, In r bs -> length r = D) ->
  sigma_fits D Sigma_x -> (Sigma_x <> None -> (1 < D)%nat) ->
  calc_input_param_classification erfinv logit uninit
    (vector al) (matrix (length bs) D bs) Sigma_x =
  Ok (vector (map (fun j => group_mu erfinv logit (nth j al 0) (sum (nth j bs [])))
                  (seq 0 (length al))),
      vector (map (fun j => group_sigma erfinv logit (nth j al 0)
                              (sqrt 2 * ERFINVGAMMA0 erfinv *
                               slope_magnitude (vector (nth j bs [])) Sigma_x)
                              (slope_magnitude (vector (nth j bs [])) Sigma_x))
                  (seq 0 (length al)))).
Proof.
  intros HJ Hlen Hrows Hfit Hsome.
  assert (HJ1 : (length al =? 1)%nat = false) by (apply Nat.eqb_neq; lia).
  assert (Hlow : sigma_low_dim (matrix (length bs) D bs) Sigma_x = false).
  { destruct Sigma_x as [Sx|]; [|reflexivity].
    unfold sigma_low_dim, ndim, last_dim. cbn [matrix shape length last Nat.eqb orb].
    apply Nat.leb_gt. apply Hsome. discriminate. }
  unfold calc_input_param_classification. rewrite Hlow.
  unfold group_count, ndim, shape0.
  cbn [vector matrix shape data length nth Nat.eqb Nat.ltb Nat.leb orb andb negb].
  rewrite HJ1. cbn [negb]. rewrite HJ1.
  change (vector al) with (mk_array [length al] al).
  unfold matrix.
  rewrite multi_group_both by lia.
  fold (matrix (length bs) D bs).
  unfold both_varying. cbn [matrix shape nth_error].
  fold (matrix (length bs) D bs).
  rewrite ssbeta_rows by assumption. cbn [bind].
  rewrite (@group_loop_spec R _ erfinv logit uninit (length al)
             (fun j => nth j al 0)
             (fun j => (nsqrt (lit 2) * ERFINVGAMMA0 erfinv *
                        slope_magnitude (vector (nth j bs [])) Sigma_x)%num)
             (fun j => sum (nth j bs []))
             (fun j => slope_magnitude (vector (nth j bs [])) Sigma_x)).
  - cbn [bind fst snd]. real_arith. reflexivity.
  - intros j Hj. repeat split.
    + now apply get_nth.
    + unfold map_array. cbn [shape data]. rewrite map_map.
      rewrite (get_nth _ (j := j)
                 ((fun b => nsqrt (lit 2) * ERFINVGAMMA0 erfinv *
                            slope_magnitude (vector b) Sigma_x)%num []))
        by (cbn [data]; rewrite length_map; lia).
      cbn [data].
      now rewrite (map_nth (fun b => (nsqrt (lit 2) * ERFINVGAMMA0 erfinv *
                                      slope_magnitude (vector b) Sigma_x)%num)).
    + unfold sum_last. rewrite rows_last_matrix by exact Hrows.
      cbn [matrix shape removelast].
      rewrite (get_nth _ (j := j) (sum [])) by (cbn [data]; rewrite length_map; lia).
      cbn [data]. now rewrite (map_nth sum).
    + rewrite (get_nth _ (j := j) (slope_magnitude (vector []) Sigma_x))
        by (cbn [data]; rewrite length_map; lia).
      cbn [data].
      now rewrite (map_nth (fun b => slope_magnitude (vector b) Sigma_x)).
Qed.

End GroupByGroup.

(** X15.  Over the reals, the groups are treated one by one: for [J > 1]
    intercepts and a [J] x [D] matrix of slopes that pass the validation,
    entry [j] of the returned [mu_x] and [sigma_x] is what the call on the
    single group of the intercept [alpha[j]] and the slopes [beta[j]]
    returns. *)
Theorem groups_are_treated_one_by_one :
  forall (erfinv logit : R -> R) (uninit : R) (al : list R) (bs : list (list R))
         (D : nat) (Sigma_x : option (ndarray R)),
    (1 < length al)%nat -> length bs = length al ->
    (forall r, In r bs -> length r = D) ->
    sigma_fits D Sigma_x -> (Sigma_x <> None -> (1 < D)%nat) ->
    exists mu_x sigma_x,
      calc_input_param_classification erfinv logit uninit
        (vector al) (matrix (length bs) D bs) Sigma_x = Ok (vector mu_x, vector sigma_x) /\
      length mu_x = length al /\ length sigma_x = length al /\
      forall j, (j < length al)%nat ->
        calc_input_param_classification erfinv logit uninit
          (scalar (nth j al 0%R)) (vector (nth j bs [])) Sigma_x =
        Ok (scalar (nth j mu_x 0%R), scalar (nth j sigma_x 0%R)).
Proof.
  intros erfinv logit uninit al bs D Sigma_x HJ Hlen Hrows Hfit Hsome.
  rewrite (@both_varying_values erfinv logit uninit al bs D Sigma_x) by assumption.
  eexists; eexists; split; [reflexivity|].
  split; [now rewrite length_map, length_seq|].
  split; [now rewrite length_map, length_seq|].
  intros j Hj. rewrite !nth_map_seq by exact Hj.
  assert (Hr : length (nth j bs []) = D) by (apply Hrows, nth_In; lia).
  apply single_vector_values; now rewrite Hr.
Qed.

Lemma groups_are_treated_one_by_one_witness :
  exists mu_x sigma_x,
    calc_input_param_classification (fun _ => - 1)%R (fun _ => - 1)%R 0%R
      (vector [3; 0]%R) (matrix (length [[2; 1]; [1; 4]]%R) 2 [[2; 1]; [1; 4]]%R) None =
    Ok (vector mu_x, vector sigma_x) /\
    length mu_x = length [3; 0]%R /\ length sigma_x = length [3; 0]%R /\
    forall j, (j < length [3; 0]%R)%nat ->
      calc_input_param_classification (fun _ => - 1)%R (fun _ => - 1)%R 0%R
        (scalar (nth j [3; 0]%R 0%R)) (vector (nth j [[2; 1]; [1; 4]]%R [])) None =
      Ok (scalar (nth j mu_x 0%R), scalar (nth j sigma_x 0%R)).
Proof.
  apply (@groups_are_treated_one_by_one (fun _ => - 1)%R (fun _ => - 1)%R 0%R
           [3; 0]%R [[2; 1]; [1; 4]]%R 2 None).
  - simpl. lia.
  - reflexivity.
  - intros r [<-|[<-|[]]]; reflexivity.
  - exact I.
  - intros Hn. now elim Hn.
Defined.

(** ** Classification: an intercept or slopes that the groups share *)

Section SharedCoefficients.
Local Open Scope R_scope.
Variables erfinv logit : R -> R.
Variable uninit : R.

(** A vector [alpha] of [J > 1] intercepts and one vector of slopes take
    the path of the first loop. *)
Lemma multi_group_common_beta (J : nat) (da b : list R) (Sigma_x : option (ndarray R)) :
  J <> 1%nat ->
  multi_group erfinv logit uninit J (mk_array [J] da) (vector b) Sigma_x =
  common_beta erfinv logit uninit J (mk_array [J] da) (vector b) Sigma_x.
Proof.
  intros HJ. unfold multi_group, squeeze, ndim, shape0.
  cbn [vector shape data filter length nth Nat.eqb andb].
  rewrite (proj2 (Nat.eqb_neq J 1) HJ). reflexivity.
Qed.

End SharedCoefficients.

(** X16.  Over the reals, slopes that [J > 1] groups share are the slopes
    of every group: for [Sigma_x] absent or [D] x [D], the call on a vector
    [alpha] of [J] intercepts and one vector [beta] of [D] slopes, [D] not
    one, returns what the call on [alpha] and the [J] x [D] matrix of [J]
    copies of [beta] returns, and fails in the validation as that call
    does. *)
Theorem common_slopes_are_repeated_slopes :
  forall (erfinv logit : R -> R) (uninit : R) (al b : list R)
         (Sigma_x : option (ndarray R)),
    (1 < length al)%nat ->
    length b <> 1%nat ->
    sigma_fits (length b) Sigma_x ->
    calc_input_param_classification erfinv logit uninit
      (vector al) (vector b) Sigma_x =
    calc_input_param_classification erfinv logit uninit
      (vector al) (matrix (length al) (length b) (repeat b (length al))) Sigma_x.
Proof.
  intros erfinv logit uninit al b Sigma_x HJ HD Hfit.
  set (J := length al) in *.
  set (beta := matrix J (length b) (repeat b J)).
  assert (Hl : sigma_low_dim beta Sigma_x = sigma_low_dim (vector b) Sigma_x)
    by (destruct Sigma_x; reflexivity).
  assert (HJ1 : (J =? 1)%nat = false) by (apply Nat.eqb_neq; lia).
  unfold calc_input_param_classification. rewrite Hl.
  unfold group_count, ndim, shape0.
  cbn [beta vector matrix shape data length nth Nat.eqb Nat.ltb Nat.leb orb andb negb].
  fold J. rewrite HJ1. cbn [negb].
  destruct (sigma_low_dim (vector b) Sigma_x); [reflexivity|].
  rewrite HJ1.
  change (vector al) with (mk_array [J] al).
  rewrite multi_group_common_beta by lia.
  unfold beta, matrix. rewrite multi_group_both by lia.
  fold (matrix J (length b) (repeat b J)).
  unfold both_varying, common_beta. cbn [matrix shape nth_error].
  fold (matrix J (length b) (repeat b J)).
  rewrite ssbeta_repeat.
  change (shape0 (vector b)) with (length b).
  rewrite (proj2 (Nat.eqb_neq (length b) 1) HD). cbn [negb].
  destruct (sumsq_vec (vector b) Sigma_x) as [q|e]; cbn [bind]; [|reflexivity].
  set (ssb := nsqrt q).
  rewrite (@group_loop_spec R _ erfinv logit uninit J
             (fun j => nth j al 0%R)
             (fun _ => (nsqrt (lit 2) * ERFINVGAMMA0 erfinv * ssb)%num)
             (fun _ => sum b) (fun _ => ssb)).
  2:{ intros j Hj. repeat split. apply get_nth. cbn [data]. exact Hj. }
  rewrite (@group_loop_spec R _ erfinv logit uninit J
             (fun j => nth j al 0%R)
             (fun _ => (nsqrt (lit 2) * ERFINVGAMMA0 erfinv * ssb)%num)
             (fun _ => sum b) (fun _ => ssb)).
  2:{ intros j Hj. repeat split.
      - apply get_nth. cbn [data]. exact Hj.
      - unfold map_array. cbn [shape data]. rewrite map_repeat.
        now apply get_repeat.
      - unfold sum_last. rewrite rows_last_repeat, map_repeat.
        now apply get_repeat.
      - now apply get_repeat. }
  reflexivity.
Qed.

Lemma common_slopes_are_repeated_slopes_witness :
  calc_input_param_classification (fun _ => - 1)%R (fun _ => - 1)%R 0%R
    (vector [3; 0]%R) (vector [2; 1]%R) None =
  calc_input_param_classification (fun _ => - 1)%R (fun _ => - 1)%R 0%R
    (vector [3; 0]%R)
    (matrix (length [3; 0]%R) (length [2; 1]%R) (repeat [2; 1]%R (length [3; 0]%R))) None.
Proof.
  apply (@common_slopes_are_repeated_slopes (fun _ => - 1)%R (fun _ => - 1)%R 0%R
           [3; 0]%R [2; 1]%R None).
  - simpl. lia.
  - simpl. lia.
  - exact I.
Defined.

Section SharedIntercept.
Local Open Scope R_scope.
Variables erfinv logit : R -> R.
Variable uninit : R.

(** One intercept and a [J] x [D] matrix of slopes, [J > 1], take the
    path of the common intercept. *)
Lemma multi_group_common_alpha (J D : nat) (a : R) (db : list R)
      (Sigma_x : option (ndarray R)) :
  J <> 1%nat ->
  multi_group erfinv logit uninit J (scalar a) (mk_array [J; D] db) Sigma_x =
  common_alpha erfinv logit J a (mk_array [J; D] db) Sigma_x.
Proof.
  intros HJ. unfold multi_group, squeeze, ndim, shape0.
  cbn [scalar shape data filter length nth Nat.eqb andb].
  rewrite (proj2 (Nat.eqb_neq J 1) HJ). reflexivity.
Qed.

Lemma sumsq_last_length (beta q : ndarray R) (Sigma_x : option (ndarray R)) :
  sumsq_last beta Sigma_x = Ok q ->
  length (data q) = prod_shape (removelast (shape beta)) /\
  shape q = removelast (shape beta).
Proof.
  unfold sumsq_last. destruct Sigma_x as [Sx|].
  - unfold quad_last. destruct (list_eq_dec Nat.eq_dec _ _); [|discriminate].
    intros Hq. injection Hq as <-. cbn [shape data].
    split; [|reflexivity]. rewrite length_map. apply rows_length.
  - intros Hq. injection Hq as <-. unfold sum_last, map_array. cbn [shape data].
    split; [|reflexivity]. rewrite length_map. apply rows_length.
Qed.

Lemma map_const_repeat {A B : Type} (c : B) (l : list A) :
  map (fun _ => c) l = repeat c (length l).
Proof. induction l as [|x l IH]; simpl; [reflexivity|]. now rewrite IH. Qed.

Lemma map_nth_all (F : R -> R) (l : list R) (J : nat) :
  length l = J -> map (fun j => F (nth j l 0)) (seq 0 J) = map F l.
Proof.
  intros <-. rewrite <- (map_nth_seq l) at 2. now rewrite map_map.
Qed.

(** The last loop on [J] intercepts and [J] slope magnitudes. *)
Lemma both_varying_loop (J : nat) (al sums mags : ndarray R) :
  length (data al) = J -> length (data sums) = J -> length (data mags) = J ->
  for_each (seq 0 J)
    (fun j st =>
       do alpha_j <- get al j;
       group_body erfinv logit j alpha_j
         (get (map_array (fun s => nsqrt (lit 2) * ERFINVGAMMA0 erfinv * s)%num mags) j)
         (get sums j) (get mags j) st)
    (repeat (lit 0) J, repeat uninit J) =
  Ok (map (fun j => group_mu erfinv logit (nth j (data al) 0) (nth j (data sums) 0))
          (seq 0 J),
      map (fun j => group_sigma erfinv logit (nth j (data al) 0)
                      (sqrt 2 * ERFINVGAMMA0 erfinv * nth j (data mags) 0)
                      (nth j (data mags) 0))
          (seq 0 J)).
Proof.
  intros Hda Hsums Hmags.
  rewrite (@group_loop_spec R _ erfinv logit uninit J
             (fun j => nth j (data al) 0)
             (fun j => (nsqrt (lit 2) * ERFINVGAMMA0 erfinv * nth j (data mags) 0)%num)
             (fun j => nth j (data sums) 0) (fun j => nth j (data mags) 0)).
  - real_arith. reflexivity.
  - intros j Hj. repeat split.
    + apply get_nth. lia.
    + unfold map_array.
      rewrite (get_nth _ (j := j)
                 ((fun s => nsqrt (lit 2) * ERFINVGAMMA0 erfinv * s)%num 0))
        by (cbn [data]; rewrite length_map; lia).
      cbn [data].
      now rewrite (map_nth (fun s => (nsqrt (lit 2) * ERFINVGAMMA0 erfinv * s)%num)).
    + apply get_nth. lia.
    + apply get_nth. lia.
Qed.

End SharedIntercept.

(** X17.  Over the reals, an intercept that [J > 1] groups share is the
    intercept of every group: the call on a scalar [alpha] and a [J] x [D]
    matrix [beta] returns what the call on the vector of [J] copies of
    [alpha] and [beta] returns, and fails as that call fails. *)
Theorem common_intercept_is_repeated_intercept :
  forall (erfinv logit : R -> R) (uninit a : R) (J D : nat) (db : list R)
         (Sigma_x : option (ndarray R)),
    (1 < J)%nat ->
    wf (mk_array [J; D] db) ->
    calc_input_param_classification erfinv logit uninit
      (scalar a) (mk_array [J; D] db) Sigma_x =
    calc_input_param_classification erfinv logit uninit
      (vector (repeat a J)) (mk_array [J; D] db) Sigma_x.
Proof.
  intros erfinv logit uninit a J D db Sigma_x HJ Hw.
  assert (Ha : vector (repeat a J) = mk_array [J] (repeat a J)).
  { unfold vector. now rewrite repeat_length. }
  rewrite Ha. clear Ha.
  set (beta := mk_array [J; D] db) in *.
  assert (HJ1 : (J =? 1)%nat = false) by (apply Nat.eqb_neq; lia).
  unfold calc_input_param_classification.
  unfold group_count, ndim, shape0.
  cbn [beta scalar shape data length nth Nat.eqb Nat.ltb Nat.leb orb andb negb].
  rewrite HJ1. cbn [negb].
  destruct (sigma_low_dim beta Sigma_x); [reflexivity|].
  rewrite HJ1. unfold beta.
  rewrite multi_group_common_alpha, multi_group_both by lia.
  fold beta.
  assert (Hsums : length (data (sum_last beta)) = J).
  { unfold sum_last, rows_last. cbn [beta shape data removelast].
    rewrite length_map, rows_length. unfold prod_shape. simpl. lia. }
  assert (Hshape : forall sarr : ndarray R,
            shape sarr = [J] -> length (data sarr) = J ->
            (do st <-
               for_each (seq 0 J)
                 (fun j st =>
                    do alpha_j <- get (mk_array [J] (repeat a J)) j;
                    group_body erfinv logit j alpha_j
                      (get (map_array
                              (fun s => nsqrt (lit 2) * ERFINVGAMMA0 erfinv * s)%num sarr) j)
                      (get (sum_last beta) j) (get sarr j) st)
                 (repeat (lit 0) J, repeat uninit J);
             Ok (vector (fst st), vector (snd st))) =
            Ok (mk_array [J] (map (fun s => group_mu erfinv logit a s)
                                  (data (sum_last beta))),
                mk_array [J] (map (fun m => group_sigma erfinv logit a
                                              (sqrt 2 * ERFINVGAMMA0 erfinv * m)%R m)
                                  (data sarr)))).
  { intros sarr Hss Hsd.
    rewrite (@both_varying_loop erfinv logit uninit J (mk_array [J] (repeat a J))
               (sum_last beta) sarr)
      by (auto; cbn [data]; apply repeat_length).
    cbn [bind fst snd data]. unfold vector. rewrite !length_map, length_seq.
    f_equal. f_equal.
    - f_equal.
      rewrite <- (@map_nth_all (fun s => group_mu erfinv logit a s) _ J Hsums).
      apply map_ext_in. intros j Hj. apply in_seq in Hj.
      now rewrite nth_repeat_lt by lia.
    - f_equal.
      rewrite <- (@map_nth_all (fun m => group_sigma erfinv logit a
                                           (sqrt 2 * ERFINVGAMMA0 erfinv * m)%R m)
                               _ J Hsd).
      apply map_ext_in. intros j Hj. apply in_seq in Hj.
      now rewrite nth_repeat_lt by lia. }
  unfold common_alpha, both_varying. cbn [beta shape nth_error]. fold beta.
  destruct (Nat.eqb_spec D 1) as [HD|HD]; cbn [negb].
  - cbn [bind].
    rewrite Hshape.
    2:{ unfold map_array, col0. reflexivity. }
    2:{ unfold map_array. cbn [data]. rewrite length_map.
        apply col0_length; [unfold beta; now rewrite HD|exact Hw]. }
    unfold group_mu, group_sigma, shift.
    destruct (nlt (nabs a) (DELTA_MAX erfinv logit)); cbn [bind].
    + unfold vector, map_array. cbn [shape data col0 beta removelast].
      rewrite repeat_length, !map_map. f_equal. f_equal.
      * f_equal. rewrite <- Hsums. symmetry. apply map_const_repeat.
      * f_equal. apply map_ext. intros b. real_arith. f_equal. ring.
    + unfold map_array, sum_last. cbn [shape data col0 beta removelast].
      rewrite !map_map. reflexivity.
  - destruct (sumsq_last beta Sigma_x) as [q|e] eqn:Hq; cbn [bind].
    2:{ destruct (nlt (nabs a) (DELTA_MAX erfinv logit)); reflexivity. }
    destruct (sumsq_last_length _ _ Hq) as [Hql Hqs].
    cbn [beta shape removelast] in Hql, Hqs.
    assert (HqJ : length (data q) = J) by (rewrite Hql; unfold prod_shape; simpl; lia).
    rewrite Hshape.
    2:{ unfold map_array. cbn [shape]. exact Hqs. }
    2:{ unfold map_array. cbn [data]. now rewrite length_map. }
    unfold group_mu, group_sigma, shift.
    destruct (nlt (nabs a) (DELTA_MAX erfinv logit)); cbn [bind].
    + unfold vector, map_array. cbn [shape data]. rewrite Hqs.
      rewrite repeat_length, !map_map. f_equal. f_equal.
      * f_equal. rewrite <- Hsums. symmetry. apply map_const_repeat.
      * f_equal. apply map_ext. intros s. real_arith.
        rewrite (Rmult_comm s 2), sqrt_twice. f_equal. ring.
    + unfold map_array, sum_last. cbn [shape data beta removelast]. rewrite Hqs.
      rewrite !map_map. reflexivity.
Qed.

Lemma common_intercept_is_repeated_intercept_witness :
  calc_input_param_classification (fun _ => - 1)%R (fun _ => - 1)%R 0%R
    (scalar 3%R) (mk_array [2; 2]%nat [2; 1; 1; 4]%R) None =
  calc_input_param_classification (fun _ => - 1)%R (fun _ => - 1)%R 0%R
    (vector (repeat 3%R 2)) (mk_array [2; 2]%nat [2; 1; 1; 4]%R) None.
Proof.
  apply (@common_intercept_is_repeated_intercept (fun _ => - 1)%R (fun _ => - 1)%R 0%R
           3%R 2 2 [2; 1; 1; 4]%R None).
  - lia.
  - reflexivity.
Defined.

(** ** Linear regression: what the result achieves *)

Section LinRegReal.
Local Open Scope R_scope.

Lemma R_SQUARED_half : R_SQUARED (T := R) = 1 / 2.
Proof. unfold R_SQUARED. cbn [lit R_arith]. unfold Q2R. simpl. lra. Qed.

(** The share of explained variance for [sigma_x] of the multidimensional
    branch. *)
Lemma target_share (q sigma : R) :
  0 < q -> sigma <> 0 ->
  let o := sqrt (R_SQUARED / (q * (1 - R_SQUARED))) * sigma in
  q * (o * o) / (q * (o * o) + sigma * sigma) = R_SQUARED.
Proof.
  intros Hq Hs o. subst o. rewrite R_SQUARED_half.
  replace (1 / 2 / (q * (1 - 1 / 2))) with (/ q) by (field; lra).
  assert (Hiq : 0 < / q) by now apply Rinv_0_lt_compat.
  replace (sqrt (/ q) * sigma * (sqrt (/ q) * sigma))
    with (sqrt (/ q) * sqrt (/ q) * (sigma * sigma)) by ring.
  rewrite sqrt_sqrt by lra.
  assert (Hss : 0 < sigma * sigma) by nra.
  field. split; [|lra].
  replace (q * (sigma * sigma) + sigma * sigma * q) with (2 * q * (sigma * sigma)) by ring.
  nra.
Qed.

(** The same share for [sigma_x] of the one-dimensional branch. *)
Lemma target_share_one_dim (b sigma : R) :
  b <> 0 -> sigma <> 0 ->
  let o := sqrt (R_SQUARED / (1 - R_SQUARED)) * sigma / Rabs b in
  b * b * (o * o) / (b * b * (o * o) + sigma * sigma) = R_SQUARED.
Proof.
  intros Hb Hs o. subst o. rewrite R_SQUARED_half.
  replace (1 / 2 / (1 - 1 / 2)) with 1 by field.
  rewrite sqrt_1.
  assert (Hab : Rabs b <> 0) by now apply Rabs_no_R0.
  assert (Hbb : Rabs b * Rabs b = b * b).
  { unfold Rabs. destruct (Rcase_abs b); ring. }
  replace (1 * sigma / Rabs b * (1 * sigma / Rabs b))
    with (sigma * sigma / (Rabs b * Rabs b)) by (field; exact Hab).
  rewrite Hbb.
  assert (Hss : 0 < sigma * sigma) by nra.
  assert (Hb2 : 0 < b * b) by nra.
  field. split; [lra|].
  replace (b * b * (sigma * sigma) + sigma * sigma * (b * b))
    with (2 * (b * b) * (sigma * sigma)) by ring.
  nra.
Qed.

(** The call on a [J] x 1 matrix. *)
Lemma lin_reg_column (bs : list R) (sigma : R) :
  calc_input_param_lin_reg (mk_array [length bs; 1%nat] bs) sigma None =
  Ok (vector (map (fun b => sqrt (R_SQUARED / (1 - R_SQUARED)) * sigma / Rabs b) bs)).
Proof.
  unfold calc_input_param_lin_reg, vector, col0, map_array, rows_last, ndim, last_dim.
  cbn -[rows firstn]. rewrite Nat.mul_1_r, column_of_rows_1 by reflexivity.
  rewrite !length_map, map_map. real_arith. reflexivity.
Qed.

End LinRegReal.

(** X18.  Multidimensional input over the reals, with [q] the row-wise sum
    of squares of [beta], or the quadratic form of [Sigma_x], as the code
    computes it: for a noise deviation [sigma <> 0] and every row with
    [q > 0], the returned [sigma_x] makes the share of explained variance,
    [q * sigma_x^2 / (q * sigma_x^2 + sigma^2)], equal to [R_SQUARED], the
    target coefficient of determination. *)
Theorem lin_reg_reaches_target :
  forall (beta : ndarray R) (sigma : R) (Sigma_x : option (ndarray R)) (q : ndarray R),
    sigma_low_dim beta Sigma_x = false ->
    (ndim beta =? 0)%nat || (last_dim beta =? 1)%nat = false ->
    sumsq_last beta Sigma_x = Ok q ->
    sigma <> 0%R ->
    exists out,
      calc_input_param_lin_reg beta sigma Sigma_x = Ok out /\
      shape out = shape q /\
      length (data out) = length (data q) /\
      forall j, (j < length (data q))%nat -> (0 < nth j (data q) 0)%R ->
        (nth j (data q) 0 * (nth j (data out) 0 * nth j (data out) 0) /
         (nth j (data q) 0 * (nth j (data out) 0 * nth j (data out) 0) + sigma * sigma)
         = R_SQUARED)%R.
Proof.
  intros beta sigma Sigma_x q Hlow Hmulti Hq Hs.
  unfold calc_input_param_lin_reg. rewrite Hlow, Hmulti, Hq. cbn [bind].
  eexists; split; [reflexivity|]. unfold map_array. cbn [shape data].
  split; [reflexivity|]. split; [apply length_map|].
  intros j Hj Hpos.
  set (f := (fun o : R => nsqrt (R_SQUARED / (o * (lit 1 - R_SQUARED))) * sigma)%num).
  rewrite (nth_indep (map f (data q)) 0%R (f 0%R)) by now rewrite length_map.
  rewrite (map_nth f). subst f. real_arith. now apply target_share.
Qed.

Lemma lin_reg_reaches_target_witness :
  exists out,
    calc_input_param_lin_reg (vector [2; 1]%R) 1%R None = Ok out /\
    shape out = shape (sum_last (map_array square (vector [2; 1]%R))) /\
    length (data out) = length (data (sum_last (map_array square (vector [2; 1]%R)))) /\
    forall j, (j < length (data (sum_last (map_array square (vector [2; 1]%R)))))%nat ->
      (0 < nth j (data (sum_last (map_array square (vector [2; 1]%R)))) 0)%R ->
      (nth j (data (sum_last (map_array square (vector [2; 1]%R)))) 0 *
       (nth j (data out) 0 * nth j (data out) 0) /
       (nth j (data (sum_last (map_array square (vector [2; 1]%R)))) 0 *
        (nth j (data out) 0 * nth j (data out) 0) + 1 * 1)
       = R_SQUARED)%R.
Proof.
  apply (@lin_reg_reaches_target (vector [2; 1]%R) 1%R None
           (sum_last (map_array square (vector [2; 1]%R)))).
  - reflexivity.
  - reflexivity.
  - reflexivity.
  - lra.
Defined.

(** X19.  One-dimensional input over the reals, a scalar or a [J] x 1
    matrix: for a noise deviation [sigma <> 0] and every slope [b <> 0],
    the returned [sigma_x] makes the share of explained variance,
    [b^2 * sigma_x^2 / (b^2 * sigma_x^2 + sigma^2)], equal to [R_SQUARED]. *)
Theorem lin_reg_one_dim_reaches_target :
  forall (sigma : R),
    sigma <> 0%R ->
    (forall b : R, b <> 0%R ->
       exists o,
         calc_input_param_lin_reg (scalar b) sigma None = Ok (scalar o) /\
         (b * b * (o * o) / (b * b * (o * o) + sigma * sigma) = R_SQUARED)%R) /\
    (forall bs : list R,
       exists out,
         calc_input_param_lin_reg (mk_array [length bs; 1%nat] bs) sigma None =
         Ok (vector out) /\
         length out = length bs /\
         forall j, (j < length bs)%nat -> nth j bs 0%R <> 0%R ->
           (nth j bs 0 * nth j bs 0 * (nth j out 0 * nth j out 0) /
            (nth j bs 0 * nth j bs 0 * (nth j out 0 * nth j out 0) + sigma * sigma)
            = R_SQUARED)%R).
Proof.
  intros sigma Hs. split.
  - intros b Hb. eexists. split.
    + unfold calc_input_param_lin_reg, scalar, map_array. simpl. real_arith. reflexivity.
    + now apply target_share_one_dim.
  - intros bs. rewrite lin_reg_column. eexists. split; [reflexivity|].
    split; [apply length_map|].
    intros j Hj Hb.
    set (f := (fun b : R => sqrt (R_SQUARED / (1 - R_SQUARED)) * sigma / Rabs b)%R).
    rewrite (nth_indep (map f bs) 0%R (f 0%R)) by now rewrite length_map.
    rewrite (map_nth f). subst f. now apply target_share_one_dim.
Qed.

Lemma lin_reg_one_dim_reaches_target_witness :
  (forall b : R, b <> 0%R ->
     exists o,
       calc_input_param_lin_reg (scalar b) 1%R None = Ok (scalar o) /\
       (b * b * (o * o) / (b * b * (o * o) + 1 * 1) = R_SQUARED)%R) /\
  (forall bs : list R,
     exists out,
       calc_input_param_lin_reg (mk_array [length bs; 1%nat] bs) 1%R None =
       Ok (vector out) /\
       length out = length bs /\
       forall j, (j < length bs)%nat -> nth j bs 0%R <> 0%R ->
         (nth j bs 0 * nth j bs 0 * (nth j out 0 * nth j out 0) /
          (nth j bs 0 * nth j bs 0 * (nth j out 0 * nth j out 0) + 1 * 1)
          = R_SQUARED)%R).
Proof.
  apply (@lin_reg_one_dim_reaches_target 1%R). lra.
Defined.

Section LinRegShapes.
Context {T : Type} `{Arith T}.
Local Open Scope num_scope.

(** The row-wise sums of the multidimensional branch: one value for each
    row of [beta]. *)
Lemma sumsq_last_shape (beta : ndarray T) (Sigma_x : option (ndarray T)) :
  sigma_fits (last_dim beta) Sigma_x ->
  exists q, sumsq_last beta Sigma_x = Ok q /\
            length (data q) = prod_shape (removelast (shape beta)) /\
            shape q = removelast (shape beta).
Proof.
  intros Hfit.
  destruct (@sumsq_last_Z T _ (fun _ => True) I (fun _ _ _ _ => I) (fun _ _ _ => I)
              (fun _ _ _ => I) beta Sigma_x) as (q & Hq & _ & Hlen & Hsh).
  - apply Forall_forall. intros; exact I.
  - exact Hfit.
  - exists q. auto.
Qed.

End LinRegShapes.

(** X20.  For [beta] with at most two axes, [calc_input_param_lin_reg]
    returns one value for each row of [beta]: the shape of the result is the
    shape of [beta] without its last axis, a 0-d array for a scalar or a
    vector [beta]. *)
Theorem lin_reg_output_shape :
  forall (T : Type) (A : Arith T) (beta : ndarray T) (sigma : T)
         (Sigma_x : option (ndarray T)),
    (ndim beta <= 2)%nat -> wf beta ->
    sigma_typed beta Sigma_x -> sigma_low_dim beta Sigma_x = false ->
    exists out,
      calc_input_param_lin_reg beta sigma Sigma_x = Ok out /\
      shape out = removelast (shape beta) /\ wf out.
Proof.
  intros T A beta sigma Sigma_x Hnd Hw Htyped Hlow.
  destruct (sigma_fits_of_typed beta Sigma_x Hlow Htyped) as [Hfit _].
  unfold calc_input_param_lin_reg. rewrite Hlow.
  destruct ((ndim beta =? 0)%nat || (last_dim beta =? 1)%nat) eqn:Hone.
  - eexists; split; [reflexivity|].
    destruct beta as [sb db]. unfold ndim, last_dim, wf in *. cbn [shape data] in *.
    destruct sb as [|n [|D [|? ?]]]; [| | |simpl in Hnd; lia].
    + cbn. split; [reflexivity|]. unfold wf. cbn [shape data].
      rewrite !length_map. exact Hw.
    + cbn [length Nat.eqb orb last] in Hone. apply Nat.eqb_eq in Hone. subst n.
      cbn [length Nat.eqb]. unfold index0, map_array, wf. cbn [shape data tl removelast].
      split; [reflexivity|]. rewrite !length_map, length_firstn.
      unfold prod_shape in *. simpl in *. now rewrite Hw.
    + cbn [length Nat.eqb orb last] in Hone. apply Nat.eqb_eq in Hone. subst D.
      cbn [length Nat.eqb]. unfold map_array, wf.
      assert (Hc : length (data (col0 (mk_array [n; 1%nat] db))) = n)
        by (apply col0_length; [reflexivity|exact Hw]).
      cbn [shape data col0 removelast] in *.
      split; [reflexivity|]. rewrite !length_map, Hc.
      unfold prod_shape. simpl. lia.
  - destruct (sumsq_last_shape beta Sigma_x Hfit) as (q & -> & Hlen & Hsh).
    cbn [bind]. eexists; split; [reflexivity|].
    unfold map_array, wf. cbn [shape data]. split; [exact Hsh|].
    now rewrite length_map, Hsh.
Qed.

Lemma lin_reg_output_shape_witness :
  exists out,
    calc_input_param_lin_reg (matrix 2 2 [[fl 1; fl 2]; [fl 3; fl 4]]) (fl 1) None = Ok out /\
    shape out = removelast (shape (matrix 2 2 [[fl 1; fl 2]; [fl 3; fl 4]])) /\ wf out.
Proof.
  apply (@lin_reg_output_shape binary64 _ (matrix 2 2 [[fl 1; fl 2]; [fl 3; fl 4]])
           (fl 1) None).
  - unfold ndim. simpl. lia.
  - reflexivity.
  - exact I.
  - reflexivity.
Defined.

Section LinRegZeroSlopes.

Lemma non_finite_sqrt (x : binary64) : non_finite x -> non_finite (nsqrt x).
Proof. destruct x as [sx|[|]| |sx mx ex]; simpl; try contradiction; auto. Qed.

Lemma non_finite_mul_l (x y : binary64) : non_finite x -> non_finite (x * y)%num.
Proof.
  destruct x as [sx|sx| |sx mx ex], y as [sy|sy| |sy my ey]; simpl;
    try contradiction; auto.
Qed.

Lemma is_zero_or_nan (l : list binary64) : Forall is_zero l -> Forall zero_or_nan l.
Proof.
  intros Hl. eapply Forall_impl; [|exact Hl].
  intros [sx|sx| |sx mx ex]; simpl; auto.
Qed.

End LinRegZeroSlopes.

(** X21.  In float64, for slopes that are all zero and arguments that pass
    the validation, [calc_input_param_lin_reg] raises nothing: it divides
    by zero and every entry of the result is an infinity or NaN. *)
Theorem lin_reg_zero_slopes_not_finite :
  forall (beta : ndarray binary64) (sigma : binary64)
         (Sigma_x : option (ndarray binary64)),
    sigma_typed beta Sigma_x -> sigma_low_dim beta Sigma_x = false ->
    Forall is_zero (data beta) ->
    exists out,
      calc_input_param_lin_reg beta sigma Sigma_x = Ok out /\
      Forall non_finite (data out).
Proof.
  intros beta sigma Sigma_x Htyped Hlow Hzero.
  apply is_zero_or_nan in Hzero.
  destruct (sigma_fits_of_typed beta Sigma_x Hlow Htyped) as [Hfit _].
  unfold calc_input_param_lin_reg. rewrite Hlow.
  destruct ((ndim beta =? 0)%nat || (last_dim beta =? 1)%nat).
  - eexists; split; [reflexivity|].
    unfold map_array. cbn [data]. rewrite map_map.
    apply Forall_map.
    assert (Hz : Forall zero_or_nan
                   (data (if (ndim beta =? 2)%nat then col0 beta
                          else if (ndim beta =? 1)%nat then index0 beta else beta))).
    { destruct (ndim beta =? 2)%nat; [now apply col0_Z|].
      destruct (ndim beta =? 1)%nat; [|exact Hzero].
      unfold index0. cbn [data]. now apply Forall_firstn. }
    eapply Forall_impl; [|exact Hz].
    intros b Hb. apply quotient_non_finite.
    eexists _, (nabs b). split; [reflexivity|]. now apply zero_or_nan_abs.
  - destruct (@sumsq_last_Z binary64 _ zero_or_nan zero_or_nan_lit0 zero_or_nan_add
                zero_or_nan_mul_l zero_or_nan_mul_r beta Sigma_x Hzero Hfit)
      as (q & -> & Hq & _ & _).
    cbn [bind]. eexists; split; [reflexivity|].
    unfold map_array. cbn [data]. apply Forall_map.
    eapply Forall_impl; [|exact Hq].
    intros o Ho. apply non_finite_mul_l, non_finite_sqrt, quotient_non_finite.
    eexists _, (o * (lit 1 - R_SQUARED))%num. split; [reflexivity|].
    now apply zero_or_nan_mul_l.
Qed.

Lemma lin_reg_zero_slopes_not_finite_witness :
  exists out,
    calc_input_param_lin_reg (vector [fl 0; fl 0]) (fl 1) None = Ok out /\
    Forall non_finite (data out).
Proof.
  apply (@lin_reg_zero_slopes_not_finite (vector [fl 0; fl 0]) (fl 1) None).
  - exact I.
  - reflexivity.
  - repeat constructor.
Defined.

(** X22.  Three variables over the reals, before the permutation: for
    partial correlations [a], [b], [c] in [-1, 1] the determinant of the
    array [C] that the conversion loop leaves is
    [(1 - a^2) * (1 - b^2) * (1 - c^2)], which is not negative. *)
Theorem vine_three_variables_determinant :
  forall (u pmin pmax x0 x1 x2 : R),
    let a := (x0 * (pmax - pmin) + pmin)%R in
    let b := (x1 * (pmax - pmin) + pmin)%R in
    let c := (x2 * (pmax - pmin) + pmin)%R in
    (-1 <= a <= 1)%R -> (-1 <= b <= 1)%R -> (-1 <= c <= 1)%R ->
    det3 (vC (vine_state_of u 3 pmin pmax [x0; x1; x2])) =
    ((1 - a * a) * (1 - b * b) * (1 - c * c))%R /\
    (0 <= det3 (vC (vine_state_of u 3 pmin pmax [x0; x1; x2])))%R.
Proof.
  intros u pmin pmax x0 x1 x2 a b c Ha Hb Hc.
  assert (Hdet : det3 (vC (vine_state_of u 3 pmin pmax [x0; x1; x2])) =
                 ((1 - a * a) * (1 - b * b) * (1 - c * c))%R).
  { unfold det3, vine_state_of, partial_correlations.
    cbv -[Rplus Rmult Rminus Rdiv Q2R sqrt Ropp Rinv].
    rewrite !Q2R_lit1. fold a b c.
    assert (Hnn : (0 <= (1 - a * a) * (1 - b * b))%R)
      by (apply Rmult_le_pos; nra).
    pose proof (sqrt_sqrt _ Hnn) as Hs.
    remember (sqrt ((1 - a * a) * (1 - b * b))) as s eqn:Es.
    clear Es.
    transitivity ((1 - a * a - b * b + a * a * (b * b) - c * c * (s * s))%R); [ring|].
    rewrite Hs. ring. }
  split; [exact Hdet|]. rewrite Hdet.
  apply Rmult_le_pos; [apply Rmult_le_pos|]; nra.
Qed.

Lemma vine_three_variables_determinant_witness :
  det3 (vC (vine_state_of 0%R 3 (-1)%R 1%R [1 / 2; 1 / 2; 1 / 2]%R)) =
  ((1 - (1 / 2 * (1 - -1) + -1) * (1 / 2 * (1 - -1) + -1)) *
   (1 - (1 / 2 * (1 - -1) + -1) * (1 / 2 * (1 - -1) + -1)) *
   (1 - (1 / 2 * (1 - -1) + -1) * (1 / 2 * (1 - -1) + -1)))%R /\
  (0 <= det3 (vC (vine_state_of 0%R 3 (-1)%R 1%R [1 / 2; 1 / 2; 1 / 2]%R)))%R.
Proof.
  apply (@vine_three_variables_determinant 0%R (-1)%R 1%R (1 / 2)%R (1 / 2)%R (1 / 2)%R);
    lra.
Defined.

(** ** Classification: rescaled and mirrored coefficients *)

Section Rescaling.
Local Open Scope R_scope.

Lemma sum_scaled (k : R) (b : list R) : sum (map (Rmult k) b) = k * sum b.
Proof.
  rewrite !sum_R. induction b as [|x b IH]; simpl; [lra|]. rewrite IH. lra.
Qed.

Lemma sumsq_scaled (k : R) (b : list R) :
  sum (map square (map (Rmult k) b)) = k * k * sum (map square b).
Proof.
  rewrite !sum_R. induction b as [|x b IH]; simpl; [lra|].
  rewrite IH. unfold square. cbn [nmul R_arith]. lra.
Qed.

Lemma sumsq_sum_nonneg (b : list R) : 0 <= sum (map square b).
Proof. rewrite sum_R. apply sumsq_nonneg. Qed.

(** The slope magnitude of [k * beta] is [|k|] times that of [beta]. *)
Lemma slope_magnitude_scaled (k : R) (b : list R) :
  slope_magnitude (vector (map (Rmult k) b)) None =
  Rabs k * slope_magnitude (vector b) None.
Proof.
  unfold slope_magnitude. cbn [vector data]. rewrite length_map.
  destruct (length b =? 1)%nat eqn:Hl.
  - destruct b as [|x [|? ?]]; try discriminate.
    unfold item. cbn [data map nth nabs R_arith]. apply Rabs_mult.
  - cbn [nsqrt R_arith]. rewrite sumsq_scaled.
    rewrite sqrt_mult_alt by nra.
    f_equal. fold (Rsqr k). apply sqrt_Rsqr_abs.
Qed.

End Rescaling.

(** X23.  One group over the reals, a vector of slopes with non-zero sum
    and magnitude, no [Sigma_x], [ERFINVGAMMA0 <> 0]: multiplying every
    slope by [k <> 0] divides the returned [mu_x] by [k] and the returned
    [sigma_x] by [|k|]. *)
Theorem rescaled_slopes_rescale_the_input :
  forall (erfinv logit : R -> R) (uninit a k : R) (b : list R),
    k <> 0%R ->
    sum b <> 0%R ->
    slope_magnitude (vector b) None <> 0%R ->
    ERFINVGAMMA0 erfinv <> 0%R ->
    exists mu_x sigma_x,
      calc_input_param_classification erfinv logit uninit (scalar a) (vector b) None =
      Ok (scalar mu_x, scalar sigma_x) /\
      calc_input_param_classification erfinv logit uninit
        (scalar a) (vector (map (Rmult k) b)) None =
      Ok (scalar (mu_x / k)%R, scalar (sigma_x / Rabs k)%R).
Proof.
  intros erfinv logit uninit a k b Hk Hsum Hs HE.
  rewrite !single_vector_values by (try exact I; intros Hn; now elim Hn).
  eexists; eexists; split; [reflexivity|].
  rewrite sum_scaled, slope_magnitude_scaled.
  assert (Hak : Rabs k <> 0%R) by now apply Rabs_no_R0.
  assert (H2 : sqrt 2 <> 0%R).
  { assert (0 < sqrt 2)%R by (apply sqrt_lt_R0; lra). lra. }
  unfold group_mu, group_sigma, shift. real_arith.
  destruct (Rltb (Rabs a) (DELTA_MAX erfinv logit)).
  - do 2 f_equal; f_equal; field; auto.
  - destruct (Rltb 0 a); do 2 f_equal; f_equal; field; auto.
Qed.

Lemma rescaled_slopes_rescale_the_input_witness :
  exists mu_x sigma_x,
    calc_input_param_classification (fun _ => - 1)%R (fun _ => - 1)%R 0%R
      (scalar 3%R) (vector [2; 1]%R) None = Ok (scalar mu_x, scalar sigma_x) /\
    calc_input_param_classification (fun _ => - 1)%R (fun _ => - 1)%R 0%R
      (scalar 3%R) (vector (map (Rmult 2) [2; 1]%R)) None =
    Ok (scalar (mu_x / 2)%R, scalar (sigma_x / Rabs 2)%R).
Proof.
  apply (@rescaled_slopes_rescale_the_input (fun _ => - 1)%R (fun _ => - 1)%R 0%R
           3%R 2%R [2; 1]%R).
  - lra.
  - simpl. lra.
  - unfold slope_magnitude, square. simpl.
    assert (0 < sqrt (2 * 2 + 1 * 1))%R by (apply sqrt_lt_R0; lra). lra.
  - unfold ERFINVGAMMA0. lra.
Defined.

(** X24.  One group over the reals, a vector of slopes, no [Sigma_x]:
    changing the sign of a non-zero intercept and of every slope changes
    nothing in the returned [mu_x] and [sigma_x]. *)
Theorem mirrored_coefficients_same_input :
  forall (erfinv logit : R -> R) (uninit a : R) (b : list R),
    a <> 0%R ->
    calc_input_param_classification erfinv logit uninit
      (scalar (- a)%R) (vector (map Ropp b)) None =
    calc_input_param_classification erfinv logit uninit (scalar a) (vector b) None.
Proof.
  intros erfinv logit uninit a b Ha.
  rewrite !single_vector_values by (try exact I; intros Hn; now elim Hn).
  assert (Hopp : map Ropp b = map (Rmult (-1)) b)
    by (apply map_ext; intros x; lra).
  rewrite Hopp, sum_scaled, slope_magnitude_scaled.
  replace (Rabs (-1)) with 1%R by (unfold Rabs; destruct (Rcase_abs (-1)); lra).
  rewrite Rmult_1_l.
  unfold group_mu, group_sigma, shift. real_arith. rewrite Rabs_Ropp.
  destruct (Rltb (Rabs a) (DELTA_MAX erfinv logit)); [reflexivity|].
  do 2 f_equal. f_equal.
  destruct (Rltb 0 (- a)) eqn:Hn, (Rltb 0 a) eqn:Hp.
  - apply Rltb_true in Hn, Hp. lra.
  - unfold Rdiv. replace (-1 * sum b)%R with (- sum b)%R by lra.
    rewrite Rinv_opp. lra.
  - unfold Rdiv. replace (-1 * sum b)%R with (- sum b)%R by lra.
    rewrite Rinv_opp. lra.
  - apply Rltb_false in Hn, Hp. lra.
Qed.

Lemma mirrored_coefficients_same_input_witness :
  calc_input_param_classification (fun _ => - 1)%R (fun _ => - 1)%R 0%R
    (scalar (- 3)%R) (vector (map Ropp [2; 1]%R)) None =
  calc_input_param_classification (fun _ => - 1)%R (fun _ => - 1)%R 0%R
    (scalar 3%R) (vector [2; 1]%R) None.
Proof.
  apply (@mirrored_coefficients_same_input (fun _ => - 1)%R (fun _ => - 1)%R 0%R
           3%R [2; 1]%R).
  lra.
Defined.

(** ** Classification: one slope for several groups *)

(** X25.  One slope for the [J > 1] groups of a vector [alpha], given as a
    scalar, as a vector of length one or as a 1 x 1 matrix, without
    [Sigma_x]: the call takes the path of the common slopes with [ssbeta] an
    array of shape (1,) and fails with [ValueError] when it stores the first
    entry of [sigma_x], whatever the intercepts and the slope are. *)
Theorem one_shared_slope_fails :
  forall (T : Type) (A : Arith T) (erfinv logit : T -> T) (uninit : T)
         (al : list T) (b : T),
    (1 < length al)%nat ->
    (exists msg,
       calc_input_param_classification erfinv logit uninit
         (vector al) (scalar b) None = Err (ValueError msg)) /\
    (exists msg,
       calc_input_param_classification erfinv logit uninit
         (vector al) (vector [b]) None = Err (ValueError msg)) /\
    (exists msg,
       calc_input_param_classification erfinv logit uninit
         (vector al) (matrix 1 1 [[b]]) None = Err (ValueError msg)).
Proof.
  intros T A erfinv logit uninit al b HJ.
  destruct al as [|a0 [|a1 al]]; try (simpl in HJ; lia).
  repeat split; exists msg_sequence;
    unfold calc_input_param_classification, group_count, multi_group, common_beta,
      group_body, as_element, squeeze, newaxis, index0, get, ndim, shape0;
    cbn; destruct (nlt (nabs a0) (DELTA_MAX erfinv logit)); reflexivity.
Qed.

Lemma one_shared_slope_fails_witness :
  exists msg,
    calc_input_param_classification erfinv64 logit64 (fl 0)
      (vector [fl 100; fl 0]) (scalar (fl 0)) None = Err (ValueError msg).
Proof.
  apply (@one_shared_slope_fails binary64 _ erfinv64 logit64 (fl 0)
           [fl 100; fl 0] (fl 0)).
  simpl. lia.
Defined.
